(** * Chad 5401 session capture: windowing, project routing and the
      transcript pass of [src/server.js], embedded and verified.

    Conventions of the embedding.
    - A JavaScript string is the list of its code units.  Code units are
      taken below 256 (type [ascii]); [toLowerCase], [\s] and [\d] follow
      ECMAScript on that range.
    - An optional field ([null] or [undefined]) is an [option]; the
      truthiness tests of the source ([x || d], [if (x)], [!x]) are written
      out: the empty string and the number 0 are falsy.
    - Timestamps are the integer milliseconds that [new Date(s).getTime()]
      yields, of type [Z].  [Math.floor (ts / w) * w] is floor division on
      them: for [w] = 1800000 the double division is exact enough over the
      whole range of valid dates.  A stored value that is not a date gives
      NaN instead: rows with such values are the subject of [Entry], [Span]
      and [Dated], where a number that may be NaN is an [option Z].
    - The regular expressions are run by a backtracking matcher in
      continuation-passing style, one combinator per quantifier, tried at
      every start position from the left as [String.prototype.match] does.
    - The record store behind [from(...)] is not part of the program: the
      pass is written over the answers of the store, and keeps the list of
      the calls it issues.  In [Processor] the store answers every call;
      [Dated] adds the call that is rejected and the [catch] around the
      loop body.  Logger calls have no effect on any result and are left
      out of the pass, and so is [extractProject], whose result is only
      logged; it is embedded on its own in [Logging]. *)

From Stdlib Require Import List Ascii String ZArith Lia Bool Permutation.
From Stdlib Require Import DecimalString DecimalZ DecimalPos.
Import ListNotations.

Abbreviation str := (list ascii).
Coercion list_ascii_of_string : string >-> list.
Open Scope string_scope.
Open Scope list_scope.

(** ** JavaScript strings *)

Module Js.

Definition code (c : ascii) : nat := nat_of_ascii c.

Definition in_range (lo hi : nat) (c : ascii) : bool :=
  (lo <=? code c)%nat && (code c <=? hi)%nat.

(** The double quote, written by its code. *)
Definition dquote : ascii := ascii_of_nat 34.

Definition is_digit (c : ascii) : bool := in_range 48 57 c.
Definition is_lower (c : ascii) : bool := in_range 97 122 c.
Definition is_upper (c : ascii) : bool := in_range 65 90 c.

(** [\s] on code units below 256: tab, line feed, vertical tab, form
    feed, carriage return, space and the no-break space. *)
Definition is_space (c : ascii) : bool :=
  in_range 9 13 c || (code c =? 32)%nat || (code c =? 160)%nat.

(** [toLowerCase] on one code unit: A-Z, and the Latin-1 capitals
    U+00C0..U+00DE except the multiplication sign U+00D7. *)
Definition lower_char (c : ascii) : ascii :=
  if is_upper c || (in_range 192 222 c && negb (code c =? 215)%nat)
  then ascii_of_nat (code c + 32)
  else c.

Definition toLowerCase (s : str) : str := map lower_char s.

Fixpoint str_eqb (a b : str) : bool :=
  match a, b with
  | [], [] => true
  | x :: a', y :: b' => Ascii.eqb x y && str_eqb a' b'
  | _, _ => false
  end.

Fixpoint startsWith (p s : str) : bool :=
  match p, s with
  | [], _ => true
  | x :: p', y :: s' => Ascii.eqb x y && startsWith p' s'
  | _ :: _, [] => false
  end.

(** [hay.includes(needle)] *)
Fixpoint includes (needle hay : str) : bool :=
  startsWith needle hay ||
  match hay with
  | [] => false
  | _ :: hay' => includes needle hay'
  end.

(** [s.endsWith(p)] *)
Definition endsWith (p s : str) : bool := startsWith (rev p) (rev s).

(** [s.substring(0, n)] *)
Definition substring0 (n : nat) (s : str) : str := firstn n s.

(** A string is truthy when it is not empty. *)
Definition truthy (s : str) : bool :=
  match s with [] => false | _ :: _ => true end.

(** [o || d] for an optional string [o] and a string default [d]. *)
Definition or_str (o : option str) (d : str) : str :=
  match o with
  | Some s => if truthy s then s else d
  | None => d
  end.

(** [o || null] for an optional string. *)
Definition or_null (o : option str) : option str :=
  match o with
  | Some s => if truthy s then Some s else None
  | None => None
  end.

(** [o || 0] for an optional number. *)
Definition num_or_zero (o : option Z) : Z :=
  match o with Some n => n | None => 0%Z end.

(** [o || null] for an optional number: 0 is falsy. *)
Definition num_or_null (o : option Z) : option Z :=
  match o with
  | Some n => if (n =? 0)%Z then None else Some n
  | None => None
  end.

(** [a || b] on optional numbers. *)
Definition num_or (a b : option Z) : option Z :=
  match num_or_null a with
  | Some n => Some n
  | None => b
  end.

(** Decimal text of an integer, as string concatenation prints it. *)
Definition num_to_str (n : Z) : str :=
  list_ascii_of_string (NilZero.string_of_int (Z.to_int n)).

(** [parseInt(s, 10)] on a string that starts with its digits: the value
    of the leading run of digits, [None] (NaN) when there is none.  The
    only call site passes the text matched by [\d{4,5}]. *)
Fixpoint digits_value (acc : Z) (s : str) : Z :=
  match s with
  | c :: s' =>
      if is_digit c then digits_value (10 * acc + Z.of_nat (code c - 48)) s'
      else acc
  | [] => acc
  end.

Definition parseInt10 (s : str) : option Z :=
  match s with
  | c :: _ => if is_digit c then Some (digits_value 0 s) else None
  | [] => None
  end.

(** *** Backtracking matcher *)

Section Matcher.
Context {R : Type}.

(** [cls*], greedy: take one more unit and go on; when what follows
    fails, give the unit back and stop here.  [acc] is the text taken
    so far, the continuation gets it with the rest of the input. *)
Fixpoint star (cls : ascii -> bool) (s acc : str)
    (k : str -> str -> option R) : option R :=
  match s with
  | c :: s' =>
      if cls c then
        match star cls s' (acc ++ [c]) k with
        | Some r => Some r
        | None => k acc s
        end
      else k acc s
  | [] => k acc s
  end.

(** [cls+] *)
Definition plus (cls : ascii -> bool) (s : str)
    (k : str -> str -> option R) : option R :=
  match s with
  | c :: s' => if cls c then star cls s' [c] k else None
  | [] => None
  end.

(** [cls{n}] *)
Fixpoint exactly (cls : ascii -> bool) (n : nat) (s acc : str)
    (k : str -> str -> option R) : option R :=
  match n with
  | O => k acc s
  | S n' =>
      match s with
      | c :: s' => if cls c then exactly cls n' s' (acc ++ [c]) k else None
      | [] => None
      end
  end.

(** [cls{0,n}], greedy *)
Fixpoint upto (cls : ascii -> bool) (n : nat) (s acc : str)
    (k : str -> str -> option R) : option R :=
  match n, s with
  | S n', c :: s' =>
      if cls c then
        match upto cls n' s' (acc ++ [c]) k with
        | Some r => Some r
        | None => k acc s
        end
      else k acc s
  | _, _ => k acc s
  end.

(** [cls{lo,hi}], greedy *)
Definition between (cls : ascii -> bool) (lo hi : nat) (s : str)
    (k : str -> str -> option R) : option R :=
  exactly cls lo s [] (fun a r => upto cls (hi - lo) r a k).

(** A literal piece of the pattern. *)
Definition lit (p s : str) (k : str -> option R) : option R :=
  if startsWith p s then k (skipn (List.length p) s) else None.

(** An unanchored pattern: the first start position, from the left,
    at which the matcher succeeds (the end of the input included). *)
Fixpoint search (m : str -> option R) (s : str) : option R :=
  match m s with
  | Some r => Some r
  | None =>
      match s with
      | [] => None
      | _ :: s' => search m s'
      end
  end.
End Matcher.

(** A string that does not go on with a unit of the class. *)
Definition stops (cls : ascii -> bool) (rest : str) : Prop :=
  match rest with
  | c :: _ => cls c = false
  | [] => True
  end.

End Js.

(** ** Working-directory routing *)

Module Routing.
Import Js.

(** The text of a match that started at [s] and left [rest]. *)
Definition matched (s rest : str) : str :=
  firstn (List.length s - List.length rest) s.

Definition not_quote (c : ascii) : bool := negb (Ascii.eqb c dquote).
Definition not_slash (c : ascii) : bool := negb (Ascii.eqb c "/").
Definition is_backslash (c : ascii) : bool := Ascii.eqb c "\".

(** The pattern of the cwd field at one start position: the word cwd in
    double quotes, [\s*], a colon, [\s*], and in double quotes a text of
    one or more units other than the double quote, which is group 1.
    Returns group 1 and the input left after the match. *)
Definition cwd_match_at (s : str) : option (str * str) :=
  lit (dquote :: "cwd" ++ [dquote]) s (fun r1 =>
  star is_space r1 [] (fun _ r2 =>
  lit ":" r2 (fun r3 =>
  star is_space r3 [] (fun _ r4 =>
  lit [dquote] r4 (fun r5 =>
  plus not_quote r5 (fun g r6 =>
  lit [dquote] r6 (fun r7 => Some (g, r7)))))))).

(** [content.match(/.../g)]: the texts of all matches, left to right,
    each search resuming where the previous match ended.  [skip] counts
    the units of the current match still to be passed over. *)
Fixpoint cwd_matches_from (skip : nat) (s : str) : list str :=
  match skip with
  | S n =>
      match s with
      | [] => []
      | _ :: s' => cwd_matches_from n s'
      end
  | O =>
      match cwd_match_at s with
      | Some (_, rest) =>
          let m := matched s rest in
          m :: match s with
               | [] => []
               | _ :: s' => cwd_matches_from (List.length m - 1) s'
               end
      | None =>
          match s with
          | [] => []
          | _ :: s' => cwd_matches_from 0 s'
          end
      end
  end.

(** The first [replace], global on two backslashes: every pair of
    backslashes becomes a slash. *)
Fixpoint replace_backslash_pairs (s : str) : str :=
  match s with
  | a :: t =>
      match t with
      | b :: s' =>
          if is_backslash a && is_backslash b
          then "/"%char :: replace_backslash_pairs s'
          else a :: replace_backslash_pairs t
      | [] => [a]
      end
  | [] => []
  end.

(** The second [replace], global on one backslash. *)
Definition replace_backslashes (s : str) : str :=
  map (fun c => if is_backslash c then "/"%char else c) s.

Definition extractCwdFromContent (content : str) : option str :=
  if negb (truthy content) then None
  else
    match rev (cwd_matches_from 0 content) with
    | lastMatch :: _ =>
        match search cwd_match_at lastMatch with
        | Some (g, _) => Some (replace_backslashes (replace_backslash_pairs g))
        | None => None
        end
    | [] => None
    end.

Record routing := {
  project_slug : option str;
  team_port : option Z
}.

Definition is_slug_char (c : ascii) : bool :=
  is_lower c || is_digit c || Ascii.eqb c "-".

(** [/([a-z0-9-]+)-(\d{4,5})/] at one start position: groups 1 and 2. *)
Definition port_match_at (s : str) : option (str * str) :=
  plus is_slug_char s (fun g1 r1 =>
  lit "-" r1 (fun r2 =>
  between is_digit 4 5 r2 (fun g2 _ => Some (g1, g2)))).

(** [/studio\/([^\/]+)/] and [/projects\/([^\/]+)/]: group 1. *)
Definition segment_match_at (dir : str) (s : str) : option str :=
  lit (dir ++ "/") s (fun r1 =>
  plus not_slash r1 (fun g _ => Some g)).

Definition no_routing : routing :=
  {| project_slug := None; team_port := None |}.

Definition in_port_range (p : option Z) : bool :=
  match p with
  | Some n => (4000 <=? n)%Z && (n <=? 9999)%Z
  | None => false
  end.

Definition routeBySegment (normalized : str) : routing :=
  match search (segment_match_at "studio") normalized with
  | Some g => {| project_slug := Some g; team_port := None |}
  | None =>
      match search (segment_match_at "projects") normalized with
      | Some g => {| project_slug := Some g; team_port := None |}
      | None => no_routing
      end
  end.

Definition parseRoutingFromCwd (cwd : option str) : routing :=
  match cwd with
  | None => no_routing
  | Some c =>
      if negb (truthy c) then no_routing
      else
        let normalized := toLowerCase (replace_backslashes c) in
        match search port_match_at normalized with
        | Some (g1, g2) =>
            let slug := g1 ++ "-" ++ g2 in
            let port := parseInt10 g2 in
            if in_port_range port
            then {| project_slug := Some slug; team_port := port |}
            else routeBySegment normalized
        | None => routeBySegment normalized
        end
  end.

(** [/^[a-z]:\\users\\/i.test(c)] *)
Definition windows_users_prefix (c : str) : bool :=
  match c with
  | d :: rest =>
      is_lower (lower_char d) && startsWith ":\users\" (toLowerCase rest)
  | [] => false
  end.

Definition isHomePath (p : option str) : bool :=
  match p with
  | None => false
  | Some p =>
      if negb (truthy p) then false
      else
        let c := toLowerCase p in
        includes "/home/" c || includes "/root/" c || endsWith "/root" c
        || includes "\users\" c || windows_users_prefix c
  end.

End Routing.

(** ** Records of the store and session windows *)

(** A row of [dev_transcripts_raw].  [original_timestamp] and
    [received_at] hold the milliseconds of the stored dates;
    [received_at] is only read when [original_timestamp] is absent.  A
    row whose stored dates need not parse is an [Entry.t]. *)
Module Raw.
Record t := {
  id : Z;
  source_type : option str;
  session_file : option str;
  project_folder : option str;
  project_slug : option str;
  team_port : option Z;
  content : str;
  original_timestamp : option Z;
  received_at : Z
}.
End Raw.

(** The object built per key by [groupByTimeWindow]. *)
Module Win.
Record t := {
  windowStart : Z;
  source_type : str;
  session_file : str;
  project_folder : option str;
  project_slug : option str;
  team_port : option Z;
  transcripts : list Raw.t;
  content : str;
  earliest_ts : Z;
  latest_ts : Z
}.
End Win.

(** ** Slug resolution *)

Module Resolver.
Import Js Routing.

Definition LOW_TRUST_SLUGS : list str :=
  [ "ai-team" : str; "terminal" : str; "unassigned" : str; "unknown" : str;
    "default" : str; "studio" : str; "www" : str ].

(** [LOW_TRUST_SLUGS.has(slug)] *)
Definition low_trust (slug : str) : bool :=
  existsb (str_eqb slug) LOW_TRUST_SLUGS.

Definition SLUG_PORT_MAP : list (str * str) :=
  [ ("ai-chad" : str, "ai-chad-5401" : str);
    ("ai-jen" : str, "ai-jen-5402" : str);
    ("ai-susan" : str, "ai-susan-5403" : str);
    ("ai-clair" : str, "ai-clair-5404" : str);
    ("ai-jason" : str, "ai-jason-5408" : str);
    ("ai-mike" : str, "ai-mike-5405" : str);
    ("ai-tiffany" : str, "ai-tiffany-5406" : str);
    ("ai-ryan" : str, "ai-ryan-5407" : str);
    ("kodiack-dashboard" : str, "kodiack-dashboard-5500" : str);
    ("terminal-server" : str, "terminal-server-5400" : str) ].

(** [SLUG_PORT_MAP] is an object literal: an index that is not one of its
    own keys is looked up on [Object.prototype], whose members are all
    truthy functions or objects. *)
Definition OBJECT_PROTOTYPE_KEYS : list str :=
  [ "constructor" : str; "__defineGetter__" : str; "__defineSetter__" : str;
    "hasOwnProperty" : str; "__lookupGetter__" : str;
    "__lookupSetter__" : str; "isPrototypeOf" : str;
    "propertyIsEnumerable" : str; "toString" : str; "valueOf" : str;
    "__proto__" : str; "toLocaleString" : str ].

(** What a slug expression evaluates to: a string, or the member of
    [Object.prototype] of that name. *)
Inductive slug_value :=
| SlugStr (s : str)
| SlugInherited (name : str).

Fixpoint assoc (k : str) (m : list (str * str)) : option str :=
  match m with
  | (k', v) :: m' => if str_eqb k k' then Some v else assoc k m'
  | [] => None
  end.

Definition normalizeSlug (slug : str) : slug_value :=
  if negb (truthy slug) then SlugStr slug
  else
    match assoc slug SLUG_PORT_MAP with
    | Some full => SlugStr full
    | None =>
        if existsb (str_eqb slug) OBJECT_PROTOTYPE_KEYS
        then SlugInherited slug
        else SlugStr slug
    end.

Record pattern := { pat_match : str; pat_slug : str }.

Definition patterns : list pattern :=
  [ {| pat_match := "kodiack-dashboard"; pat_slug := "kodiack-dashboard-5500" |};
    {| pat_match := "dashboard-5500"; pat_slug := "kodiack-dashboard-5500" |};
    {| pat_match := "ai-jen"; pat_slug := "ai-jen-5402" |};
    {| pat_match := "ai-susan"; pat_slug := "ai-susan-5403" |};
    {| pat_match := "ai-chad"; pat_slug := "ai-chad-5401" |};
    {| pat_match := "ai-jason"; pat_slug := "ai-jason-5408" |};
    {| pat_match := "terminal-server"; pat_slug := "terminal-server-5400" |};
    {| pat_match := "nextbid"; pat_slug := "nextbid" |};
    {| pat_match := "kodiack-studio"; pat_slug := "kodiack-studio" |} ].

Record identity := {
  slug : slug_value;
  reason : str;
  port : option Z
}.

(** The haystack of the content patterns: session file, project folder
    and the first 5000 units of the content, joined by spaces and
    lowercased. *)
Definition haystack (win : Win.t) : str :=
  toLowerCase
    (Win.session_file win ++ " "
     ++ or_str (Win.project_folder win) [] ++ " "
     ++ substring0 5000 (Win.content win)).

(** The [for] loop over the patterns: the first that the haystack
    includes decides. *)
Fixpoint first_pattern (hay : str) (ps : list pattern) : option pattern :=
  match ps with
  | pat :: ps' =>
      if includes (pat_match pat) hay then Some pat else first_pattern hay ps'
  | [] => None
  end.

Definition unassigned : identity :=
  {| slug := SlugStr "unassigned"; reason := "no_match"; port := None |}.

Definition by_content (win : Win.t) : identity :=
  match first_pattern (haystack win) patterns with
  | Some pat =>
      {| slug := SlugStr (pat_slug pat);
         reason := "content:" ++ pat_match pat;
         port := None |}
  | None => unassigned
  end.

(** [cwd && !isHomePath(cwd)] *)
Definition usable_cwd (cwd : option str) : bool :=
  match cwd with
  | Some c => truthy c && negb (isHomePath cwd)
  | None => false
  end.

Definition by_cwd_or_content (win : Win.t) (cwd : option str) : identity :=
  if usable_cwd cwd then
    let routing := parseRoutingFromCwd cwd in
    match or_null (project_slug routing) with
    | Some s => {| slug := SlugStr s; reason := "cwd"; port := team_port routing |}
    | None => by_content win
    end
  else by_content win.

(** A caller label is trusted when it is truthy and not low-trust. *)
Definition trusted_label (win : Win.t) : option str :=
  match or_null (Win.project_slug win) with
  | Some s => if low_trust s then None else Some s
  | None => None
  end.

Definition resolveProjectSlug (win : Win.t) (cwd : option str) : identity :=
  match trusted_label win with
  | Some s =>
      {| slug := normalizeSlug s; reason := "transcript";
         port := Win.team_port win |}
  | None => by_cwd_or_content win cwd
  end.

End Resolver.

(** ** Time windows *)

Module Aggregator.
Import Js.

Definition TIME_WINDOW_MS : Z := 30 * 60 * 1000.

Definition newline : ascii := ascii_of_nat 10.

(** [ts]: the original timestamp when the row has one, else the time of
    reception. *)
Definition timestamp (t : Raw.t) : Z :=
  match Raw.original_timestamp t with
  | Some ts => ts
  | None => Raw.received_at t
  end.

Definition window_start (ts : Z) : Z :=
  (ts / TIME_WINDOW_MS * TIME_WINDOW_MS)%Z.

Definition sourceType (t : Raw.t) : str := or_str (Raw.source_type t) "transcript".
Definition sourceName (t : Raw.t) : str := or_str (Raw.session_file t) "unknown".
Definition teamPort (t : Raw.t) : Z := num_or_zero (Raw.team_port t).

(** The property name under which a row is filed. *)
Definition window_key (t : Raw.t) : str :=
  sourceType t ++ ":" ++ sourceName t ++ ":" ++ num_to_str (teamPort t)
  ++ ":" ++ num_to_str (window_start (timestamp t)).

(** The object literal stored when the key is new. *)
Definition fresh (t : Raw.t) : Win.t :=
  {| Win.windowStart := window_start (timestamp t);
     Win.source_type := sourceType t;
     Win.session_file := sourceName t;
     Win.project_folder := or_null (Raw.project_folder t);
     Win.project_slug := or_null (Raw.project_slug t);
     Win.team_port := num_or_null (Raw.team_port t);
     Win.transcripts := [];
     Win.content := [];
     Win.earliest_ts := timestamp t;
     Win.latest_ts := timestamp t |}.

(** The four updates made for every row: push, append, min, max. *)
Definition push (w : Win.t) (t : Raw.t) : Win.t :=
  {| Win.windowStart := Win.windowStart w;
     Win.source_type := Win.source_type w;
     Win.session_file := Win.session_file w;
     Win.project_folder := Win.project_folder w;
     Win.project_slug := Win.project_slug w;
     Win.team_port := Win.team_port w;
     Win.transcripts := Win.transcripts w ++ [t];
     Win.content := Win.content w ++ Raw.content t ++ [newline];
     Win.earliest_ts := Z.min (Win.earliest_ts w) (timestamp t);
     Win.latest_ts := Z.max (Win.latest_ts w) (timestamp t) |}.

(** [windows] is an object used as a map; its keys all contain a colon,
    so none is an array index or a member of [Object.prototype], and
    [Object.values] lists the windows in the order their keys were
    added: an association list, new keys at the end. *)
Definition windows := list (str * Win.t).

Fixpoint lookup (key : str) (ws : windows) : option Win.t :=
  match ws with
  | (k, w) :: ws' => if str_eqb key k then Some w else lookup key ws'
  | [] => None
  end.

Fixpoint update (key : str) (f : Win.t -> Win.t) (ws : windows) : windows :=
  match ws with
  | (k, w) :: ws' =>
      if str_eqb key k then (k, f w) :: ws' else (k, w) :: update key f ws'
  | [] => []
  end.

(** One turn of the loop. *)
Definition add_record (ws : windows) (t : Raw.t) : windows :=
  let key := window_key t in
  let ws1 :=
    match lookup key ws with
    | Some _ => ws
    | None => ws ++ [(key, fresh t)]
    end in
  update key (fun w => push w t) ws1.

Definition group_entries (transcripts : list Raw.t) : windows :=
  fold_left add_record transcripts [].

Definition groupByTimeWindow (transcripts : list Raw.t) : list Win.t :=
  map snd (group_entries transcripts).

End Aggregator.

(** ** The transcript pass *)

Module Processor.
Import Js Routing Resolver Aggregator.

(** The row inserted into [dev_ai_sessions]; [started_at] holds the
    milliseconds of the date. *)
Record AISession := {
  project_id : option str;
  project_uuid : option str;
  project_slug : slug_value;
  team_port : option Z;
  source_type : str;
  source_name : str;
  status : str;
  raw_content : str;
  message_count : nat;
  started_at : Z
}.

(** The calls the pass makes on the store. *)
Inductive call :=
| FetchUnprocessed
| SelectProject (slug : slug_value)
| InsertSession (row : AISession)
| UpdateProcessed (id : Z).

Record db_error := { message : option str }.

(** Answer to [select('id').eq('slug', s).single()]: [data_id] is
    [data?.id]. *)
Record select_answer := {
  data_id : option str;
  select_error : option db_error
}.

Record fetch_answer := {
  fetch_data : option (list Raw.t);
  fetch_error : option db_error
}.

(** The store: what it answers to a call, given the calls made before.
    Failures come back in the [error] field of the answer, as every call
    site reads it.  The answer to an update is not read by the program.
    A store whose calls may be rejected is a [Dated.store]. *)
Record store := {
  fetch_unprocessed : fetch_answer;
  select_project : list call -> slug_value -> select_answer;
  insert_session : list call -> AISession -> option db_error
}.

Record state := {
  calls : list call;
  sessionsCreated : nat;
  transcriptsProcessed : nat;
  errors : nat
}.

Record summary := {
  processed : nat;
  sessions : option nat;
  summary_errors : nat
}.

Definition markTranscriptsProcessed (ids : list Z) (cs : list call) : list call :=
  fold_left (fun cs id => cs ++ [UpdateProcessed id]) ids cs.

(** [insertError.message && insertError.message.includes('duplicate key')] *)
Definition is_duplicate_key (e : db_error) : bool :=
  match message e with
  | Some m => truthy m && includes "duplicate key" m
  | None => false
  end.

Definition count_newlines (s : str) : nat :=
  List.length (filter (Ascii.eqb newline) s).

Section Pass.
Variable db : store.

(** One lookup of a project id by slug: the id when there is no error
    and the id is truthy. *)
Definition select_id (cs : list call) (s : slug_value) : list call * option str :=
  let ans := select_project db cs s in
  (cs ++ [SelectProject s],
   match select_error ans with
   | None => or_null (data_id ans)
   | Some _ => None
   end).

(** The project id of the slug, else that of "unassigned". *)
Definition resolve_uuid (cs : list call) (finalSlug : slug_value)
    : list call * option str :=
  match select_id cs finalSlug with
  | (cs1, Some uuid) => (cs1, Some uuid)
  | (cs1, None) => select_id cs1 (SlugStr "unassigned")
  end.

Definition session_row (w : Win.t) (uuid : option str) : AISession :=
  let content := Win.content w in
  let cwd := extractCwdFromContent content in
  let resolved := resolveProjectSlug w cwd in
  {| project_id := uuid;
     project_uuid := uuid;
     project_slug := slug resolved;
     team_port := num_or (port resolved) (Win.team_port w);
     source_type := or_str (Some (Win.source_type w)) "transcript";
     source_name := Win.session_file w;
     status := "active";
     raw_content := content;
     message_count := count_newlines content + 1;
     started_at := Win.windowStart w |}.

(** The calls made up to the insert of a window, and the row it
    inserts. *)
Definition insert_attempt (cs : list call) (w : Win.t) : list call * AISession :=
  let resolved :=
    resolveProjectSlug w (extractCwdFromContent (Win.content w)) in
  let '(cs1, uuid) := resolve_uuid cs (slug resolved) in
  (cs1, session_row w uuid).

Definition member_ids (w : Win.t) : list Z := map Raw.id (Win.transcripts w).

(** The body of the loop over the windows. *)
Definition processWindow (st : state) (w : Win.t) : state :=
  if (List.length (Win.content w) <? 100)%nat then
    {| calls := markTranscriptsProcessed (member_ids w) (calls st);
       sessionsCreated := sessionsCreated st;
       transcriptsProcessed :=
         transcriptsProcessed st + List.length (Win.transcripts w);
       errors := errors st |}
  else
    let '(cs1, row) := insert_attempt (calls st) w in
    let insertError := insert_session db cs1 row in
    let cs2 := cs1 ++ [InsertSession row] in
    match insertError with
    | Some e =>
        if is_duplicate_key e then
          {| calls := markTranscriptsProcessed (member_ids w) cs2;
             sessionsCreated := sessionsCreated st + 1;
             transcriptsProcessed :=
               transcriptsProcessed st + List.length (Win.transcripts w);
             errors := errors st |}
        else
          {| calls := cs2;
             sessionsCreated := sessionsCreated st;
             transcriptsProcessed := transcriptsProcessed st;
             errors := errors st + 1 |}
    | None =>
        {| calls := markTranscriptsProcessed (member_ids w) cs2;
           sessionsCreated := sessionsCreated st + 1;
           transcriptsProcessed :=
             transcriptsProcessed st + List.length (Win.transcripts w);
           errors := errors st |}
    end.

Definition processWindows (ws : list Win.t) (st : state) : state :=
  fold_left processWindow ws st.

Definition start : state :=
  {| calls := [FetchUnprocessed]; sessionsCreated := 0;
     transcriptsProcessed := 0; errors := 0 |}.

(** A whole pass: the summary returned and the calls made. *)
Definition processTranscripts : summary * list call :=
  let ans := fetch_unprocessed db in
  match fetch_error ans with
  | Some _ =>
      ({| processed := 0; sessions := None; summary_errors := 1 |},
       [FetchUnprocessed])
  | None =>
      match fetch_data ans with
      | None | Some [] =>
          ({| processed := 0; sessions := Some 0; summary_errors := 0 |},
           [FetchUnprocessed])
      | Some transcripts =>
          let st := processWindows (groupByTimeWindow transcripts) start in
          ({| processed := transcriptsProcessed st;
              sessions := Some (sessionsCreated st);
              summary_errors := errors st |},
           calls st)
      end
  end.
End Pass.

End Processor.

(** ** Reading the windows of a batch *)

Module Windows.
Import Js Aggregator.

Definition colon : ascii := ":"%char.

(** The four components that the key is printed from. *)
Definition agree (t1 t2 : Raw.t) : Prop :=
  sourceType t1 = sourceType t2
  /\ sourceName t1 = sourceName t2
  /\ teamPort t1 = teamPort t2
  /\ window_start (timestamp t1) = window_start (timestamp t2).

(** The rows of a batch filed under a key, in the order of the batch. *)
Definition members (k : str) (l : list Raw.t) : list Raw.t :=
  filter (fun t => str_eqb (window_key t) k) l.

(** The window that holds the row [t0] followed by the rows [rest]. *)
Definition build (t0 : Raw.t) (rest : list Raw.t) : Win.t :=
  fold_left push rest (push (fresh t0) t0).

Definition window_of (m : list Raw.t) : option Win.t :=
  match m with
  | t0 :: rest => Some (build t0 rest)
  | [] => None
  end.

(** What one row adds to the content. *)
Definition piece (t : Raw.t) : str := Raw.content t ++ [newline].

(** Two rows of a batch land in the same window. *)
Definition same_window (l : list Raw.t) (t1 t2 : Raw.t) : Prop :=
  exists w, In w (groupByTimeWindow l)
            /\ In t1 (Win.transcripts w) /\ In t2 (Win.transcripts w).

End Windows.

(** ** Reading the calls of a pass *)

Module Turn.
Import Js Aggregator Processor.

Definition is_update (c : call) : bool :=
  match c with UpdateProcessed _ => true | _ => false end.

Section Outcome.
Variable db : store.

(** What one turn of the loop does, by case. *)
Inductive outcome (st : state) (w : Win.t) : state -> Prop :=
| Skipped :
    (List.length (Win.content w) < 100)%nat ->
    outcome st w
      {| calls := calls st ++ map UpdateProcessed (member_ids w);
         sessionsCreated := sessionsCreated st;
         transcriptsProcessed :=
           transcriptsProcessed st + List.length (Win.transcripts w);
         errors := errors st |}
| Stored (ok : bool) :
    (100 <= List.length (Win.content w))%nat ->
    match insert_session db (fst (insert_attempt db (calls st) w))
                            (snd (insert_attempt db (calls st) w)) with
    | Some e => ok = false /\ is_duplicate_key e = true
    | None => ok = true
    end ->
    outcome st w
      {| calls := fst (insert_attempt db (calls st) w)
                  ++ InsertSession (snd (insert_attempt db (calls st) w))
                  :: map UpdateProcessed (member_ids w);
         sessionsCreated := sessionsCreated st + 1;
         transcriptsProcessed :=
           transcriptsProcessed st + List.length (Win.transcripts w);
         errors := errors st |}
| Failed (e : db_error) :
    (100 <= List.length (Win.content w))%nat ->
    insert_session db (fst (insert_attempt db (calls st) w))
                      (snd (insert_attempt db (calls st) w)) = Some e ->
    is_duplicate_key e = false ->
    outcome st w
      {| calls := fst (insert_attempt db (calls st) w)
                  ++ [InsertSession (snd (insert_attempt db (calls st) w))];
         sessionsCreated := sessionsCreated st;
         transcriptsProcessed := transcriptsProcessed st;
         errors := errors st + 1 |}.

End Outcome.

End Turn.

(** ** Sample windows, rows and stores *)

Module Samples.
Import Js Routing Resolver Aggregator Processor Windows.

(** The row of the spec's scenario: the caller names [ai-team] and the
    content gives the cwd [/home/bob/project-5401/x]; and its window. *)
Definition home_row : Raw.t :=
  {| Raw.id := 20; Raw.source_type := Some ("transcript" : str);
     Raw.session_file := Some ("sessions/a.jsonl" : str);
     Raw.project_folder := None;
     Raw.project_slug := Some ("ai-team" : str); Raw.team_port := None;
     Raw.content :=
       dquote :: "cwd" ++ [dquote] ++ ":" ++ [dquote]
       ++ "/home/bob/project-5401/x" ++ [dquote];
     Raw.original_timestamp := Some 1000%Z; Raw.received_at := 1000 |}.

Definition home_window : Win.t := build home_row [].

(** A window with a trusted caller label. *)
Definition labelled_window : Win.t :=
  {| Win.windowStart := 0; Win.source_type := "transcript";
     Win.session_file := "sessions/a.jsonl"; Win.project_folder := None;
     Win.project_slug := Some ("ai-jen" : str); Win.team_port := Some 5402%Z;
     Win.transcripts := []; Win.content := [];
     Win.earliest_ts := 0; Win.latest_ts := 0 |}.

(** Sample rows. *)
Definition row (id : Z) (source_type session_file project_slug : option str)
    (team_port : option Z) (content : str) (ts : Z) : Raw.t :=
  {| Raw.id := id; Raw.source_type := source_type;
     Raw.session_file := session_file; Raw.project_folder := None;
     Raw.project_slug := project_slug; Raw.team_port := team_port;
     Raw.content := content; Raw.original_timestamp := Some ts;
     Raw.received_at := ts |}.

Definition row_a : Raw.t :=
  row 1 (Some ("terminal" : str)) (Some ("5400:out.log" : str)) None None
      "ls" 1000.
Definition row_b : Raw.t :=
  row 2 (Some ("terminal:5400" : str)) (Some ("out.log" : str)) None None
      "pwd" 2000.

Definition row_c : Raw.t :=
  row 3 (Some ("transcript" : str)) (Some ("s1.jsonl" : str))
      (Some ("ai-jen" : str)) (Some 9500%Z) "one" 1000.
Definition row_d : Raw.t :=
  row 4 (Some ("transcript" : str)) (Some ("s1.jsonl" : str))
      (Some ("ai-chad" : str)) (Some 9500%Z) "two" 2000.

Definition long_text : str :=
  dquote :: "cwd" ++ [dquote] ++ ": " ++ [dquote] ++ "/srv/ai-chad-5401/work"
  ++ [dquote]
  ++ " user asked for the build to be fixed and the deploy script to be run again after the tests".

Definition row_long : Raw.t :=
  row 10 (Some ("transcript" : str)) (Some ("s2.jsonl" : str)) None None
      long_text 5000.
Definition row_short : Raw.t :=
  row 11 (Some ("transcript" : str)) (Some ("s3.jsonl" : str)) None None
      "ok" 5000.

Definition sample_fetch : fetch_answer :=
  {| fetch_data := Some [row_long; row_short]; fetch_error := None |}.

Definition answer_id : select_answer :=
  {| data_id := Some ("p-1" : str); select_error := None |}.

Definition duplicate_error : db_error :=
  {| message := Some ("duplicate key value violates unique constraint" : str) |}.

Definition other_error : db_error :=
  {| message := Some ("connection refused" : str) |}.

(** A store in which the session of every window exists already. *)
Definition db_dup : store :=
  {| fetch_unprocessed := sample_fetch;
     select_project := fun _ _ => answer_id;
     insert_session := fun _ _ => Some duplicate_error |}.

(** A store that refuses every insert. *)
Definition db_fail : store :=
  {| fetch_unprocessed := sample_fetch;
     select_project := fun _ _ => answer_id;
     insert_session := fun _ _ => Some other_error |}.

(** Two rows of one window without caller label; the second carries a
    cwd field. *)
Definition row_e : Raw.t :=
  row 30 None (Some ("s4.jsonl" : str)) None None "starting" 1000.
Definition row_f : Raw.t :=
  row 31 None (Some ("s4.jsonl" : str)) None None
      (dquote :: "cwd" ++ [dquote] ++ ": " ++ [dquote]
       ++ "/srv/ai-chad-5401/work" ++ [dquote]) 2000.

(** A cwd field as JSON writes a Windows profile directory. *)
Definition windows_text : str :=
  dquote :: "cwd" ++ [dquote] ++ ": " ++ [dquote]
  ++ "C:\\Users\\bob\\project-5401" ++ [dquote].

End Samples.

(** ** The project path of the log line *)

Module Logging.
Import Js Routing.

(** [s.split(sep)] for a separator of one unit: the pieces between the
    separators, the empty ones included; one piece when there is no
    separator. *)
Fixpoint split (sep : ascii) (s : str) : list str :=
  match s with
  | [] => [[]]
  | c :: s' =>
      if Ascii.eqb c sep then [] :: split sep s'
      else
        match split sep s' with
        | piece :: pieces => (c :: piece) :: pieces
        | [] => [[c]]
        end
  end.

(** [.replace(/^([A-Z])--/, '$1:/')]: a capital followed by two hyphens at
    the start becomes the capital, a colon and a slash. *)
Definition drive_prefix (d : str) : str :=
  match d with
  | l :: h1 :: h2 :: rest =>
      if is_upper l && Ascii.eqb h1 "-" && Ascii.eqb h2 "-"
      then l :: ":"%char :: "/"%char :: rest
      else d
  | _ => d
  end.

(** [.replace(/-/g, '/')] *)
Definition replace_hyphens (s : str) : str :=
  map (fun c => if Ascii.eqb c "-" then "/"%char else c) s.

Definition extractProject (sessionFile : option str) : str :=
  match sessionFile with
  | None => "unknown"
  | Some f =>
      if negb (truthy f) then "unknown"
      else
        let normalized := replace_backslashes f in
        let parts := split "/" normalized in
        let dirPart :=
          match parts with
          | first :: _ :: _ => first
          | _ => f
          end in
        let converted := replace_hyphens (drive_prefix dirPart) in
        or_str (Some converted) "unknown"
  end.

End Logging.

(** ** Rows written by the terminal monitor *)

Module Terminal.

(** The row that [writeTerminalToRaw] inserts.  Its [session] argument is
    not used.  [now] is the time of the call, which becomes
    [original_timestamp]; [id] and [received_at] are what the store gives
    the row. *)
Definition writeTerminalToRaw (content : str) (now : Z) (id received_at : Z)
    : Raw.t :=
  {| Raw.id := id;
     Raw.source_type := Some ("terminal" : str);
     Raw.session_file := Some ("terminal/5400" : str);
     Raw.project_folder := None;
     Raw.project_slug := Some ("terminal" : str);
     Raw.team_port := Some 5400%Z;
     Raw.content := content;
     Raw.original_timestamp := Some now;
     Raw.received_at := received_at |}.

End Terminal.

(** ** Reading a content, a batch and a list of calls *)

Module Reading.
Import Js Routing Aggregator Processor Windows Terminal.

(** A cwd field as it stands in a content: the word cwd in double
    quotes, white space, a colon, white space and the path in double
    quotes; with the text that precedes the field. *)
Record cwd_item := {
  gap : str;
  before_colon : str;
  after_colon : str;
  path : str
}.

Definition cwd_field (it : cwd_item) : str :=
  dquote :: "cwd" ++ [dquote] ++ before_colon it ++ ":" ++ after_colon it
  ++ [dquote] ++ path it ++ [dquote].

Definition well_formed (it : cwd_item) : Prop :=
  ~ In dquote (gap it)
  /\ forallb is_space (before_colon it) = true
  /\ forallb is_space (after_colon it) = true
  /\ path it <> [] /\ ~ In dquote (path it).

Definition render (items : list cwd_item) : str :=
  flat_map (fun it => gap it ++ cwd_field it) items.

(** The keys of a batch in the order of their first rows; [seen] holds
    the keys met so far. *)
Fixpoint first_keys (seen : list str) (l : list Raw.t) : list str :=
  match l with
  | [] => []
  | t :: l' =>
      if existsb (str_eqb (window_key t)) seen then first_keys seen l'
      else window_key t :: first_keys (window_key t :: seen) l'
  end.

(** The ids of the updates among some calls, in order. *)
Definition updated_ids (cs : list call) : list Z :=
  flat_map (fun c => match c with UpdateProcessed i => [i] | _ => [] end) cs.

(** The rows of the inserts among some calls, in order. *)
Definition inserted_rows (cs : list call) : list AISession :=
  flat_map (fun c => match c with InsertSession r => [r] | _ => [] end) cs.

Definition all_members (ws : list Win.t) : list Raw.t :=
  List.concat (map Win.transcripts ws).

(** The windows that are not skipped as short. *)
Definition long_windows (ws : list Win.t) : list Win.t :=
  filter (fun w => negb (List.length (Win.content w) <? 100)%nat) ws.

(** The word cwd in double quotes, with which every cwd field starts. *)
Definition marker : str := dquote :: "cwd" ++ [dquote].

Definition hyphen : ascii := "-"%char.

(** A row written by the terminal monitor. *)
Definition terminal_row (t : Raw.t) : Prop :=
  exists content now id received_at,
    t = writeTerminalToRaw content now id received_at.

End Reading.

(** ** More samples *)

Module MoreSamples.
Import Js Routing Resolver Aggregator Processor Windows Reading Samples.

(** Two cwd fields of one content. *)
Definition field_e : cwd_item :=
  {| gap := "{"; before_colon := []; after_colon := " ";
     path := "/srv/old-4000/x" |}.
Definition field_f : cwd_item :=
  {| gap := ", "; before_colon := " "; after_colon := [];
     path := "/srv/ai-chad-5401/work" |}.

(** A window whose session file names an agent in capitals. *)
Definition jen_window : Win.t :=
  {| Win.windowStart := 0; Win.source_type := "transcript";
     Win.session_file := "C--Projects-AI-Jen/s.jsonl";
     Win.project_folder := None; Win.project_slug := None;
     Win.team_port := None; Win.transcripts := [];
     Win.content := "work on ai-chad and the rest";
     Win.earliest_ts := 0; Win.latest_ts := 0 |}.

(** Two rows written by the terminal monitor in one half hour; the
    output of the first names a working directory. *)
Definition terminal_text : str :=
  dquote :: "cwd" ++ [dquote] ++ ":" ++ [dquote] ++ "/srv/ai-chad-5401/work"
  ++ [dquote].

Definition terminal_batch : list Raw.t :=
  [ Terminal.writeTerminalToRaw terminal_text 1000 1 1000;
    Terminal.writeTerminalToRaw "pwd" 2000 2 2000 ].

(** A store that knows the projects [ai-chad-5401] and [unassigned],
    and accepts every insert. *)
Definition db_projects : store :=
  {| fetch_unprocessed := sample_fetch;
     select_project := fun _ s =>
       match s with
       | SlugStr name =>
           if str_eqb name "ai-chad-5401"
           then {| data_id := Some ("p-chad" : str); select_error := None |}
           else if str_eqb name "unassigned"
           then {| data_id := Some ("p-none" : str); select_error := None |}
           else {| data_id := None;
                   select_error := Some {| message := Some ("no rows" : str) |} |}
       | SlugInherited _ =>
           {| data_id := None;
              select_error := Some {| message := Some ("no rows" : str) |} |}
       end;
     insert_session := fun _ _ => None |}.


End MoreSamples.

(** ** Dates that do not parse, calls that are rejected *)

(** [Raw.t], [Win.t] and [Processor] are the program on rows whose
    stored dates parse and over a store that answers every call.  The
    program itself assumes neither: [new Date(x).getTime()] is NaN when
    [x] is not a date, [new Date(NaN).toISOString()] throws, an awaited
    call may be rejected, and the loop body of [processTranscripts] runs
    inside [try ... catch].  The modules below embed [groupByTimeWindow]
    and [processTranscripts] without the two assumptions.  A number that
    may be NaN is an [option Z], [None] for NaN. *)

Module Clock.
Import Js.

Definition time := option Z.

(** [Math.floor(ts / TIME_WINDOW_MS) * TIME_WINDOW_MS] *)
Definition window_start (ts : time) : time :=
  match ts with
  | Some n => Some (Aggregator.window_start n)
  | None => None
  end.

(** [Math.min(a, b)] and [Math.max(a, b)]: NaN when an argument is. *)
Definition min (a b : time) : time :=
  match a, b with
  | Some x, Some y => Some (Z.min x y)
  | _, _ => None
  end.

Definition max (a b : time) : time :=
  match a, b with
  | Some x, Some y => Some (Z.max x y)
  | _, _ => None
  end.

(** The text of a number in a string concatenation. *)
Definition time_to_str (ts : time) : str :=
  match ts with
  | Some n => num_to_str n
  | None => "NaN"
  end.

End Clock.

(** A row of [dev_transcripts_raw] as the store returns it.
    [original_timestamp] and [received_at] hold what
    [new Date(x).getTime()] yields for the stored value;
    [original_timestamp] is [None] when the stored value is falsy. *)
Module Entry.
Record t := {
  id : Z;
  source_type : option str;
  session_file : option str;
  project_folder : option str;
  project_slug : option str;
  team_port : option Z;
  content : str;
  original_timestamp : option Clock.time;
  received_at : Clock.time
}.
End Entry.

(** The object built per key by [groupByTimeWindow], its three times as
    numbers that may be NaN. *)
Module Span.
Record t := {
  windowStart : Clock.time;
  source_type : str;
  session_file : str;
  project_folder : option str;
  project_slug : option str;
  team_port : option Z;
  transcripts : list Entry.t;
  content : str;
  earliest_ts : Clock.time;
  latest_ts : Clock.time
}.
End Span.

Module Dated.
Import Js Routing Resolver Processor Clock.

(** *** [groupByTimeWindow] *)

Definition timestamp (t : Entry.t) : time :=
  match Entry.original_timestamp t with
  | Some ts => ts
  | None => Entry.received_at t
  end.

Definition sourceType (t : Entry.t) : str :=
  or_str (Entry.source_type t) "transcript".
Definition sourceName (t : Entry.t) : str :=
  or_str (Entry.session_file t) "unknown".
Definition teamPort (t : Entry.t) : Z := num_or_zero (Entry.team_port t).

Definition window_key (t : Entry.t) : str :=
  sourceType t ++ ":" ++ sourceName t ++ ":" ++ num_to_str (teamPort t)
  ++ ":" ++ time_to_str (window_start (timestamp t)).

Definition fresh (t : Entry.t) : Span.t :=
  {| Span.windowStart := window_start (timestamp t);
     Span.source_type := sourceType t;
     Span.session_file := sourceName t;
     Span.project_folder := or_null (Entry.project_folder t);
     Span.project_slug := or_null (Entry.project_slug t);
     Span.team_port := num_or_null (Entry.team_port t);
     Span.transcripts := [];
     Span.content := [];
     Span.earliest_ts := timestamp t;
     Span.latest_ts := timestamp t |}.

Definition push (w : Span.t) (t : Entry.t) : Span.t :=
  {| Span.windowStart := Span.windowStart w;
     Span.source_type := Span.source_type w;
     Span.session_file := Span.session_file w;
     Span.project_folder := Span.project_folder w;
     Span.project_slug := Span.project_slug w;
     Span.team_port := Span.team_port w;
     Span.transcripts := Span.transcripts w ++ [t];
     Span.content := Span.content w ++ Entry.content t ++ [Aggregator.newline];
     Span.earliest_ts := min (Span.earliest_ts w) (timestamp t);
     Span.latest_ts := max (Span.latest_ts w) (timestamp t) |}.

Definition windows := list (str * Span.t).

Fixpoint lookup (key : str) (ws : windows) : option Span.t :=
  match ws with
  | (k, w) :: ws' => if str_eqb key k then Some w else lookup key ws'
  | [] => None
  end.

Fixpoint update (key : str) (f : Span.t -> Span.t) (ws : windows) : windows :=
  match ws with
  | (k, w) :: ws' =>
      if str_eqb key k then (k, f w) :: ws' else (k, w) :: update key f ws'
  | [] => []
  end.

Definition add_record (ws : windows) (t : Entry.t) : windows :=
  let key := window_key t in
  let ws1 :=
    match lookup key ws with
    | Some _ => ws
    | None => ws ++ [(key, fresh t)]
    end in
  update key (fun w => push w t) ws1.

Definition group_entries (transcripts : list Entry.t) : windows :=
  fold_left add_record transcripts [].

Definition groupByTimeWindow (transcripts : list Entry.t) : list Span.t :=
  map snd (group_entries transcripts).

(** *** The window as [resolveProjectSlug] reads it *)

(** [resolveProjectSlug] reads the label, the port, the session file, the
    folder and the content of a window, and none of its times: it is
    given the window with NaN read as 0. *)
Definition number (ts : time) : Z :=
  match ts with
  | Some n => n
  | None => 0%Z
  end.

Definition to_raw (t : Entry.t) : Raw.t :=
  {| Raw.id := Entry.id t;
     Raw.source_type := Entry.source_type t;
     Raw.session_file := Entry.session_file t;
     Raw.project_folder := Entry.project_folder t;
     Raw.project_slug := Entry.project_slug t;
     Raw.team_port := Entry.team_port t;
     Raw.content := Entry.content t;
     Raw.original_timestamp :=
       match Entry.original_timestamp t with
       | Some ts => Some (number ts)
       | None => None
       end;
     Raw.received_at := number (Entry.received_at t) |}.

Definition to_win (w : Span.t) : Win.t :=
  {| Win.windowStart := number (Span.windowStart w);
     Win.source_type := Span.source_type w;
     Win.session_file := Span.session_file w;
     Win.project_folder := Span.project_folder w;
     Win.project_slug := Span.project_slug w;
     Win.team_port := Span.team_port w;
     Win.transcripts := map to_raw (Span.transcripts w);
     Win.content := Span.content w;
     Win.earliest_ts := number (Span.earliest_ts w);
     Win.latest_ts := number (Span.latest_ts w) |}.

(** *** The store *)

(** An awaited call is answered, or rejected: [await] then throws. *)
Inductive reply (A : Type) : Type :=
| Answered (a : A)
| Rejected.

Arguments Answered {A} a.
Arguments Rejected {A}.

Record fetch_answer := {
  fetch_data : option (list Entry.t);
  fetch_error : option db_error
}.

Record store := {
  fetch_unprocessed : reply fetch_answer;
  select_project : list call -> slug_value -> reply select_answer;
  insert_session : list call -> AISession -> reply (option db_error);
  update_processed : list call -> Z -> reply unit
}.

(** *** The loop body *)

(** A stretch of the loop body: from the calls made so far to the calls
    made then, with its value, or with no value when an exception was
    thrown. *)
Definition run (A : Type) : Type := list call -> list call * option A.

Definition ret {A : Type} (a : A) : run A := fun cs => (cs, Some a).

Definition throw {A : Type} : run A := fun cs => (cs, None).

Definition bind {A B : Type} (m : run A) (f : A -> run B) : run B :=
  fun cs =>
    match m cs with
    | (cs1, Some a) => f a cs1
    | (cs1, None) => (cs1, None)
    end.

Notation "x <- m ;; k" := (bind m (fun x => k))
  (at level 61, m at next level, right associativity).

(** [await] of a call on the store. *)
Definition await {A : Type} (c : call) (answer : list call -> reply A) : run A :=
  fun cs =>
    (cs ++ [c],
     match answer cs with
     | Answered a => Some a
     | Rejected => None
     end).

(** How a turn of the loop ends when nothing is thrown: the members are
    marked, with or without a session, or the insert was refused. *)
Inductive verdict : Type :=
| Consumed (session : bool)
| Refused.

Section Pass.
Variable db : store.

Fixpoint markTranscriptsProcessed (ids : list Z) : run unit :=
  match ids with
  | [] => ret tt
  | id :: ids' =>
      _ <- await (UpdateProcessed id) (fun cs => update_processed db cs id) ;;
      markTranscriptsProcessed ids'
  end.

Definition select_id (s : slug_value) : run (option str) :=
  ans <- await (SelectProject s) (fun cs => select_project db cs s) ;;
  ret (match select_error ans with
       | None => or_null (data_id ans)
       | Some _ => None
       end).

Definition resolve_uuid (finalSlug : slug_value) : run (option str) :=
  found <- select_id finalSlug ;;
  match found with
  | Some uuid => ret (Some uuid)
  | None => select_id (SlugStr "unassigned")
  end.

(** The object literal handed to [insert]; its last property is
    [new Date(window.windowStart).toISOString()], which throws a
    RangeError when the start is NaN. *)
Definition session_row (w : Span.t) (uuid : option str) : run AISession :=
  let content := Span.content w in
  let resolved := resolveProjectSlug (to_win w) (extractCwdFromContent content) in
  match Span.windowStart w with
  | Some start =>
      ret {| project_id := uuid;
             project_uuid := uuid;
             project_slug := slug resolved;
             team_port := num_or (port resolved) (Span.team_port w);
             source_type := or_str (Some (Span.source_type w)) "transcript";
             source_name := Span.session_file w;
             status := "active";
             raw_content := content;
             message_count := count_newlines content + 1;
             started_at := start |}
  | None => throw
  end.

Definition member_ids (w : Span.t) : list Z :=
  map Entry.id (Span.transcripts w).

(** The statements inside [try]. *)
Definition turn (w : Span.t) : run verdict :=
  let content := Span.content w in
  let resolved := resolveProjectSlug (to_win w) (extractCwdFromContent content) in
  if (List.length content <? 100)%nat then
    _ <- markTranscriptsProcessed (member_ids w) ;;
    ret (Consumed false)
  else
    uuid <- resolve_uuid (slug resolved) ;;
    row <- session_row w uuid ;;
    insertError <- await (InsertSession row)
                         (fun cs => insert_session db cs row) ;;
    match insertError with
    | Some e =>
        if is_duplicate_key e then
          _ <- markTranscriptsProcessed (member_ids w) ;;
          ret (Consumed true)
        else ret Refused
    | None =>
        _ <- markTranscriptsProcessed (member_ids w) ;;
        ret (Consumed true)
    end.

(** The body of the loop over the windows, [catch] included: the
    counters are only changed where a path ends. *)
Definition processWindow (st : state) (w : Span.t) : state :=
  match turn w (calls st) with
  | (cs, Some (Consumed session)) =>
      {| calls := cs;
         sessionsCreated :=
           sessionsCreated st + (if session then 1 else 0);
         transcriptsProcessed :=
           transcriptsProcessed st + List.length (Span.transcripts w);
         errors := errors st |}
  | (cs, Some Refused) | (cs, None) =>
      {| calls := cs;
         sessionsCreated := sessionsCreated st;
         transcriptsProcessed := transcriptsProcessed st;
         errors := errors st + 1 |}
  end.

Definition processWindows (ws : list Span.t) (st : state) : state :=
  fold_left processWindow ws st.

(** A whole pass; a rejected fetch ends in the outer [catch]. *)
Definition processTranscripts : summary * list call :=
  match fetch_unprocessed db with
  | Rejected =>
      ({| processed := 0; sessions := None; summary_errors := 1 |},
       [FetchUnprocessed])
  | Answered ans =>
      match fetch_error ans with
      | Some _ =>
          ({| processed := 0; sessions := None; summary_errors := 1 |},
           [FetchUnprocessed])
      | None =>
          match fetch_data ans with
          | None | Some [] =>
              ({| processed := 0; sessions := Some 0; summary_errors := 0 |},
               [FetchUnprocessed])
          | Some transcripts =>
              let st := processWindows (groupByTimeWindow transcripts) start in
              ({| processed := transcriptsProcessed st;
                  sessions := Some (sessionsCreated st);
                  summary_errors := errors st |},
               calls st)
          end
      end
  end.
End Pass.

(** *** Rows whose dates parse, a store that answers *)

Definition of_raw (t : Raw.t) : Entry.t :=
  {| Entry.id := Raw.id t;
     Entry.source_type := Raw.source_type t;
     Entry.session_file := Raw.session_file t;
     Entry.project_folder := Raw.project_folder t;
     Entry.project_slug := Raw.project_slug t;
     Entry.team_port := Raw.team_port t;
     Entry.content := Raw.content t;
     Entry.original_timestamp :=
       match Raw.original_timestamp t with
       | Some ts => Some (Some ts)
       | None => None
       end;
     Entry.received_at := Some (Raw.received_at t) |}.




(** *** Reading a batch and a store *)

(** The date that [groupByTimeWindow] reads from a row parses. *)
Definition parses (t : Entry.t) : Prop := timestamp t <> None.

(** The store answers every lookup, insert and update. *)
Definition answers (db : store) : Prop :=
  (forall cs s, select_project db cs s <> Rejected)
  /\ (forall cs row, insert_session db cs row <> Rejected)
  /\ (forall cs id, update_processed db cs id <> Rejected).

(** What the times of a window are to one of its members: with a date
    that parses, the start is the half hour of the member and the
    earliest and latest times enclose its timestamp within that half
    hour; with a date that does not, all three are NaN. *)
Definition timed (w : Span.t) (t : Entry.t) : Prop :=
  match timestamp t with
  | Some ts =>
      exists s e m,
        Span.windowStart w = Some s
        /\ Span.earliest_ts w = Some e
        /\ Span.latest_ts w = Some m
        /\ s = (ts / 1800000 * 1800000)%Z
        /\ (s <= e <= ts)%Z /\ (ts <= m < s + 1800000)%Z
  | None =>
      Span.windowStart w = None
      /\ Span.earliest_ts w = None
      /\ Span.latest_ts w = None
  end.

(** A window filed under a key: it has members, and each of them prints
    the key and has its time kept. *)
Definition filed (kw : str * Span.t) : Prop :=
  Span.transcripts (snd kw) <> []
  /\ forall t, In t (Span.transcripts (snd kw)) ->
               window_key t = fst kw /\ timed (snd kw) t.

(** Every error that an insert answers with is a duplicate key. *)
Definition only_duplicates (db : store) : Prop :=
  forall cs row e,
    insert_session db cs row = Answered (Some e) -> is_duplicate_key e = true.

Definition all_entries (ws : list Span.t) : list Entry.t :=
  List.concat (map Span.transcripts ws).

Definition is_long (w : Span.t) : bool :=
  negb (List.length (Span.content w) <? 100)%nat.

(** The windows that are not skipped as short. *)
Definition long_windows (ws : list Span.t) : list Span.t := filter is_long ws.

(** A window that is not short and whose start is NaN. *)
Definition is_undated (w : Span.t) : bool :=
  is_long w && match Span.windowStart w with
               | Some _ => false
               | None => true
               end.

Definition undated_windows (ws : list Span.t) : list Span.t :=
  filter is_undated ws.

End Dated.

(** ** Sample rows with and without a date *)

Module DatedSamples.
Import Js Processor Samples Dated.

(** [row_long] with an original timestamp that does not parse; a short
    row received long after its original timestamp; and a row of the same
    session without original timestamp. *)
Definition entry_long : Entry.t :=
  {| Entry.id := 10; Entry.source_type := Some ("transcript" : str);
     Entry.session_file := Some ("s2.jsonl" : str);
     Entry.project_folder := None; Entry.project_slug := None;
     Entry.team_port := None; Entry.content := long_text;
     Entry.original_timestamp := Some None;
     Entry.received_at := Some 5000%Z |}.

Definition entry_short : Entry.t :=
  {| Entry.id := 11; Entry.source_type := Some ("transcript" : str);
     Entry.session_file := Some ("s3.jsonl" : str);
     Entry.project_folder := None; Entry.project_slug := None;
     Entry.team_port := None; Entry.content := "ok";
     Entry.original_timestamp := Some (Some 5000%Z);
     Entry.received_at := Some 7200000%Z |}.

Definition entry_late : Entry.t :=
  {| Entry.id := 12; Entry.source_type := Some ("transcript" : str);
     Entry.session_file := Some ("s3.jsonl" : str);
     Entry.project_folder := None; Entry.project_slug := None;
     Entry.team_port := None; Entry.content := "again";
     Entry.original_timestamp := None;
     Entry.received_at := Some 6000%Z |}.

Definition undated_fetch : fetch_answer :=
  {| fetch_data := Some [entry_long; entry_short; entry_late];
     fetch_error := None |}.

(** A store that accepts every insert, on a batch with a date that does
    not parse. *)
Definition db_undated : store :=
  {| fetch_unprocessed := Answered undated_fetch;
     select_project := fun _ _ => Answered answer_id;
     insert_session := fun _ _ => Answered None;
     update_processed := fun _ _ => Answered tt |}.

(** The same store on a batch whose dates all parse. *)
Definition dated_fetch : fetch_answer :=
  {| fetch_data := Some [of_raw row_long; entry_short; entry_late];
     fetch_error := None |}.

Definition db_dated : store :=
  {| fetch_unprocessed := Answered dated_fetch;
     select_project := fun _ _ => Answered answer_id;
     insert_session := fun _ _ => Answered None;
     update_processed := fun _ _ => Answered tt |}.

(** A store that rejects the update of row 12. *)
Definition db_rejecting : store :=
  {| fetch_unprocessed := Answered dated_fetch;
     select_project := fun _ _ => Answered answer_id;
     insert_session := fun _ _ => Answered None;
     update_processed := fun _ id =>
       if (id =? 12)%Z then Rejected else Answered tt |}.

End DatedSamples.

(** * Properties *)

(** ** Strings and the matcher *)

Module JsFacts.
Import Js.

Lemma str_eqb_eq (a b : str) : str_eqb a b = true <-> a = b.
Proof.
  revert b; induction a as [|x a IH]; intros [|y b]; simpl;
    try (split; congruence).
  rewrite andb_true_iff, Ascii.eqb_eq, IH.
  split; [intros [-> ->]; reflexivity | intros [= -> ->]; auto].
Qed.

Lemma str_eqb_refl (a : str) : str_eqb a a = true.
Proof. apply str_eqb_eq; reflexivity. Qed.

Lemma str_eqb_neq (a b : str) : str_eqb a b = false <-> a <> b.
Proof.
  rewrite <- str_eqb_eq. destruct (str_eqb a b); split; congruence.
Qed.

Lemma startsWith_app (p s : str) :
  startsWith p s = true <-> exists r, s = p ++ r.
Proof.
  revert s; induction p as [|x p IH]; intros s; simpl.
  - split; eauto.
  - destruct s as [|y s].
    + split; [discriminate | intros [r [=]]].
    + rewrite andb_true_iff, Ascii.eqb_eq, IH. split.
      * intros [-> [r ->]]. eauto.
      * intros [r [= -> ->]]. eauto.
Qed.

Lemma skipn_prefix (p r : str) : skipn (List.length p) (p ++ r) = r.
Proof. induction p; simpl; auto. Qed.

Section MatcherFacts.
Context {R : Type}.
Implicit Types (k : str -> str -> option R) (cls : ascii -> bool).

Lemma lit_sound p s (k : str -> option R) r :
  lit p s k = Some r -> exists rest, s = p ++ rest /\ k rest = Some r.
Proof.
  unfold lit. destruct (startsWith p s) eqn:E; [|discriminate].
  apply startsWith_app in E as [rest ->].
  rewrite skipn_prefix. eauto.
Qed.

Lemma star_sound cls s acc k r :
  star cls s acc k = Some r ->
  exists g rest, s = g ++ rest /\ forallb cls g = true
                 /\ k (acc ++ g) rest = Some r.
Proof.
  revert acc; induction s as [|c s IH]; intros acc; simpl.
  - intros H. exists [], []. rewrite !app_nil_r. auto.
  - destruct (cls c) eqn:Ec.
    + destruct (star cls s (acc ++ [c]) k) eqn:E.
      * intros [= ->]. apply IH in E as (g & rest & -> & Hg & Hk).
        exists (c :: g), rest. simpl. rewrite Ec, Hg.
        rewrite <- app_assoc in Hk. auto.
      * intros H. exists [], (c :: s). rewrite !app_nil_r. auto.
    + intros H. exists [], (c :: s). rewrite !app_nil_r. auto.
Qed.

Lemma plus_sound cls s k r :
  plus cls s k = Some r ->
  exists g rest, s = g ++ rest /\ g <> [] /\ forallb cls g = true
                 /\ k g rest = Some r.
Proof.
  unfold plus. destruct s as [|c s]; [discriminate|].
  destruct (cls c) eqn:Ec; [|discriminate].
  intros H. apply star_sound in H as (g & rest & -> & Hg & Hk).
  exists (c :: g), rest. simpl. rewrite Ec, Hg.
  repeat split; auto. discriminate.
Qed.

Lemma exactly_sound cls n s acc k r :
  exactly cls n s acc k = Some r ->
  exists g rest, s = g ++ rest /\ forallb cls g = true
                 /\ List.length g = n /\ k (acc ++ g) rest = Some r.
Proof.
  revert s acc; induction n as [|n IH]; intros s acc; simpl.
  - intros H. exists [], s. rewrite !app_nil_r. auto.
  - destruct s as [|c s]; [discriminate|].
    destruct (cls c) eqn:Ec; [|discriminate].
    intros H. apply IH in H as (g & rest & -> & Hg & Hn & Hk).
    exists (c :: g), rest. simpl. rewrite Ec, Hg, Hn.
    rewrite <- app_assoc in Hk. auto.
Qed.

(** When what follows cannot fail, a greedy bounded repetition takes
    as many units as it may. *)
Lemma upto_greedy cls n s acc k r :
  (forall a rest, k a rest <> None) ->
  upto cls n s acc k = Some r ->
  exists g rest, s = g ++ rest /\ forallb cls g = true
                 /\ (List.length g <= n)%nat
                 /\ (List.length g = n \/ stops cls rest)
                 /\ k (acc ++ g) rest = Some r.
Proof.
  intros Hk. revert s acc; induction n as [|n IH]; intros s acc; simpl.
  - intros H. exists [], s. rewrite !app_nil_r. simpl. auto 6.
  - destruct s as [|c s].
    + intros H. exists [], []. rewrite !app_nil_r. simpl.
      repeat split; auto with arith.
    + destruct (cls c) eqn:Ec.
      * destruct (upto cls n s (acc ++ [c]) k) eqn:E.
        -- intros [= ->].
           apply IH in E as (g & rest & -> & Hg & Hn & Hmax & Hr).
           exists (c :: g), rest. simpl. rewrite Ec, Hg.
           rewrite <- app_assoc in Hr.
           repeat split; auto with arith.
           destruct Hmax; auto.
        -- exfalso. clear IH. revert s acc E.
           induction n as [|n IHn]; intros s acc E.
           ++ simpl in E. eapply Hk; eauto.
           ++ simpl in E. destruct s as [|d s]; [eapply Hk; eauto|].
              destruct (cls d); [|eapply Hk; eauto].
              destruct (upto cls n s ((acc ++ [c]) ++ [d]) k) eqn:E';
                [discriminate|].
              eapply Hk; eauto.
      * intros H. exists [], (c :: s). rewrite !app_nil_r. simpl.
        repeat split; auto with arith.
Qed.

Lemma search_sound (m : str -> option R) s r :
  search m s = Some r -> exists pre suf, s = pre ++ suf /\ m suf = Some r.
Proof.
  induction s as [|c s IH]; simpl.
  - destruct (m []) eqn:E; [|discriminate].
    intros [= ->]. exists [], []. auto.
  - destruct (m (c :: s)) eqn:E.
    + intros [= ->]. exists [], (c :: s). auto.
    + intros H. apply IH in H as (pre & suf & -> & Hm).
      exists (c :: pre), suf. auto.
Qed.
End MatcherFacts.

End JsFacts.

(** ** The path router *)

Module RoutingFacts.
Import Js Routing JsFacts.

Lemma port_match_at_sound (s g1 g2 : str) :
  port_match_at s = Some (g1, g2) ->
  exists rest,
    s = g1 ++ "-" ++ g2 ++ rest
    /\ g1 <> [] /\ forallb is_slug_char g1 = true
    /\ forallb is_digit g2 = true
    /\ (List.length g2 = 4 \/ List.length g2 = 5)%nat
    /\ (List.length g2 = 5%nat \/ stops is_digit rest).
Proof.
  unfold port_match_at. intros H.
  apply plus_sound in H as (g & r1 & -> & Hne & Hg & H).
  apply lit_sound in H as (r2 & -> & H).
  unfold between in H.
  apply exactly_sound in H as (d & r3 & -> & Hd & Hlen & H).
  apply upto_greedy in H as (e & rest & -> & He & Hle & Hmax & H);
    [|discriminate].
  injection H as <- <-. simpl app at 1.
  exists rest. rewrite <- !app_assoc. simpl.
  repeat split; auto.
  - rewrite forallb_app, Hd, He. reflexivity.
  - rewrite length_app. simpl in Hle. lia.
  - rewrite length_app. simpl in Hmax. destruct Hmax; [left; lia | auto].
Qed.

Lemma routeBySegment_no_port (n : str) : team_port (routeBySegment n) = None.
Proof.
  unfold routeBySegment.
  destruct (search (segment_match_at "studio") n); [reflexivity|].
  destruct (search (segment_match_at "projects") n); reflexivity.
Qed.

(** Every string splits into its leading digits and a rest that does not
    start with a digit. *)
Lemma digit_span (s : str) :
  exists d post, s = d ++ post /\ forallb is_digit d = true /\ stops is_digit post.
Proof.
  induction s as [|c s (d & post & -> & Hd & Hp)].
  - exists [], []. simpl. auto.
  - destruct (is_digit c) eqn:Ec.
    + exists (c :: d), post. simpl. rewrite Ec, Hd. auto.
    + exists [], (c :: d ++ post). simpl. auto.
Qed.

Lemma in_port_range_spec (o : option Z) :
  in_port_range o = true -> exists p, o = Some p /\ (4000 <= p <= 9999)%Z.
Proof.
  destruct o as [p|]; simpl; [|discriminate].
  rewrite andb_true_iff, !Z.leb_le. eauto.
Qed.

Lemma is_digit_code (c : ascii) :
  is_digit c = true -> (48 <= code c <= 57)%nat.
Proof.
  unfold is_digit, in_range. rewrite andb_true_iff, !Nat.leb_le. auto.
Qed.

(** Five digits that read as a number below 10000 start with 0. *)
Lemma five_digits_leading_zero (g : str) (p : Z) :
  List.length g = 5%nat -> forallb is_digit g = true ->
  parseInt10 g = Some p -> (p <= 9999)%Z ->
  exists rest, g = "0"%char :: rest.
Proof.
  destruct g as [|a [|b [|c [|d [|e [|f g]]]]]]; try discriminate.
  intros _ Hd. simpl in Hd. rewrite !andb_true_iff in Hd.
  destruct Hd as (Ha & Hb & Hc & Hd & He & _).
  unfold parseInt10. rewrite Ha. intros Hv Hp.
  assert (digits_value 0 [a; b; c; d; e] = p) as Hq by congruence.
  clear Hv. cbn [digits_value] in Hq.
  rewrite Ha, Hb, Hc, Hd, He in Hq.
  apply is_digit_code in Ha.
  assert (code a = 48)%nat as E by lia.
  exists [b; c; d; e]. f_equal.
  rewrite <- (ascii_nat_embedding a). unfold code in E. rewrite E. reflexivity.
Qed.

Lemma firstn_exact (g rest : str) (n : nat) :
  List.length g = n -> firstn n (g ++ rest) = g.
Proof.
  intros <-. rewrite firstn_app, Nat.sub_diag, firstn_all. simpl.
  apply app_nil_r.
Qed.

(** C4 (as amended).  A port returned by [parseRoutingFromCwd] lies in
    [4000, 9999].  It is read from the first four or five digits of a run
    of digits that directly follows a hyphen of the normalized path: the
    run has at least 4 digits, so a run of 3 digits never yields a port;
    a run of 5 or more digits (6 or more included) yields one only when
    it starts with the digit 0.  The slug returned with the port is the
    token before the hyphen, the hyphen and those digits. *)
Theorem parseRoutingFromCwd_port (cwd : option str) (p : Z) :
  team_port (parseRoutingFromCwd cwd) = Some p ->
  (4000 <= p <= 9999)%Z /\
  exists c pre g1 run post,
    cwd = Some c
    /\ toLowerCase (replace_backslashes c) = pre ++ g1 ++ "-" ++ run ++ post
    /\ g1 <> [] /\ forallb is_slug_char g1 = true
    /\ forallb is_digit run = true /\ stops is_digit post
    /\ (4 <= List.length run)%nat
    /\ ((5 <= List.length run)%nat -> exists rest, run = "0"%char :: rest)
    /\ parseInt10 (firstn 5 run) = Some p
    /\ project_slug (parseRoutingFromCwd cwd) = Some (g1 ++ "-" ++ firstn 5 run).
Proof.
  unfold parseRoutingFromCwd.
  destruct cwd as [c|]; [|discriminate].
  destruct (truthy c); simpl negb; cbv iota; [|discriminate].
  set (n := toLowerCase (replace_backslashes c)).
  destruct (search port_match_at n) as [[g1 g2]|] eqn:Es;
    [|rewrite routeBySegment_no_port; discriminate].
  destruct (in_port_range (parseInt10 g2)) eqn:Er;
    [|rewrite routeBySegment_no_port; discriminate].
  cbn [team_port project_slug]. intros Hp.
  apply in_port_range_spec in Er as (q & Hq & Hrange).
  rewrite Hq in Hp. injection Hp as ->.
  split; [exact Hrange|].
  apply search_sound in Es as (pre & suf & Hn & Hm).
  apply port_match_at_sound in Hm
    as (rest & -> & Hne & Hg1 & Hg2 & Hlen & Hmax).
  destruct (digit_span rest) as (d & post & -> & Hd & Hpost).
  destruct Hlen as [L4 | L5].
  - (* four digits: the run ends there *)
    destruct Hmax as [L5 | Hstop]; [lia|].
    assert (d = []) as ->.
    { destruct d as [|x d]; [reflexivity|].
      simpl in Hstop, Hd. rewrite Hstop in Hd. discriminate. }
    exists c, pre, g1, g2, post. simpl app in Hn.
    rewrite firstn_all2 by lia.
    split; [reflexivity|]. split; [exact Hn|].
    repeat split; auto; lia.
  - (* five digits: the run may go on *)
    exists c, pre, g1, (g2 ++ d), post.
    rewrite (firstn_exact g2 d 5 L5).
    split; [reflexivity|].
    split; [rewrite <- (app_assoc g2 d post); exact Hn|].
    repeat split; auto.
    + rewrite forallb_app, Hg2, Hd. reflexivity.
    + rewrite length_app. lia.
    + intros _.
      destruct (five_digits_leading_zero g2 p L5 Hg2 Hq) as (r & ->); [lia|].
      exists (r ++ d). reflexivity.
Qed.

(** The theorem at [/srv/ai-chad-5401/work]. *)
Lemma parseRoutingFromCwd_port_witness :
  team_port (parseRoutingFromCwd (Some ("/srv/ai-chad-5401/work" : str)))
    = Some 5401%Z
  /\ (4000 <= 5401 <= 9999)%Z.
Proof.
  split; [reflexivity|].
  exact (proj1 (parseRoutingFromCwd_port
                  (Some ("/srv/ai-chad-5401/work" : str)) 5401%Z eq_refl)).
Defined.

(** C4 as stated fails: in [/srv/foo-054012] the only run of digits after
    a hyphen has 6 digits, and the router returns a slug with port 5401
    read from its first five. *)
Lemma six_digit_run_yields_port :
  let run : str := "054012" in
  forallb is_digit run = true /\ List.length run = 6%nat
  /\ parseRoutingFromCwd (Some ("/srv/foo" ++ "-" ++ run))
     = {| project_slug := Some ("foo-05401" : str); team_port := Some 5401%Z |}.
Proof. repeat split. Qed.

End RoutingFacts.

(** ** The identity resolver *)

Module ResolverFacts.
Import Js Routing Resolver Samples JsFacts.

Lemma low_trust_In (s : str) : low_trust s = true <-> In s LOW_TRUST_SLUGS.
Proof.
  unfold low_trust. rewrite existsb_exists. split.
  - intros (x & Hx & E). apply str_eqb_eq in E. subst. exact Hx.
  - intros H. exists s. split; [exact H | apply str_eqb_refl].
Qed.

Lemma trusted_label_low_trust (win : Win.t) (s : str) :
  Win.project_slug win = Some s -> In s LOW_TRUST_SLUGS ->
  trusted_label win = None.
Proof.
  intros E H. unfold trusted_label. rewrite E. simpl.
  destruct (truthy s); [|reflexivity].
  apply low_trust_In in H. rewrite H. reflexivity.
Qed.

Lemma first_pattern_some (hay : str) (ps : list pattern) (pat : pattern) :
  first_pattern hay ps = Some pat ->
  In pat ps /\ includes (pat_match pat) hay = true.
Proof.
  induction ps as [|q ps IH]; simpl; [discriminate|].
  destruct (includes (pat_match q) hay) eqn:E.
  - intros [= <-]. auto.
  - intros H. destruct (IH H). auto.
Qed.

Lemma first_pattern_none (hay : str) (ps : list pattern) :
  first_pattern hay ps = None <->
  forall pat, In pat ps -> includes (pat_match pat) hay = false.
Proof.
  induction ps as [|q ps IH]; simpl.
  - split; [intros _ pat [] | reflexivity].
  - destruct (includes (pat_match q) hay) eqn:E.
    + split; [discriminate|]. intros H.
      rewrite (H q) in E by auto. discriminate.
    + rewrite IH. split.
      * intros H pat [<- | Hin]; auto.
      * intros H pat Hin. apply H. auto.
Qed.

(** The reasons the content step can give. *)
Lemma by_content_reason (win : Win.t) :
  reason (by_content win) = "no_match"
  \/ exists pat, In pat patterns
                 /\ reason (by_content win) = "content:" ++ pat_match pat.
Proof.
  unfold by_content.
  destruct (first_pattern (haystack win) patterns) as [pat|] eqn:E.
  - right. exists pat. apply first_pattern_some in E as [Hin _]. auto.
  - left. reflexivity.
Qed.

Lemma usable_cwd_home (cwd : option str) :
  isHomePath cwd = true -> usable_cwd cwd = false.
Proof.
  unfold usable_cwd. destruct cwd as [c|]; [|reflexivity].
  intros ->. apply andb_false_r.
Qed.

Lemma by_content_cases (win : Win.t) :
  (exists pat, In pat patterns
     /\ first_pattern (haystack win) patterns = Some pat
     /\ by_content win
        = {| slug := SlugStr (pat_slug pat);
             reason := "content:" ++ pat_match pat; port := None |})
  \/ (first_pattern (haystack win) patterns = None
      /\ by_content win = unassigned).
Proof.
  unfold by_content.
  destruct (first_pattern (haystack win) patterns) as [pat|] eqn:E.
  - left. exists pat. apply first_pattern_some in E as [Hin _]. auto.
  - right. auto.
Qed.

(** A slug found in a path is never the empty string. *)
Lemma segment_match_nonempty (dir s g : str) :
  search (segment_match_at dir) s = Some g -> g <> [].
Proof.
  intros H. apply search_sound in H as (pre & suf & _ & H).
  unfold segment_match_at in H.
  apply lit_sound in H as (r1 & _ & H).
  apply plus_sound in H as (g' & rest & _ & Hne & _ & [= <-]).
  exact Hne.
Qed.

Lemma routing_slug_truthy (cwd : option str) (s : str) :
  project_slug (parseRoutingFromCwd cwd) = Some s ->
  or_null (Some s) = Some s.
Proof.
  intros H. assert (s <> []) as Hne; [|destruct s; [congruence|reflexivity]].
  assert (forall n, project_slug (routeBySegment n) = Some s -> s <> [])
    as Hseg.
  { intros n. unfold routeBySegment.
    destruct (search (segment_match_at "studio") n) as [g|] eqn:E1.
    - intros [= <-]. eapply segment_match_nonempty; eauto.
    - destruct (search (segment_match_at "projects") n) as [g|] eqn:E2.
      + intros [= <-]. eapply segment_match_nonempty; eauto.
      + discriminate. }
  unfold parseRoutingFromCwd in H.
  destruct cwd as [c|]; [|discriminate].
  destruct (truthy c); [|discriminate]. cbn [negb] in H. cbv zeta in H.
  destruct (search port_match_at (toLowerCase (replace_backslashes c)))
    as [[g1 g2]|]; [|eauto].
  destruct (in_port_range (parseInt10 g2)); [|eauto].
  injection H as <-. destruct g1; discriminate.
Qed.

(** C5.  A cwd that is a home path (lowercased, it contains [/home/] or
    [/root/], ends with [/root], or contains a [\users\] segment) has no
    part in the resolution: the resolver answers as it does without any
    cwd, and never with the path-derived reason [cwd], whatever the
    window holds. *)
Theorem home_path_never_routes (win : Win.t) (cwd : str) :
  (includes "/home/" (toLowerCase cwd) = true
   \/ includes "/root/" (toLowerCase cwd) = true
   \/ endsWith "/root" (toLowerCase cwd) = true
   \/ includes "\users\" (toLowerCase cwd) = true) ->
  isHomePath (Some cwd) = true
  /\ resolveProjectSlug win (Some cwd) = resolveProjectSlug win None
  /\ reason (resolveProjectSlug win (Some cwd)) <> "cwd".
Proof.
  intros H.
  assert (isHomePath (Some cwd) = true) as Hhome.
  { unfold isHomePath. destruct cwd as [|x cwd].
    - simpl in H. intuition discriminate.
    - cbn [truthy negb].
      destruct H as [H | [H | [H | H]]]; rewrite H;
        rewrite ?orb_true_r; reflexivity. }
  split; [exact Hhome|].
  assert (resolveProjectSlug win (Some cwd) = resolveProjectSlug win None) as E.
  { unfold resolveProjectSlug, by_cwd_or_content.
    rewrite (usable_cwd_home _ Hhome). reflexivity. }
  split; [exact E|].
  rewrite E. unfold resolveProjectSlug.
  destruct (trusted_label win); [simpl; discriminate|].
  unfold by_cwd_or_content. cbn [usable_cwd].
  destruct (by_content_reason win) as [-> | (pat & _ & ->)];
    simpl; discriminate.
Qed.

(** The theorem at the spec's scenario. *)
Lemma home_path_never_routes_witness :
  extractCwdFromContent (Win.content home_window)
  = Some ("/home/bob/project-5401/x" : str)
  /\ resolveProjectSlug home_window (Some ("/home/bob/project-5401/x" : str))
     = resolveProjectSlug home_window None.
Proof.
  split; [reflexivity|].
  exact (proj1 (proj2 (home_path_never_routes home_window
                         ("/home/bob/project-5401/x" : str)
                         (or_introl eq_refl)))).
Defined.

(** C1.  A caller label of the low-trust set is never returned through
    the trusted-label branch (reason [transcript]); when moreover there
    is no cwd, or the cwd is a home path, or the path gives no routing,
    and no content pattern occurs in the haystack, the answer is the
    slug [unassigned] with no port. *)
Theorem low_trust_label_not_used (win : Win.t) (cwd : option str) (s : str) :
  Win.project_slug win = Some s -> In s LOW_TRUST_SLUGS ->
  reason (resolveProjectSlug win cwd) <> "transcript"
  /\ ((cwd = None \/ isHomePath cwd = true
       \/ project_slug (parseRoutingFromCwd cwd) = None) ->
      (forall pat, In pat patterns ->
                   includes (pat_match pat) (haystack win) = false) ->
      resolveProjectSlug win cwd
      = {| slug := SlugStr "unassigned"; reason := "no_match"; port := None |}).
Proof.
  intros E Hlow. unfold resolveProjectSlug.
  rewrite (trusted_label_low_trust win s E Hlow).
  split.
  - unfold by_cwd_or_content.
    destruct (usable_cwd cwd);
      [destruct (or_null (project_slug (parseRoutingFromCwd cwd)));
         [simpl; discriminate|]|];
      destruct (by_content_reason win) as [-> | (pat & _ & ->)];
      simpl; discriminate.
  - intros Hcwd Hpat.
    assert (by_content win = unassigned) as Hc.
    { unfold by_content.
      apply first_pattern_none in Hpat. rewrite Hpat. reflexivity. }
    unfold by_cwd_or_content.
    destruct (usable_cwd cwd) eqn:Eu; [|exact Hc].
    destruct Hcwd as [-> | [Hh | Hr]].
    + discriminate.
    + rewrite (usable_cwd_home _ Hh) in Eu. discriminate.
    + rewrite Hr. exact Hc.
Qed.

(** The theorem at the spec's scenario. *)
Lemma low_trust_label_not_used_witness :
  resolveProjectSlug home_window
    (extractCwdFromContent (Win.content home_window))
  = {| slug := SlugStr "unassigned"; reason := "no_match"; port := None |}.
Proof.
  refine (proj2 (low_trust_label_not_used home_window
                   (extractCwdFromContent (Win.content home_window))
                   ("ai-team" : str) eq_refl _) _ _).
  - simpl. auto.
  - right. left. reflexivity.
  - intros pat Hin. simpl in Hin.
    repeat (destruct Hin as [<- | Hin]; [reflexivity|]).
    destruct Hin.
Defined.

(** C9 as stated fails: for a trusted label the reason is [transcript],
    not [trusted-label]. *)
Lemma trusted_reason_is_transcript :
  trusted_label labelled_window = Some ("ai-jen" : str)
  /\ resolveProjectSlug labelled_window None
     = {| slug := SlugStr "ai-jen-5402"; reason := "transcript";
          port := Some 5402%Z |}
  /\ reason (resolveProjectSlug labelled_window None) <> "trusted-label".
Proof. repeat split. simpl. discriminate. Qed.

(** C9 (as amended).  The resolver answers by exactly one of four cases,
    and the reason names the case: [transcript] for a trusted caller
    label, [cwd] when the path router supplies the slug, [content:]
    followed by the matched pattern when a content pattern does, and
    [no_match] for the sentinel [unassigned]. *)
Theorem resolveProjectSlug_reason (win : Win.t) (cwd : option str) :
  let r := resolveProjectSlug win cwd in
  (exists s, trusted_label win = Some s
     /\ r = {| slug := normalizeSlug s; reason := "transcript";
               port := Win.team_port win |})
  \/ (trusted_label win = None /\ usable_cwd cwd = true
      /\ exists s, project_slug (parseRoutingFromCwd cwd) = Some s
         /\ r = {| slug := SlugStr s; reason := "cwd";
                   port := team_port (parseRoutingFromCwd cwd) |})
  \/ (trusted_label win = None
      /\ (usable_cwd cwd = false
          \/ project_slug (parseRoutingFromCwd cwd) = None)
      /\ exists pat, In pat patterns
         /\ first_pattern (haystack win) patterns = Some pat
         /\ r = {| slug := SlugStr (pat_slug pat);
                   reason := "content:" ++ pat_match pat; port := None |})
  \/ (trusted_label win = None
      /\ (usable_cwd cwd = false
          \/ project_slug (parseRoutingFromCwd cwd) = None)
      /\ first_pattern (haystack win) patterns = None
      /\ r = {| slug := SlugStr "unassigned"; reason := "no_match";
                port := None |}).
Proof.
  cbv zeta. unfold resolveProjectSlug.
  destruct (trusted_label win) as [s|]; [left; eauto|].
  right. unfold by_cwd_or_content.
  pose proof (by_content_cases win) as Hc.
  destruct (usable_cwd cwd) eqn:Eu.
  - destruct (project_slug (parseRoutingFromCwd cwd)) as [s|] eqn:Es.
    + rewrite (routing_slug_truthy cwd s Es). left. eauto 6.
    + right. cbn [or_null].
      destruct Hc as [(pat & Hin & Hf & ->) | (Hf & ->)]; [left | right];
        repeat split; eauto.
  - right.
    destruct Hc as [(pat & Hin & Hf & ->) | (Hf & ->)]; [left | right];
      repeat split; eauto.
Qed.

End ResolverFacts.

(** ** The window aggregator *)

Module AggregatorFacts.
Import Js Aggregator Windows Samples JsFacts.

(** *** Keys *)

Lemma split_at_first_colon (x y a b : str) :
  ~ In colon x -> ~ In colon y ->
  x ++ colon :: a = y ++ colon :: b -> x = y /\ a = b.
Proof.
  revert y; induction x as [|c x IH]; intros [|d y] Hx Hy; simpl.
  - intros [= ->]. auto.
  - intros [= <- _]. exfalso. apply Hy. left. reflexivity.
  - intros [= -> _]. exfalso. apply Hx. left. reflexivity.
  - intros [= -> E]. apply IH in E as [-> ->]; auto.
    + intros H. apply Hx. right. exact H.
    + intros H. apply Hy. right. exact H.
Qed.

Lemma split_at_last_colon (a b x y : str) :
  ~ In colon x -> ~ In colon y ->
  a ++ colon :: x = b ++ colon :: y -> a = b /\ x = y.
Proof.
  intros Hx Hy E. apply (f_equal (@rev ascii)) in E.
  rewrite !rev_app_distr in E. simpl in E. rewrite <- !app_assoc in E.
  simpl in E. apply split_at_first_colon in E as [E1 E2].
  - apply (f_equal (@rev ascii)) in E1, E2.
    rewrite !rev_involutive in E1, E2. auto.
  - rewrite <- in_rev. exact Hx.
  - rewrite <- in_rev. exact Hy.
Qed.

Lemma uint_text_no_colon (d : Decimal.uint) :
  ~ In colon (list_ascii_of_string (NilEmpty.string_of_uint d)).
Proof.
  induction d; simpl; intros H; try (destruct H as [H | H]; [discriminate|]);
    auto.
Qed.

Lemma num_to_str_no_colon (n : Z) : ~ In colon (num_to_str n).
Proof.
  unfold num_to_str, NilZero.string_of_int, NilZero.string_of_uint.
  destruct (Z.to_int n) as [d | d]; destruct d; simpl;
    intros H; repeat (destruct H as [H | H]; [discriminate|]);
    try (exact H);
    eapply uint_text_no_colon; eauto.
Qed.

Lemma num_to_str_inj (a b : Z) : num_to_str a = num_to_str b -> a = b.
Proof.
  unfold num_to_str. intros E.
  apply (f_equal string_of_list_ascii) in E.
  rewrite !string_of_list_ascii_of_string in E.
  apply (f_equal NilZero.int_of_string) in E.
  assert (forall z, NilZero.int_of_string (NilZero.string_of_int (Z.to_int z))
                    = Some (Z.to_int z)) as Hisi.
  { intros z. apply NilZero.isi; destruct z; simpl; try discriminate;
      intros [= H]; eapply Unsigned.to_uint_nonnil; eauto. }
  rewrite !Hisi in E. injection E as E. apply to_int_inj. exact E.
Qed.

Lemma agree_same_key (t1 t2 : Raw.t) :
  agree t1 t2 -> window_key t1 = window_key t2.
Proof.
  unfold window_key. intros (-> & -> & -> & ->). reflexivity.
Qed.

(** The port and the start of the window can be read back from the key. *)
Lemma same_key_port_start (t1 t2 : Raw.t) :
  window_key t1 = window_key t2 ->
  sourceType t1 ++ ":" ++ sourceName t1 = sourceType t2 ++ ":" ++ sourceName t2
  /\ teamPort t1 = teamPort t2
  /\ window_start (timestamp t1) = window_start (timestamp t2).
Proof.
  assert (forall t, window_key t
            = ((sourceType t ++ colon :: sourceName t)
               ++ colon :: num_to_str (teamPort t))
              ++ colon :: num_to_str (window_start (timestamp t))) as Hk.
  { intros t. unfold window_key. simpl.
    repeat (rewrite <- app_assoc; simpl). reflexivity. }
  rewrite !Hk. intros E.
  apply split_at_last_colon in E as [E Ew]; try apply num_to_str_no_colon.
  apply split_at_last_colon in E as [E Ep]; try apply num_to_str_no_colon.
  apply num_to_str_inj in Ew, Ep. auto.
Qed.

Lemma same_key_agree (t1 t2 : Raw.t) :
  ~ In colon (sourceType t1) -> ~ In colon (sourceType t2) ->
  window_key t1 = window_key t2 -> agree t1 t2.
Proof.
  intros H1 H2 E. apply same_key_port_start in E as (E & Ep & Ew).
  apply split_at_first_colon in E as [Es En]; auto.
  repeat split; auto.
Qed.

(** *** The association list *)

Lemma lookup_none (k : str) (ws : windows) :
  lookup k ws = None <-> ~ In k (map fst ws).
Proof.
  induction ws as [|[k' w] ws IH]; simpl.
  - split; auto.
  - destruct (str_eqb k k') eqn:E.
    + apply str_eqb_eq in E. split; [discriminate | intros H; exfalso; auto].
    + apply str_eqb_neq in E. rewrite IH. split.
      * intros H [H' | H']; [congruence | auto].
      * intros H H'. apply H. auto.
Qed.

Lemma lookup_In (k : str) (w : Win.t) (ws : windows) :
  lookup k ws = Some w -> In (k, w) ws.
Proof.
  induction ws as [|[k' w'] ws IH]; simpl; [discriminate|].
  destruct (str_eqb k k') eqn:E.
  - apply str_eqb_eq in E. intros [= ->]. subst. auto.
  - auto.
Qed.

Lemma In_lookup (k : str) (w : Win.t) (ws : windows) :
  NoDup (map fst ws) -> In (k, w) ws -> lookup k ws = Some w.
Proof.
  induction ws as [|[k' w'] ws IH]; simpl; [intros _ []|].
  intros Hnd. inversion Hnd as [|? ? Hnotin Hnd']; subst.
  intros [[= -> ->] | Hin].
  - rewrite str_eqb_refl. reflexivity.
  - destruct (str_eqb k k') eqn:E; [|auto].
    apply str_eqb_eq in E. subst. exfalso. apply Hnotin.
    apply (in_map fst) in Hin. exact Hin.
Qed.

Lemma update_keys (k : str) (f : Win.t -> Win.t) (ws : windows) :
  map fst (update k f ws) = map fst ws.
Proof.
  induction ws as [|[k' w] ws IH]; simpl; [reflexivity|].
  destruct (str_eqb k k'); simpl; congruence.
Qed.

Lemma lookup_update (k k' : str) (f : Win.t -> Win.t) (ws : windows) :
  lookup k' (update k f ws)
  = if str_eqb k' k then option_map f (lookup k ws) else lookup k' ws.
Proof.
  induction ws as [|[k0 w] ws IH]; simpl.
  - destruct (str_eqb k' k); reflexivity.
  - destruct (str_eqb k k0) eqn:E; simpl.
    + apply str_eqb_eq in E. subst k0.
      destruct (str_eqb k' k); reflexivity.
    + destruct (str_eqb k' k0) eqn:E'.
      * destruct (str_eqb k' k) eqn:E''; [|reflexivity].
        apply str_eqb_eq in E', E''. subst.
        rewrite str_eqb_refl in E. discriminate.
      * exact IH.
Qed.

Lemma lookup_app (k k' : str) (w : Win.t) (ws : windows) :
  lookup k' (ws ++ [(k, w)])
  = match lookup k' ws with
    | Some x => Some x
    | None => if str_eqb k' k then Some w else None
    end.
Proof.
  induction ws as [|[k0 w0] ws IH]; simpl; [reflexivity|].
  destruct (str_eqb k' k0); auto.
Qed.

(** *** What a window holds *)

Lemma window_of_snoc (m : list Raw.t) (t : Raw.t) :
  window_of (m ++ [t])
  = Some (match window_of m with
          | Some w => push w t
          | None => push (fresh t) t
          end).
Proof.
  destruct m as [|t0 rest]; simpl; [reflexivity|].
  unfold build. rewrite fold_left_app. reflexivity.
Qed.

Lemma members_snoc (k : str) (l : list Raw.t) (t : Raw.t) :
  members k (l ++ [t])
  = members k l ++ (if str_eqb (window_key t) k then [t] else []).
Proof. unfold members. rewrite filter_app. reflexivity. Qed.

Lemma add_record_keys (ws : windows) (t : Raw.t) :
  map fst (add_record ws t)
  = match lookup (window_key t) ws with
    | Some _ => map fst ws
    | None => map fst ws ++ [window_key t]
    end.
Proof.
  unfold add_record. rewrite update_keys.
  destruct (lookup (window_key t) ws); [reflexivity|].
  rewrite map_app. reflexivity.
Qed.

(** The windows after a batch: under every key, the window of the rows
    of the batch that print this key; no key twice. *)
Lemma group_entries_spec (l : list Raw.t) :
  NoDup (map fst (group_entries l))
  /\ forall k, lookup k (group_entries l) = window_of (members k l).
Proof.
  unfold group_entries.
  induction l as [|t l [IHnd IH]] using rev_ind.
  - simpl. split; [constructor | reflexivity].
  - rewrite fold_left_app. simpl.
    set (ws := fold_left add_record l []) in *.
    split.
    + rewrite add_record_keys.
      destruct (lookup (window_key t) ws) eqn:E; [exact IHnd|].
      apply lookup_none in E.
      apply NoDup_rev in IHnd. rewrite <- (rev_involutive (_ ++ _)).
      apply NoDup_rev. rewrite rev_app_distr. simpl.
      constructor; [rewrite <- in_rev; exact E | exact IHnd].
    + intros k. rewrite members_snoc. unfold add_record.
      rewrite lookup_update.
      destruct (str_eqb k (window_key t)) eqn:Ek.
      * apply str_eqb_eq in Ek. subst k. rewrite str_eqb_refl.
        rewrite window_of_snoc, <- IH.
        destruct (lookup (window_key t) ws) eqn:E; [rewrite E; reflexivity|].
        rewrite lookup_app, E, str_eqb_refl. reflexivity.
      * assert (str_eqb (window_key t) k = false) as ->.
        { apply str_eqb_neq. apply str_eqb_neq in Ek. congruence. }
        rewrite app_nil_r, <- IH.
        destruct (lookup (window_key t) ws) eqn:E; [reflexivity|].
        rewrite lookup_app, Ek. destruct (lookup k ws); reflexivity.
Qed.

(** *** Fields of a window *)

Lemma fold_push_fields (rest : list Raw.t) (w0 : Win.t) :
  let w := fold_left push rest w0 in
  Win.windowStart w = Win.windowStart w0
  /\ Win.source_type w = Win.source_type w0
  /\ Win.session_file w = Win.session_file w0
  /\ Win.project_folder w = Win.project_folder w0
  /\ Win.project_slug w = Win.project_slug w0
  /\ Win.team_port w = Win.team_port w0
  /\ Win.transcripts w = Win.transcripts w0 ++ rest
  /\ Win.content w = Win.content w0 ++ List.concat (map piece rest)
  /\ Win.earliest_ts w
     = fold_left Z.min (map timestamp rest) (Win.earliest_ts w0)
  /\ Win.latest_ts w
     = fold_left Z.max (map timestamp rest) (Win.latest_ts w0).
Proof.
  revert w0; induction rest as [|t rest IH]; intros w0; cbv zeta.
  - simpl. rewrite !app_nil_r. repeat split.
  - simpl fold_left. specialize (IH (push w0 t)). cbv zeta in IH.
    destruct IH as (-> & -> & -> & -> & -> & -> & -> & -> & -> & ->).
    simpl. unfold piece. rewrite <- !app_assoc. repeat split.
Qed.

Lemma fold_min_spec (xs : list Z) (a : Z) :
  let r := fold_left Z.min xs a in
  (r <= a)%Z /\ (forall x, In x xs -> (r <= x)%Z) /\ (r = a \/ In r xs).
Proof.
  revert a; induction xs as [|x xs IH]; intros a; cbv zeta; simpl.
  - split; [lia | split; [intros x [] | auto]].
  - destruct (IH (Z.min a x)) as (H1 & H2 & H3). repeat split.
    + lia.
    + intros y [<- | Hy]; [lia | auto].
    + destruct H3 as [H3 | H3]; [|auto].
      destruct (Z.min_spec a x) as [[_ E] | [_ E]]; rewrite H3, E; auto.
Qed.

Lemma fold_max_spec (xs : list Z) (a : Z) :
  let r := fold_left Z.max xs a in
  (a <= r)%Z /\ (forall x, In x xs -> (x <= r)%Z) /\ (r = a \/ In r xs).
Proof.
  revert a; induction xs as [|x xs IH]; intros a; cbv zeta; simpl.
  - split; [lia | split; [intros x [] | auto]].
  - destruct (IH (Z.max a x)) as (H1 & H2 & H3). repeat split.
    + lia.
    + intros y [<- | Hy]; [lia | auto].
    + destruct H3 as [H3 | H3]; [|auto].
      destruct (Z.max_spec a x) as [[_ E] | [_ E]]; rewrite H3, E; auto.
Qed.

(** The fields of the window of a non-empty list of rows. *)
Lemma build_fields (t0 : Raw.t) (rest : list Raw.t) :
  let w := build t0 rest in
  Win.windowStart w = window_start (timestamp t0)
  /\ Win.source_type w = sourceType t0
  /\ Win.session_file w = sourceName t0
  /\ Win.project_folder w = or_null (Raw.project_folder t0)
  /\ Win.project_slug w = or_null (Raw.project_slug t0)
  /\ Win.team_port w = num_or_null (Raw.team_port t0)
  /\ Win.transcripts w = t0 :: rest
  /\ Win.content w = List.concat (map piece (t0 :: rest)).
Proof.
  cbv zeta. unfold build.
  destruct (fold_push_fields rest (push (fresh t0) t0))
    as (-> & -> & -> & -> & -> & -> & -> & -> & _).
  simpl. unfold piece. repeat split.
Qed.

Lemma build_earliest (t0 : Raw.t) (rest : list Raw.t) :
  (forall t, In t (t0 :: rest) ->
             (Win.earliest_ts (build t0 rest) <= timestamp t)%Z)
  /\ exists t, In t (t0 :: rest)
               /\ Win.earliest_ts (build t0 rest) = timestamp t.
Proof.
  unfold build.
  destruct (fold_push_fields rest (push (fresh t0) t0))
    as (_ & _ & _ & _ & _ & _ & _ & _ & -> & _).
  simpl Win.earliest_ts. rewrite Z.min_id.
  destruct (fold_min_spec (map timestamp rest) (timestamp t0))
    as (H1 & H2 & H3).
  split.
  - intros t [<- | Hin]; [exact H1|]. apply H2. apply in_map. exact Hin.
  - destruct H3 as [H3 | H3].
    + exists t0. simpl. auto.
    + apply in_map_iff in H3 as (t & Ht & Hin). exists t. simpl. auto.
Qed.

Lemma build_latest (t0 : Raw.t) (rest : list Raw.t) :
  (forall t, In t (t0 :: rest) ->
             (timestamp t <= Win.latest_ts (build t0 rest))%Z)
  /\ exists t, In t (t0 :: rest)
               /\ Win.latest_ts (build t0 rest) = timestamp t.
Proof.
  unfold build.
  destruct (fold_push_fields rest (push (fresh t0) t0))
    as (_ & _ & _ & _ & _ & _ & _ & _ & _ & ->).
  simpl Win.latest_ts. rewrite Z.max_id.
  destruct (fold_max_spec (map timestamp rest) (timestamp t0))
    as (H1 & H2 & H3).
  split.
  - intros t [<- | Hin]; [exact H1|]. apply H2. apply in_map. exact Hin.
  - destruct H3 as [H3 | H3].
    + exists t0. simpl. auto.
    + apply in_map_iff in H3 as (t & Ht & Hin). exists t. simpl. auto.
Qed.

(** *** Windows of a batch *)

Lemma members_In (k : str) (l : list Raw.t) (t : Raw.t) :
  In t (members k l) <-> In t l /\ window_key t = k.
Proof. unfold members. rewrite filter_In, str_eqb_eq. reflexivity. Qed.

Lemma window_in_group (l : list Raw.t) (w : Win.t) :
  In w (groupByTimeWindow l)
  <-> exists k, lookup k (group_entries l) = Some w.
Proof.
  destruct (group_entries_spec l) as [Hnd _].
  unfold groupByTimeWindow. rewrite in_map_iff. split.
  - intros ([k w'] & E & Hin). simpl in E. subst w'.
    exists k. apply In_lookup; assumption.
  - intros (k & E). exists (k, w). split; [reflexivity|].
    apply lookup_In. exact E.
Qed.

(** The window filed under a key holds the rows of the batch that print
    this key, in the order of the batch, and is built from them. *)
Lemma lookup_group (l : list Raw.t) (k : str) (w : Win.t) :
  lookup k (group_entries l) = Some w ->
  exists t0 rest,
    members k l = t0 :: rest /\ w = build t0 rest
    /\ Win.transcripts w = members k l /\ window_key t0 = k /\ In t0 l.
Proof.
  destruct (group_entries_spec l) as [_ H]. rewrite H.
  destruct (members k l) as [|t0 rest] eqn:E; simpl; [discriminate|].
  intros [= <-]. exists t0, rest.
  assert (In t0 (members k l)) as Hin by (rewrite E; left; reflexivity).
  apply members_In in Hin as [Hin Hk].
  destruct (build_fields t0 rest) as (_ & _ & _ & _ & _ & _ & Ht & _).
  auto.
Qed.

Lemma record_has_window (l : list Raw.t) (t : Raw.t) :
  In t l ->
  exists w, lookup (window_key t) (group_entries l) = Some w
            /\ In t (Win.transcripts w).
Proof.
  intros Hin. destruct (group_entries_spec l) as [_ H].
  assert (In t (members (window_key t) l)) as Hm
    by (apply members_In; auto).
  destruct (window_of (members (window_key t) l)) as [w|] eqn:E.
  - exists w. rewrite H. split; [exact E|].
    rewrite <- H in E. apply lookup_group in E as (_ & _ & _ & _ & -> & _).
    exact Hm.
  - destruct (members (window_key t) l); [destruct Hm | discriminate].
Qed.

(** C2 (as amended).  The window a row is aggregated into starts at
    [floor (ts / 1800000) * 1800000], where [ts] is the original timestamp
    when present and the time of reception otherwise.  Two rows of a batch
    land in the same window exactly when they print the same key
    [source_type:session_file:team_port:window_start] (defaults applied).
    Rows that agree on the four components print the same key; rows that
    print the same key agree on the port and the window start, and on
    source type and session file as well when neither source type
    contains a colon. *)
Theorem record_window (l : list Raw.t) (t : Raw.t) :
  In t l ->
  timestamp t = match Raw.original_timestamp t with
                | Some ts => ts
                | None => Raw.received_at t
                end
  /\ (exists w, In w (groupByTimeWindow l) /\ In t (Win.transcripts w))
  /\ (forall w, In w (groupByTimeWindow l) -> In t (Win.transcripts w) ->
        Win.windowStart w = (timestamp t / 1800000 * 1800000)%Z)
  /\ (forall t', In t' l ->
        (same_window l t t' <-> window_key t = window_key t'))
  /\ (forall t', agree t t' -> window_key t = window_key t')
  /\ (forall t', window_key t = window_key t' ->
        teamPort t = teamPort t'
        /\ window_start (timestamp t) = window_start (timestamp t'))
  /\ (forall t', ~ In colon (sourceType t) -> ~ In colon (sourceType t') ->
        window_key t = window_key t' -> agree t t').
Proof.
  intros Hin. split; [reflexivity|].
  split.
  { destruct (record_has_window l t Hin) as (w & E & Ht).
    exists w. split; [apply window_in_group; eauto | exact Ht]. }
  split.
  { intros w Hw Ht. apply window_in_group in Hw as (k & E).
    apply lookup_group in E as (t0 & rest & Em & -> & Etr & Hk & _).
    rewrite Etr in Ht. apply members_In in Ht as [_ Hkt].
    destruct (build_fields t0 rest) as (-> & _).
    assert (window_key t0 = window_key t) as Ekey by congruence.
    apply same_key_port_start in Ekey as (_ & _ & ->). reflexivity. }
  split.
  { intros t' Hin'. split.
    - intros (w & Hw & H1 & H2). apply window_in_group in Hw as (k & E).
      apply lookup_group in E as (_ & _ & _ & _ & Etr & _).
      rewrite Etr in H1, H2.
      apply members_In in H1 as [_ H1]. apply members_In in H2 as [_ H2].
      congruence.
    - intros Ek. destruct (record_has_window l t Hin) as (w & E & Ht).
      exists w. split; [apply window_in_group; eauto|]. split; [exact Ht|].
      apply lookup_group in E as (_ & _ & _ & _ & -> & _).
      apply members_In. auto. }
  split; [intros t'; apply agree_same_key|].
  split.
  { intros t' Ek. apply same_key_port_start in Ek as (_ & H1 & H2). auto. }
  intros t'. apply same_key_agree.
Qed.

Lemma record_window_witness :
  exists w, In w (groupByTimeWindow [row_a; row_b])
            /\ In row_a (Win.transcripts w).
Proof.
  exact (proj1 (proj2 (record_window [row_a; row_b] row_a
                         (or_introl eq_refl)))).
Defined.

(** C2 as stated fails: the key is one colon-separated text, so a row of
    source type [terminal] and session file [5400:out.log] and a row of
    source type [terminal:5400] and session file [out.log] land in the
    same window although they differ in both components. *)
Lemma colon_keys_collide :
  same_window [row_a; row_b] row_a row_b /\ ~ agree row_a row_b.
Proof.
  split.
  - eexists. split; [left; reflexivity|]. simpl. auto.
  - intros (H & _). vm_compute in H. discriminate.
Qed.

(** *** Reordering the batch *)

Lemma Permutation_members (k : str) (l l' : list Raw.t) :
  Permutation l l' -> Permutation (members k l) (members k l').
Proof.
  unfold members. induction 1 as [|x l l' _ IH|x y l|l l' l'' _ IH1 _ IH2].
  - constructor.
  - simpl. destruct (str_eqb (window_key x) k); [constructor|]; exact IH.
  - simpl. destruct (str_eqb (window_key x) k), (str_eqb (window_key y) k);
      try constructor; apply Permutation_refl.
  - eapply Permutation_trans; eauto.
Qed.

Lemma key_present (l : list Raw.t) (k : str) :
  In k (map fst (group_entries l)) <-> exists t, In t l /\ window_key t = k.
Proof.
  split.
  - intros Hin.
    destruct (lookup k (group_entries l)) as [w|] eqn:E.
    + apply lookup_group in E as (t0 & _ & _ & _ & _ & Hk & Ht). eauto.
    + apply lookup_none in E. contradiction.
  - intros (t & Hin & <-).
    destruct (record_has_window l t Hin) as (w & E & _).
    apply lookup_In in E. apply (in_map fst) in E. exact E.
Qed.

Lemma num_or_null_of_zero (a b : option Z) :
  num_or_zero a = num_or_zero b -> num_or_null a = num_or_null b.
Proof.
  destruct a as [x|], b as [y|]; simpl; intros E; subst; reflexivity.
Qed.

(** C8 (as amended).  A permutation of the batch gives the same number
    of windows under the same keys.  The two windows under a key have the
    same member rows up to order, the same window start, port, earliest
    and latest timestamps, and, when no source type of the batch contains
    a colon, the same source type and session file.  The content of each
    is the concatenation of its members in the order iterated; project
    slug and project folder are not part of what is preserved. *)
Theorem groupByTimeWindow_permutation (l l' : list Raw.t) :
  Permutation l l' ->
  List.length (groupByTimeWindow l) = List.length (groupByTimeWindow l')
  /\ forall w, In w (groupByTimeWindow l) ->
     exists k w',
       lookup k (group_entries l) = Some w
       /\ lookup k (group_entries l') = Some w'
       /\ In w' (groupByTimeWindow l')
       /\ Permutation (Win.transcripts w) (Win.transcripts w')
       /\ Win.windowStart w = Win.windowStart w'
       /\ Win.team_port w = Win.team_port w'
       /\ Win.earliest_ts w = Win.earliest_ts w'
       /\ Win.latest_ts w = Win.latest_ts w'
       /\ Win.content w = List.concat (map piece (Win.transcripts w))
       /\ Win.content w' = List.concat (map piece (Win.transcripts w'))
       /\ ((forall t, In t l -> ~ In colon (sourceType t)) ->
           Win.source_type w = Win.source_type w'
           /\ Win.session_file w = Win.session_file w').
Proof.
  intros HP. split.
  { unfold groupByTimeWindow. rewrite !length_map.
    rewrite <- (length_map fst (group_entries l)).
    rewrite <- (length_map fst (group_entries l')).
    apply Permutation_length.
    apply NoDup_Permutation; try apply group_entries_spec.
    intros k. rewrite !key_present.
    split; intros (t & Hin & Hk); exists t; split; auto.
    - eapply Permutation_in; eauto.
    - eapply Permutation_in; [apply Permutation_sym|]; eauto. }
  intros w Hw. apply window_in_group in Hw as (k & E).
  exists k.
  destruct (lookup_group l k w E) as (t0 & rest & Em & -> & Etr & Hk & Hin).
  assert (In t0 l') as Hin' by (eapply Permutation_in; eauto).
  destruct (record_has_window l' t0 Hin') as (w' & E' & _).
  rewrite Hk in E'. exists w'.
  destruct (lookup_group l' k w' E')
    as (t0' & rest' & Em' & -> & Etr' & Hk' & Hin0').
  pose proof (Permutation_members k l l' HP) as HPm.
  rewrite Em, Em' in HPm.
  assert (window_key t0 = window_key t0') as Ekey by congruence.
  destruct (same_key_port_start _ _ Ekey) as (_ & Eport & Estart).
  destruct (build_fields t0 rest)
    as (Fs & Fty & Ffile & _ & _ & Fport & Ftr & Fc).
  destruct (build_fields t0' rest')
    as (Fs' & Fty' & Ffile' & _ & _ & Fport' & Ftr' & Fc').
  split; [exact E|]. split; [exact E'|].
  split; [apply window_in_group; eauto|].
  split; [rewrite Ftr, Ftr'; exact HPm|].
  split; [rewrite Fs, Fs'; exact Estart|].
  split; [rewrite Fport, Fport'; apply num_or_null_of_zero; exact Eport|].
  split.
  { destruct (build_earliest t0 rest) as (Hle & (t & Ht & Ea)).
    destruct (build_earliest t0' rest') as (Hle' & (t' & Ht' & Ea')).
    apply (Permutation_in _ HPm) in Ht.
    apply (Permutation_in _ (Permutation_sym HPm)) in Ht'.
    apply Hle' in Ht. apply Hle in Ht'. lia. }
  split.
  { destruct (build_latest t0 rest) as (Hle & (t & Ht & Ea)).
    destruct (build_latest t0' rest') as (Hle' & (t' & Ht' & Ea')).
    apply (Permutation_in _ HPm) in Ht.
    apply (Permutation_in _ (Permutation_sym HPm)) in Ht'.
    apply Hle' in Ht. apply Hle in Ht'. lia. }
  split; [rewrite Fc, Ftr; reflexivity|].
  split; [rewrite Fc', Ftr'; reflexivity|].
  intros Hcolon.
  assert (agree t0 t0') as (A1 & A2 & _).
  { apply same_key_agree; auto.
    apply Hcolon. eapply Permutation_in; [apply Permutation_sym|]; eauto. }
  rewrite Fty, Fty', Ffile, Ffile'. auto.
Qed.

Lemma groupByTimeWindow_permutation_witness :
  List.length (groupByTimeWindow [row_c; row_d])
  = List.length (groupByTimeWindow [row_d; row_c]).
Proof.
  exact (proj1 (groupByTimeWindow_permutation [row_c; row_d] [row_d; row_c]
                  (perm_swap row_d row_c []))).
Defined.

(** C8 as stated fails: two rows of one window that carry different
    project slugs give, in one order and in the other, windows with the
    same members and different [project_slug] fields. *)
Lemma permuted_batch_changes_slug :
  Permutation [row_c; row_d] [row_d; row_c]
  /\ exists w w',
       groupByTimeWindow [row_c; row_d] = [w]
       /\ groupByTimeWindow [row_d; row_c] = [w']
       /\ Permutation (Win.transcripts w) (Win.transcripts w')
       /\ Win.project_slug w = Some ("ai-jen" : str)
       /\ Win.project_slug w' = Some ("ai-chad" : str)
       /\ Win.project_slug w <> Win.project_slug w'.
Proof.
  split; [apply perm_swap|].
  do 2 eexists. split; [reflexivity|]. split; [reflexivity|].
  split; [apply perm_swap|].
  split; [reflexivity|]. split; [reflexivity|].
  simpl. discriminate.
Qed.

(** C10.  The [project_slug], [project_folder] and [team_port] of a
    window are those of its first member, the first row of the batch
    that prints the key of the window: the slug and the folder of that
    row when it has one that is not empty and [null] otherwise, its port
    when it has one that is not 0 and [null] otherwise.  The members are
    the rows of the batch with this key in the order of the batch, and
    what the later ones carry in these fields does not enter the
    window. *)
Theorem window_fields_from_first_record (l : list Raw.t) (w : Win.t) :
  In w (groupByTimeWindow l) ->
  exists t0 rest,
    Win.transcripts w = t0 :: rest
    /\ t0 :: rest = members (window_key t0) l
    /\ Win.project_slug w
       = match Raw.project_slug t0 with
         | Some (c :: s) => Some (c :: s)
         | Some [] | None => None
         end
    /\ Win.project_folder w
       = match Raw.project_folder t0 with
         | Some (c :: s) => Some (c :: s)
         | Some [] | None => None
         end
    /\ Win.team_port w
       = match Raw.team_port t0 with
         | Some Z0 | None => None
         | Some p => Some p
         end.
Proof.
  intros Hw. apply window_in_group in Hw as (k & E).
  apply lookup_group in E as (t0 & rest & Em & -> & Etr & Hk & _).
  destruct (build_fields t0 rest) as (_ & _ & _ & Ff & Fs & Fp & Ftr & _).
  exists t0, rest. rewrite Hk, Em, Ff, Fs, Fp.
  split; [exact Ftr|]. split; [reflexivity|].
  split; [destruct (Raw.project_slug t0) as [[|c s]|]; reflexivity|].
  split; [destruct (Raw.project_folder t0) as [[|c s]|]; reflexivity|].
  destruct (Raw.team_port t0) as [[|p|p]|]; reflexivity.
Qed.

Lemma window_fields_from_first_record_witness :
  exists w, groupByTimeWindow [row_c; row_d] = [w]
            /\ Win.transcripts w = [row_c; row_d]
            /\ Win.project_slug w = Some ("ai-jen" : str)
            /\ Win.project_folder w = None
            /\ Win.team_port w = Some 9500%Z.
Proof.
  eexists. split; [reflexivity|].
  destruct (window_fields_from_first_record [row_c; row_d] _
              (or_introl eq_refl)) as (t0 & rest & Etr & _ & Es & Ef & Ep).
  simpl in Etr. injection Etr as <- <-.
  split; [reflexivity|]. split; [exact Es|]. split; [exact Ef | exact Ep].
Defined.

End AggregatorFacts.

(** ** The transcript pass *)

Module ProcessorFacts.
Import Js Routing Resolver Aggregator Processor Windows Turn Samples.
Import JsFacts AggregatorFacts.

Lemma markTranscriptsProcessed_app (ids : list Z) (cs : list call) :
  markTranscriptsProcessed ids cs = cs ++ map UpdateProcessed ids.
Proof.
  unfold markTranscriptsProcessed.
  revert cs; induction ids as [|i ids IH]; intros cs; simpl.
  - symmetry. apply app_nil_r.
  - rewrite IH, <- app_assoc. reflexivity.
Qed.

Section PassFacts.
Variable db : store.

(** Up to its insert a window only looks up project ids. *)
Lemma insert_attempt_calls (cs : list call) (w : Win.t) :
  exists sel, fst (insert_attempt db cs w) = cs ++ sel
              /\ (forall c, In c sel -> is_update c = false).
Proof.
  unfold insert_attempt, resolve_uuid, select_id.
  set (s := slug _).
  destruct (match select_error (select_project db cs s) with
            | Some _ => None
            | None => or_null (data_id (select_project db cs s))
            end) as [uuid|]; simpl.
  - exists [SelectProject s]. repeat split.
    intros c [<- | []]. reflexivity.
  - exists [SelectProject s; SelectProject (SlugStr "unassigned")].
    rewrite <- app_assoc. repeat split.
    intros c [<- | [<- | []]]; reflexivity.
Qed.

Lemma processWindow_outcome (st : state) (w : Win.t) :
  outcome db st w (processWindow db st w).
Proof.
  unfold processWindow.
  destruct (List.length (Win.content w) <? 100)%nat eqn:El.
  - apply Nat.ltb_lt in El. rewrite markTranscriptsProcessed_app.
    apply Skipped. exact El.
  - apply Nat.ltb_ge in El.
    destruct (insert_attempt db (calls st) w) as [cs1 row] eqn:Ea.
    destruct (insert_session db cs1 row) as [e|] eqn:Ei.
    + destruct (is_duplicate_key e) eqn:Ed.
      * rewrite markTranscriptsProcessed_app, <- app_assoc.
        replace cs1 with (fst (insert_attempt db (calls st) w))
          by (rewrite Ea; reflexivity).
        replace row with (snd (insert_attempt db (calls st) w))
          by (rewrite Ea; reflexivity).
        apply (Stored db st w false El). rewrite Ea. simpl. rewrite Ei. auto.
      * replace cs1 with (fst (insert_attempt db (calls st) w))
          by (rewrite Ea; reflexivity).
        replace row with (snd (insert_attempt db (calls st) w))
          by (rewrite Ea; reflexivity).
        apply (Failed db st w e El); [rewrite Ea; exact Ei | exact Ed].
    + rewrite markTranscriptsProcessed_app, <- app_assoc.
      replace cs1 with (fst (insert_attempt db (calls st) w))
        by (rewrite Ea; reflexivity).
      replace row with (snd (insert_attempt db (calls st) w))
        by (rewrite Ea; reflexivity).
      apply (Stored db st w true El). rewrite Ea. simpl. rewrite Ei. auto.
Qed.

(** A turn keeps the calls made so far; the updates it adds are for
    members of its window; the counters never go down. *)
Lemma processWindow_grows (st : state) (w : Win.t) :
  (exists added,
      calls (processWindow db st w) = calls st ++ added
      /\ forall i, In (UpdateProcessed i) added -> In i (member_ids w))
  /\ (transcriptsProcessed st <= transcriptsProcessed (processWindow db st w))%nat
  /\ (errors st <= errors (processWindow db st w))%nat.
Proof.
  destruct (insert_attempt_calls (calls st) w) as (sel & Esel & Hsel).
  destruct (processWindow_outcome st w); cbn [calls transcriptsProcessed errors].
  - split; [|lia]. eexists. split; [reflexivity|].
    intros i Hi. apply in_map_iff in Hi as (j & [= ->] & Hj). exact Hj.
  - split; [|lia]. rewrite Esel, <- app_assoc. eexists.
    split; [reflexivity|]. intros i Hi.
    apply in_app_or in Hi as [Hi | [Hi | Hi]].
    + apply Hsel in Hi. discriminate.
    + discriminate.
    + apply in_map_iff in Hi as (j & [= ->] & Hj). exact Hj.
  - split; [|lia]. rewrite Esel, <- app_assoc. eexists.
    split; [reflexivity|]. intros i Hi.
    apply in_app_or in Hi as [Hi | [Hi | []]].
    + apply Hsel in Hi. discriminate.
    + discriminate.
Qed.

Lemma processWindows_grows (ws : list Win.t) (st : state) :
  (exists added,
      calls (processWindows db ws st) = calls st ++ added
      /\ forall i, In (UpdateProcessed i) added ->
                   exists w, In w ws /\ In i (member_ids w))
  /\ (transcriptsProcessed st <= transcriptsProcessed (processWindows db ws st))%nat
  /\ (errors st <= errors (processWindows db ws st))%nat.
Proof.
  unfold processWindows.
  revert st; induction ws as [|w ws IH]; intros st; simpl.
  - split; [|lia]. exists []. rewrite app_nil_r. split; [reflexivity|].
    intros i [].
  - destruct (IH (processWindow db st w)) as ((a2 & E2 & H2) & Hp & He).
    destruct (processWindow_grows st w) as ((a1 & E1 & H1) & Hp1 & He1).
    split; [|lia]. exists (a1 ++ a2). rewrite E2, E1, <- app_assoc.
    split; [reflexivity|]. intros i Hi.
    apply in_app_or in Hi as [Hi | Hi].
    + exists w. auto.
    + destruct (H2 i Hi) as (w' & Hw' & Hi'). exists w'. auto.
Qed.

Lemma processWindows_split (pre post : list Win.t) (w : Win.t) (st : state) :
  processWindows db (pre ++ w :: post) st
  = processWindows db post (processWindow db (processWindows db pre st) w).
Proof. unfold processWindows. rewrite fold_left_app. reflexivity. Qed.

(** The pass on a fetched batch that is not empty. *)
Lemma processTranscripts_run (batch : list Raw.t) :
  fetch_unprocessed db = {| fetch_data := Some batch; fetch_error := None |} ->
  batch <> [] ->
  let final := processWindows db (groupByTimeWindow batch) start in
  processTranscripts db
  = ({| processed := transcriptsProcessed final;
        sessions := Some (sessionsCreated final);
        summary_errors := errors final |}, calls final).
Proof.
  intros E Hne. unfold processTranscripts. rewrite E. simpl.
  destruct batch; [congruence | reflexivity].
Qed.
End PassFacts.

Lemma group_nonempty (batch : list Raw.t) (pre post : list Win.t) (w : Win.t) :
  groupByTimeWindow batch = pre ++ w :: post -> batch <> [].
Proof. intros E ->. destruct pre; discriminate. Qed.

Lemma NoDup_map_In_inj {A B : Type} (f : A -> B) (l : list A) (x y : A) :
  NoDup (map f l) -> In x l -> In y l -> f x = f y -> x = y.
Proof.
  induction l as [|a l IH]; simpl; [intros _ []|].
  intros Hnd. inversion Hnd as [|? ? Hnotin Hnd']; subst.
  intros [-> | Hx] [-> | Hy] E; auto.
  - exfalso. apply Hnotin. rewrite E. apply in_map. exact Hy.
  - exfalso. apply Hnotin. rewrite <- E. apply in_map. exact Hx.
Qed.

(** With unique ids, no row of a window has the id of a row of another
    window of the batch. *)
Lemma other_windows_disjoint (batch : list Raw.t) (pre post : list Win.t)
    (w w' : Win.t) (t t' : Raw.t) :
  NoDup (map Raw.id batch) ->
  groupByTimeWindow batch = pre ++ w :: post ->
  In w' (pre ++ post) ->
  In t (Win.transcripts w) -> In t' (Win.transcripts w') ->
  Raw.id t <> Raw.id t'.
Proof.
  intros Hids Hg Hw' Ht Ht' Eid.
  destruct (group_entries_spec batch) as [Hnd _].
  unfold groupByTimeWindow in Hg.
  apply map_eq_app in Hg as (e1 & e2 & Ee & E1 & E2).
  apply map_eq_cons in E2 as ([k w0] & e3 & -> & Ew & E3).
  simpl in Ew. subst w0 pre post.
  rewrite Ee, map_app in Hnd. simpl in Hnd.
  apply NoDup_remove_2 in Hnd.
  rewrite <- map_app in Hw'. apply in_map_iff in Hw' as ([k' w1] & Ew1 & Hin1).
  simpl in Ew1. subst w1.
  assert (k' <> k) as Hk.
  { intros ->. apply Hnd. rewrite <- map_app.
    apply (in_map fst) in Hin1. exact Hin1. }
  destruct (group_entries_spec batch) as [Hnd' _].
  assert (lookup k (group_entries batch) = Some w) as Lw.
  { apply In_lookup; [exact Hnd'|]. rewrite Ee.
    apply in_or_app. right. left. reflexivity. }
  assert (lookup k' (group_entries batch) = Some w') as Lw'.
  { apply In_lookup; [exact Hnd'|]. rewrite Ee.
    apply in_app_or in Hin1 as [H | H]; apply in_or_app;
      [left | right; right]; exact H. }
  apply lookup_group in Lw as (_ & _ & _ & _ & Etr & _).
  apply lookup_group in Lw' as (_ & _ & _ & _ & Etr' & _).
  rewrite Etr in Ht. rewrite Etr' in Ht'.
  apply members_In in Ht as [Hb Hkt]. apply members_In in Ht' as [Hb' Hkt'].
  assert (t = t') by (eapply NoDup_map_In_inj; eauto).
  congruence.
Qed.


Lemma other_message (e : db_error) :
  (forall m, message e = Some m -> includes "duplicate key" m = false) ->
  is_duplicate_key e = false.
Proof.
  unfold is_duplicate_key. intros H.
  destruct (message e) as [m|]; [|reflexivity].
  rewrite (H m eq_refl). apply andb_false_r.
Qed.




(** C7.  A window whose insert fails with an error that is not a
    duplicate key: the turn of the loop adds one to the error count,
    leaves the processed and session counts as they were and issues no
    update; with unique row ids, the whole pass issues no update for any
    member of the window, and its summary counts the error. *)
Theorem failed_insert_left_for_retry (db : store) (batch : list Raw.t)
    (pre post : list Win.t) (w : Win.t) (e : db_error) :
  fetch_unprocessed db = {| fetch_data := Some batch; fetch_error := None |} ->
  NoDup (map Raw.id batch) ->
  groupByTimeWindow batch = pre ++ w :: post ->
  (100 <= List.length (Win.content w))%nat ->
  let before := processWindows db pre start in
  let attempt := insert_attempt db (calls before) w in
  insert_session db (fst attempt) (snd attempt) = Some e ->
  (forall m, message e = Some m -> includes "duplicate key" m = false) ->
  let after := processWindow db before w in
  errors after = errors before + 1
  /\ transcriptsProcessed after = transcriptsProcessed before
  /\ sessionsCreated after = sessionsCreated before
  /\ calls after = fst attempt ++ [InsertSession (snd attempt)]
  /\ (forall i, In (UpdateProcessed i) (calls after) ->
                In (UpdateProcessed i) (calls before))
  /\ (forall t, In t (Win.transcripts w) ->
                ~ In (UpdateProcessed (Raw.id t)) (snd (processTranscripts db)))
  /\ (errors before + 1 <= summary_errors (fst (processTranscripts db)))%nat.
Proof.
  intros Ef Hids Eg Hlen before attempt Ei Hmsg after.
  pose proof (other_message e Hmsg) as Hd.
  assert (errors after = errors before + 1
          /\ transcriptsProcessed after = transcriptsProcessed before
          /\ sessionsCreated after = sessionsCreated before
          /\ calls after = fst attempt ++ [InsertSession (snd attempt)])
    as (Ee & Ep & Es & Ec).
  { unfold after, attempt in *.
    destruct (processWindow_outcome db before w) as [Hs | ok _ Hok | e' _ _ _];
      cbn [calls sessionsCreated transcriptsProcessed errors].
    - lia.
    - rewrite Ei in Hok. destruct Hok as [_ Hok]. congruence.
    - auto. }
  repeat (split; [assumption|]).
  destruct (insert_attempt_calls db (calls before) w) as (sel & Esel & Hsel).
  fold attempt in Esel.
  assert (forall i, In (UpdateProcessed i) (calls after) ->
                    In (UpdateProcessed i) (calls before)) as Hno.
  { intros i Hi. rewrite Ec, Esel in Hi.
    apply in_app_or in Hi as [Hi | [Hi | []]]; [|discriminate].
    apply in_app_or in Hi as [Hi | Hi]; [exact Hi|].
    apply Hsel in Hi. discriminate. }
  split; [exact Hno|].
  rewrite (processTranscripts_run db batch Ef (group_nonempty _ _ _ _ Eg)).
  cbv zeta. rewrite Eg, processWindows_split. fold before. fold after.
  destruct (processWindows_grows db post after) as ((a2 & E2 & H2) & _ & He2).
  destruct (processWindows_grows db pre start) as ((a1 & E1 & H1) & _ & _).
  fold before in E1.
  cbn [fst snd summary_errors]. split; [|lia].
  intros t Ht Hin. rewrite E2 in Hin.
  apply in_app_or in Hin as [Hin | Hin].
  - apply Hno in Hin. rewrite E1 in Hin.
    apply in_app_or in Hin as [[Hin | []] | Hin]; [discriminate|].
    destruct (H1 _ Hin) as (w' & Hw' & Hi').
    apply in_map_iff in Hi' as (t' & Eid & Ht').
    eapply (other_windows_disjoint batch pre post w w' t t'); eauto.
    apply in_or_app. left. exact Hw'.
  - destruct (H2 _ Hin) as (w' & Hw' & Hi').
    apply in_map_iff in Hi' as (t' & Eid & Ht').
    eapply (other_windows_disjoint batch pre post w w' t t'); eauto.
    apply in_or_app. right. exact Hw'.
Qed.

Example cwd_of_long_text :
  extractCwdFromContent long_text = Some ("/srv/ai-chad-5401/work" : str).
Proof. reflexivity. Qed.

Example long_window_resolved :
  resolveProjectSlug (build row_long []) (extractCwdFromContent long_text)
  = {| slug := SlugStr "ai-chad-5401"; reason := "cwd"; port := Some 5401%Z |}.
Proof. reflexivity. Qed.

Example pass_on_db_dup :
  fst (processTranscripts db_dup)
  = {| processed := 2; sessions := Some 1; summary_errors := 0 |}.
Proof. reflexivity. Qed.

Example pass_on_db_fail :
  fst (processTranscripts db_fail)
  = {| processed := 1; sessions := Some 0; summary_errors := 1 |}.
Proof. reflexivity. Qed.



Lemma failed_insert_left_for_retry_witness :
  ~ In (UpdateProcessed 10) (snd (processTranscripts db_fail))
  /\ (1 <= summary_errors (fst (processTranscripts db_fail)))%nat.
Proof.
  assert (NoDup (map Raw.id [row_long; row_short])) as Hids.
  { simpl. constructor.
    - intros [H | []]. discriminate.
    - constructor; [intros [] | constructor]. }
  assert (forall m, message other_error = Some m ->
                    includes "duplicate key" m = false) as Hmsg.
  { intros m [= <-]. reflexivity. }
  assert (100 <= List.length (Win.content (build row_long [])))%nat as Hlen
    by (apply Nat.leb_le; reflexivity).
  destruct (failed_insert_left_for_retry db_fail [row_long; row_short]
              [] [build row_short []] (build row_long []) other_error
              eq_refl Hids eq_refl Hlen eq_refl Hmsg)
    as (_ & _ & _ & _ & _ & Hnone & Herr).
  split.
  - exact (Hnone row_long (or_introl eq_refl)).
  - exact Herr.
Defined.

End ProcessorFacts.

(** ** Scenarios of the specification *)

Module Scenarios.
Import Js Routing Resolver Aggregator Processor Windows Samples.

(** A low-trust label and a home path: unassigned. *)
Example scenario_low_trust_home_path :
  exists w,
    groupByTimeWindow [home_row] = [w]
    /\ resolveProjectSlug w (extractCwdFromContent (Win.content w))
       = {| slug := SlugStr "unassigned"; reason := "no_match";
            port := None |}.
Proof. eexists. split; reflexivity. Qed.

(** Two rows of one window, no label, a cwd under [/srv]. *)
Example scenario_path_derived :
  exists w,
    groupByTimeWindow [row_e; row_f] = [w]
    /\ Win.transcripts w = [row_e; row_f]
    /\ resolveProjectSlug w (extractCwdFromContent (Win.content w))
       = {| slug := SlugStr "ai-chad-5401"; reason := "cwd";
            port := Some 5401%Z |}.
Proof. eexists. repeat split. Qed.

(** A trusted label goes through the normalization table. *)
Example scenario_label_normalized :
  normalizeSlug "ai-jen" = SlugStr "ai-jen-5402"
  /\ normalizeSlug "my-project" = SlugStr "my-project"
  /\ normalizeSlug "ai-jen-5402" = SlugStr "ai-jen-5402".
Proof. repeat split. Qed.

(** The extractor leaves no backslash in the cwd it returns. *)
Lemma extracted_cwd_no_backslash (content c : str) :
  extractCwdFromContent content = Some c -> ~ In "\"%char c.
Proof.
  unfold extractCwdFromContent.
  destruct (negb (truthy content)); [discriminate|].
  destruct (rev (cwd_matches_from 0 content)) as [|m ms]; [discriminate|].
  destruct (search cwd_match_at m) as [[g r]|]; [|discriminate].
  intros [= <-] Hin. unfold replace_backslashes in Hin.
  apply in_map_iff in Hin as (x & Hx & _).
  destruct (is_backslash x) eqn:E; [discriminate|].
  subst x. discriminate.
Qed.

(** So the home test sees a Windows profile directory with slashes. *)
Example windows_profile_directory :
  extractCwdFromContent windows_text = Some ("C:/Users/bob/project-5401" : str)
  /\ isHomePath (Some ("C:/Users/bob/project-5401" : str)) = false
  /\ isHomePath (Some ("C:\Users\bob\project-5401" : str)) = true.
Proof. repeat split. Qed.

End Scenarios.

(** * Further properties *)

(** ** Windows of a batch, as a whole *)

Module WindowFacts.
Import Js Aggregator Processor Windows Reading Samples JsFacts AggregatorFacts.

Lemma update_present (k : str) (f : Win.t -> Win.t) (ws : windows) (w : Win.t) :
  lookup k ws = Some w ->
  exists ws1 ws2, ws = ws1 ++ (k, w) :: ws2
                  /\ update k f ws = ws1 ++ (k, f w) :: ws2.
Proof.
  induction ws as [|[k' w'] ws IH]; simpl; [discriminate|].
  destruct (str_eqb k k') eqn:E.
  - apply str_eqb_eq in E. subst k'. intros [= ->].
    exists [], ws. auto.
  - intros H. destruct (IH H) as (ws1 & ws2 & -> & ->).
    exists ((k', w') :: ws1), ws2. auto.
Qed.

Lemma update_new (k : str) (f : Win.t -> Win.t) (ws : windows) (w : Win.t) :
  lookup k ws = None -> update k f (ws ++ [(k, w)]) = ws ++ [(k, f w)].
Proof.
  induction ws as [|[k' w'] ws IH]; simpl.
  - rewrite str_eqb_refl. reflexivity.
  - destruct (str_eqb k k'); [discriminate|].
    intros H. rewrite (IH H). reflexivity.
Qed.

Lemma all_members_app (a b : list Win.t) :
  all_members (a ++ b) = all_members a ++ all_members b.
Proof. unfold all_members. rewrite map_app, concat_app. reflexivity. Qed.

Lemma all_members_cons (w : Win.t) (ws : list Win.t) :
  all_members (w :: ws) = Win.transcripts w ++ all_members ws.
Proof. reflexivity. Qed.

(** One turn of the loop adds the row to the members, and nothing else. *)
Lemma add_record_members (ws : windows) (t : Raw.t) :
  Permutation (all_members (map snd (add_record ws t)))
              (all_members (map snd ws) ++ [t]).
Proof.
  unfold add_record.
  destruct (lookup (window_key t) ws) as [w|] eqn:E.
  - destruct (update_present _ (fun w => push w t) _ _ E)
      as (ws1 & ws2 & -> & ->).
    rewrite !map_app. cbn [map snd].
    rewrite !all_members_app, !all_members_cons. cbn [push Win.transcripts].
    rewrite <- !app_assoc. do 2 apply Permutation_app_head.
    apply (Permutation_app_comm [t]).
  - rewrite (update_new _ _ _ _ E), map_app, all_members_app.
    cbn [map snd]. rewrite all_members_cons. cbn [push fresh Win.transcripts].
    unfold all_members at 3. simpl. apply Permutation_refl.
Qed.

(** The members of the windows are the rows of the batch. *)
Lemma members_permutation (l : list Raw.t) :
  Permutation (all_members (groupByTimeWindow l)) l.
Proof.
  unfold groupByTimeWindow, group_entries.
  induction l as [|t l IH] using rev_ind; [apply Permutation_refl|].
  rewrite fold_left_app. simpl.
  eapply Permutation_trans; [apply add_record_members|].
  apply Permutation_app_tail. exact IH.
Qed.

Lemma windows_not_empty (l : list Raw.t) (w : Win.t) :
  In w (groupByTimeWindow l) -> Win.transcripts w <> [].
Proof.
  intros Hw. apply window_in_group in Hw as (k & E).
  apply lookup_group in E as (t0 & rest & Em & _ & -> & _).
  rewrite Em. discriminate.
Qed.

(** X1.  The windows partition the batch: their member lists, put end to
    end, are a permutation of the batch, so no row is lost and none is
    filed twice; no window is empty, and there are at most as many
    windows as rows. *)
Theorem groupByTimeWindow_partition (l : list Raw.t) :
  Permutation (all_members (groupByTimeWindow l)) l
  /\ (forall w, In w (groupByTimeWindow l) -> Win.transcripts w <> [])
  /\ (List.length (groupByTimeWindow l) <= List.length l)%nat.
Proof.
  pose proof (members_permutation l) as HP.
  split; [exact HP|]. split; [apply windows_not_empty|].
  rewrite <- (Permutation_length HP).
  assert (forall ws : list Win.t,
             (forall w, In w ws -> Win.transcripts w <> []) ->
             (List.length ws <= List.length (all_members ws))%nat) as Hlen.
  { induction ws as [|w ws IHws]; intros Hne; [apply Nat.le_refl|].
    rewrite all_members_cons, length_app. simpl.
    assert (Win.transcripts w <> []) as Hw by (apply Hne; left; reflexivity).
    assert (List.length ws <= List.length (all_members ws))%nat
      by (apply IHws; intros w' Hw'; apply Hne; right; exact Hw').
    destruct (Win.transcripts w); [congruence | simpl; lia]. }
  apply Hlen. apply windows_not_empty.
Qed.

Lemma existsb_key (k : str) (seen : list str) :
  existsb (str_eqb k) seen = true <-> In k seen.
Proof.
  rewrite existsb_exists. split.
  - intros (x & Hx & E). apply str_eqb_eq in E. subst. exact Hx.
  - intros H. exists k. split; [exact H | apply str_eqb_refl].
Qed.

Lemma first_keys_ext (l : list Raw.t) (seen seen' : list str) :
  (forall k, In k seen <-> In k seen') ->
  first_keys seen l = first_keys seen' l.
Proof.
  revert seen seen'; induction l as [|t l IH]; intros seen seen' H; simpl;
    [reflexivity|].
  assert (existsb (str_eqb (window_key t)) seen
          = existsb (str_eqb (window_key t)) seen') as ->.
  { apply eq_true_iff_eq. rewrite !existsb_key. apply H. }
  destruct (existsb (str_eqb (window_key t)) seen'); [apply IH; exact H|].
  f_equal. apply IH. intros k. simpl. rewrite H. reflexivity.
Qed.

Lemma fold_add_record_keys (l : list Raw.t) (ws : windows) :
  map fst (fold_left add_record l ws)
  = map fst ws ++ first_keys (map fst ws) l.
Proof.
  revert ws; induction l as [|t l IH]; intros ws; simpl.
  - symmetry. apply app_nil_r.
  - rewrite IH, add_record_keys.
    destruct (lookup (window_key t) ws) as [w|] eqn:E.
    + assert (existsb (str_eqb (window_key t)) (map fst ws) = true) as ->;
        [|reflexivity].
      apply existsb_key. apply lookup_In in E.
      apply (in_map fst) in E. exact E.
    + assert (existsb (str_eqb (window_key t)) (map fst ws) = false) as ->.
      { apply lookup_none in E. rewrite <- existsb_key in E.
        destruct (existsb _ _); congruence. }
      rewrite <- app_assoc. simpl. do 2 f_equal.
      apply first_keys_ext. intros k. rewrite in_app_iff. simpl.
      tauto.
Qed.

Lemma values_by_key (ws : windows) :
  NoDup (map fst ws) ->
  map snd ws
  = flat_map (fun k => match lookup k ws with
                       | Some w => [w]
                       | None => []
                       end) (map fst ws).
Proof.
  induction ws as [|[k w] ws IH]; simpl; [reflexivity|].
  intros Hnd. inversion Hnd as [|? ? Hnotin Hnd']; subst.
  rewrite str_eqb_refl. simpl. f_equal. rewrite (IH Hnd').
  clear IH Hnd. induction (map fst ws) as [|k' ks IHk]; simpl; [reflexivity|].
  assert (str_eqb k' k = false) as ->.
  { apply str_eqb_neq. intros ->. apply Hnotin. left. reflexivity. }
  f_equal. apply IHk.
  - intros H. apply Hnotin. right. exact H.
  - inversion Hnd'. assumption.
Qed.

(** X2.  The loop in closed form: the windows are, for the keys of the
    batch in the order of their first rows, the windows built from the
    rows that print the key, taken in the order of the batch. *)
Theorem groupByTimeWindow_closed_form (l : list Raw.t) :
  groupByTimeWindow l
  = flat_map (fun k => match members k l with
                       | t0 :: rest => [build t0 rest]
                       | [] => []
                       end) (first_keys [] l).
Proof.
  destruct (group_entries_spec l) as [Hnd Hlook].
  unfold groupByTimeWindow. rewrite (values_by_key _ Hnd).
  unfold group_entries at 2. rewrite fold_add_record_keys. simpl.
  apply flat_map_ext. intros k. rewrite Hlook.
  destruct (members k l); reflexivity.
Qed.

Lemma window_start_bounds (ts : Z) :
  (window_start ts <= ts < window_start ts + 1800000)%Z
  /\ (window_start ts mod 1800000 = 0)%Z.
Proof.
  unfold window_start, TIME_WINDOW_MS.
  change (30 * 60 * 1000)%Z with 1800000%Z.
  split; [|apply Z_mod_mult].
  pose proof (Z.div_mod ts 1800000 ltac:(lia)).
  pose proof (Z.mod_pos_bound ts 1800000 ltac:(lia)).
  lia.
Qed.

Lemma count_newlines_app (a b : str) :
  count_newlines (a ++ b) = (count_newlines a + count_newlines b)%nat.
Proof. unfold count_newlines. rewrite filter_app, length_app. reflexivity. Qed.

Lemma pieces_measure (ts : list Raw.t) :
  List.length (List.concat (map piece ts))
  = (List.length ts + List.length (List.concat (map Raw.content ts)))%nat
  /\ count_newlines (List.concat (map piece ts))
     = (List.length ts
        + count_newlines (List.concat (map Raw.content ts)))%nat.
Proof.
  induction ts as [|t ts [IH1 IH2]]; simpl; [auto|].
  unfold piece at 1 3.
  rewrite !length_app, !count_newlines_app, IH1, IH2. simpl.
  change (count_newlines [newline]) with 1%nat. lia.
Qed.

(** X4.  The content of a window holds one line feed more per member
    than the members' contents, so the message count of its session row
    is one more than the members plus the line feeds they contain: never
    less than 2.  A window of 100 members or more is never skipped as
    short. *)
Theorem window_message_count (l : list Raw.t) (w : Win.t)
    (uuid : option str) :
  In w (groupByTimeWindow l) ->
  let inner := List.concat (map Raw.content (Win.transcripts w)) in
  List.length (Win.content w)
  = (List.length (Win.transcripts w) + List.length inner)%nat
  /\ message_count (session_row w uuid)
     = (List.length (Win.transcripts w) + count_newlines inner + 1)%nat
  /\ (2 <= message_count (session_row w uuid))%nat
  /\ ((100 <= List.length (Win.transcripts w))%nat ->
      (List.length (Win.content w) <? 100)%nat = false).
Proof.
  intros Hw inner. apply window_in_group in Hw as (k & E).
  apply lookup_group in E as (t0 & rest & _ & -> & _).
  destruct (build_fields t0 rest) as (_ & _ & _ & _ & _ & _ & Ftr & Fc).
  destruct (pieces_measure (t0 :: rest)) as [H1 H2].
  unfold inner. cbn [message_count session_row].
  rewrite Fc, Ftr, H1, H2.
  repeat split; try (simpl; lia).
  intros H. apply Nat.ltb_ge. lia.
Qed.

Lemma window_message_count_witness :
  exists w, In w (groupByTimeWindow [row_c; row_d])
            /\ message_count (session_row w None) = 3%nat.
Proof.
  eexists. split; [left; reflexivity|].
  exact (proj1 (proj2 (window_message_count [row_c; row_d] _ None
                         (or_introl eq_refl)))).
Defined.

End WindowFacts.

(** ** The pass as a whole *)

Module PassFacts.
Import Js Routing Resolver Aggregator Processor Windows Turn Reading Samples.
Import MoreSamples.
Import JsFacts AggregatorFacts ProcessorFacts WindowFacts.

Lemma updated_ids_app (a b : list call) :
  updated_ids (a ++ b) = updated_ids a ++ updated_ids b.
Proof. unfold updated_ids. apply flat_map_app. Qed.

Lemma inserted_rows_app (a b : list call) :
  inserted_rows (a ++ b) = inserted_rows a ++ inserted_rows b.
Proof. unfold inserted_rows. apply flat_map_app. Qed.

Lemma updated_ids_updates (ids : list Z) :
  updated_ids (map UpdateProcessed ids) = ids.
Proof. induction ids as [|i ids IH]; simpl; congruence. Qed.

Lemma inserted_rows_updates (ids : list Z) :
  inserted_rows (map UpdateProcessed ids) = [].
Proof. induction ids as [|i ids IH]; simpl; auto. Qed.

(** The calls and the row of an insert: one or two lookups, then the row
    of the window with the id found. *)
Lemma insert_attempt_shape (db : store) (cs : list call) (w : Win.t) :
  exists sel uuid,
    insert_attempt db cs w = (cs ++ sel, session_row w uuid)
    /\ updated_ids sel = [] /\ inserted_rows sel = [].
Proof.
  unfold insert_attempt, resolve_uuid, select_id.
  set (s := slug _).
  destruct (match select_error (select_project db cs s) with
            | Some _ => None
            | None => or_null (data_id (select_project db cs s))
            end) as [uuid|].
  - exists [SelectProject s], (Some uuid). auto.
  - eexists [SelectProject s; SelectProject (SlugStr "unassigned")], _.
    rewrite <- app_assoc. simpl. auto.
Qed.

(** The effect of one turn of the loop on the updates, the inserts and
    the counters. *)
Lemma turn_effect (db : store) (st : state) (w : Win.t) :
  let st' := processWindow db st w in
  let answer := insert_session db (fst (insert_attempt db (calls st) w))
                                  (snd (insert_attempt db (calls st) w)) in
  ((List.length (Win.content w) <? 100)%nat = true
   /\ updated_ids (calls st') = updated_ids (calls st) ++ member_ids w
   /\ inserted_rows (calls st') = inserted_rows (calls st)
   /\ sessionsCreated st' = sessionsCreated st
   /\ transcriptsProcessed st'
      = (transcriptsProcessed st + List.length (Win.transcripts w))%nat
   /\ errors st' = errors st)
  \/ ((List.length (Win.content w) <? 100)%nat = false
      /\ (exists uuid, inserted_rows (calls st')
                       = inserted_rows (calls st) ++ [session_row w uuid])
      /\ ((updated_ids (calls st') = updated_ids (calls st) ++ member_ids w
           /\ sessionsCreated st' = (sessionsCreated st + 1)%nat
           /\ transcriptsProcessed st'
              = (transcriptsProcessed st + List.length (Win.transcripts w))%nat
           /\ errors st' = errors st
           /\ (answer = None
               \/ exists e, answer = Some e /\ is_duplicate_key e = true))
          \/ (updated_ids (calls st') = updated_ids (calls st)
              /\ sessionsCreated st' = sessionsCreated st
              /\ transcriptsProcessed st' = transcriptsProcessed st
              /\ errors st' = (errors st + 1)%nat
              /\ exists e, answer = Some e /\ is_duplicate_key e = false))).
Proof.
  cbv zeta.
  destruct (insert_attempt_shape db (calls st) w) as (sel & uuid & Ea & Hu & Hi).
  destruct (processWindow_outcome db st w) as [Hs | ok Hl Hok | e Hl He Hd];
    cbn [calls sessionsCreated transcriptsProcessed errors].
  - left. apply Nat.ltb_lt in Hs.
    rewrite updated_ids_app, inserted_rows_app, updated_ids_updates,
      inserted_rows_updates, app_nil_r. auto 10.
  - right. apply Nat.ltb_ge in Hl. split; [exact Hl|].
    rewrite Ea in *. cbn [fst snd] in *.
    change (?a ++ ?x :: ?b) with (a ++ [x] ++ b).
    rewrite !updated_ids_app, !inserted_rows_app, updated_ids_updates,
      inserted_rows_updates, Hu, Hi. simpl. rewrite !app_nil_r.
    split; [eauto|]. left. repeat split; auto.
    destruct (insert_session db (calls st ++ sel) (session_row w uuid))
      as [e|]; [right | left; reflexivity].
    destruct Hok as [_ Hok]. eauto.
  - right. apply Nat.ltb_ge in Hl. split; [exact Hl|].
    rewrite Ea in *. cbn [fst snd] in *.
    rewrite !updated_ids_app, !inserted_rows_app, Hu, Hi. simpl.
    rewrite !app_nil_r.
    split; [eauto|]. right. repeat split; eauto.
Qed.

Lemma member_ids_all (ws : list Win.t) :
  flat_map member_ids ws = map Raw.id (all_members ws).
Proof.
  induction ws as [|w ws IH]; [reflexivity|].
  rewrite all_members_cons, map_app, <- IH. reflexivity.
Qed.

Lemma NoDup_drop_middle {A : Type} (a b c : list A) :
  NoDup (a ++ b ++ c) -> NoDup (a ++ c).
Proof.
  induction b as [|x b IH]; simpl; [auto|].
  intros H. apply IH. apply NoDup_remove_1 in H. exact H.
Qed.

Lemma loop_updates (db : store) (ws : list Win.t) (st : state) :
  NoDup (updated_ids (calls st) ++ flat_map member_ids ws) ->
  NoDup (updated_ids (calls (processWindows db ws st)))
  /\ incl (updated_ids (calls (processWindows db ws st)))
          (updated_ids (calls st) ++ flat_map member_ids ws).
Proof.
  unfold processWindows.
  revert st; induction ws as [|w ws IH]; intros st; simpl.
  - rewrite app_nil_r. intros H. split; [exact H | apply incl_refl].
  - intros Hnd.
    assert (NoDup (updated_ids (calls (processWindow db st w))
                   ++ flat_map member_ids ws)
            /\ incl (updated_ids (calls (processWindow db st w))
                     ++ flat_map member_ids ws)
                    (updated_ids (calls st)
                     ++ member_ids w ++ flat_map member_ids ws)) as [H1 H2].
    { destruct (turn_effect db st w)
        as [(_ & Eu & _) | (_ & _ & [(Eu & _) | (Eu & _)])]; rewrite Eu.
      - rewrite <- app_assoc. split; [exact Hnd | apply incl_refl].
      - rewrite <- app_assoc. split; [exact Hnd | apply incl_refl].
      - split; [eapply NoDup_drop_middle; exact Hnd|].
        intros x Hx. apply in_app_or in Hx as [Hx | Hx];
          apply in_or_app; [left | right; apply in_or_app; right]; exact Hx. }
    destruct (IH _ H1) as [H3 H4]. split; [exact H3|].
    intros x Hx. apply H2. apply H4. exact Hx.
Qed.

(** X6.  With unique row ids a pass updates no row twice, and every
    update is for a row of the fetched batch. *)
Theorem pass_updates_once (db : store) (batch : list Raw.t) :
  fetch_unprocessed db = {| fetch_data := Some batch; fetch_error := None |} ->
  NoDup (map Raw.id batch) ->
  NoDup (updated_ids (snd (processTranscripts db)))
  /\ forall i, In i (updated_ids (snd (processTranscripts db))) ->
               exists t, In t batch /\ Raw.id t = i.
Proof.
  intros Ef Hids. destruct batch as [|t0 batch].
  - unfold processTranscripts. rewrite Ef. simpl.
    split; [constructor | intros i []].
  - rewrite (processTranscripts_run db _ Ef) by discriminate. cbv zeta.
    cbn [snd].
    pose proof (members_permutation (t0 :: batch)) as HP.
    assert (NoDup (updated_ids (calls start)
                   ++ flat_map member_ids (groupByTimeWindow (t0 :: batch))))
      as Hnd.
    { simpl. rewrite member_ids_all.
      eapply Permutation_NoDup; [|exact Hids].
      apply Permutation_map. apply Permutation_sym. exact HP. }
    destruct (loop_updates db _ start Hnd) as [H1 H2].
    split; [exact H1|]. intros i Hi. apply H2 in Hi. simpl in Hi.
    rewrite member_ids_all in Hi.
    apply in_map_iff in Hi as (t & Et & Ht). exists t. split; [|exact Et].
    eapply Permutation_in; eauto.
Qed.

Lemma pass_updates_once_witness :
  NoDup (updated_ids (snd (processTranscripts db_dup))).
Proof.
  assert (NoDup (map Raw.id [row_long; row_short])) as Hids.
  { simpl. constructor.
    - intros [H | []]. discriminate.
    - constructor; [intros [] | constructor]. }
  exact (proj1 (pass_updates_once db_dup [row_long; row_short] eq_refl Hids)).
Defined.



End PassFacts.

(** ** The matcher: where a match is found *)

Module MatchingFacts.
Import Js JsFacts.

Lemma startsWith_prefix (p rest : str) : startsWith p (p ++ rest) = true.
Proof. apply startsWith_app. eauto. Qed.

Section Completeness.
Context {R : Type}.
Implicit Types (k : str -> str -> option R) (cls : ascii -> bool).

Lemma lit_here p rest (k : str -> option R) : lit p (p ++ rest) k = k rest.
Proof. unfold lit. rewrite startsWith_prefix, skipn_prefix. reflexivity. Qed.

Lemma lit_miss p s (k : str -> option R) :
  startsWith p s = false -> lit p s k = None.
Proof. unfold lit. intros ->. reflexivity. Qed.

(** A greedy repetition that reaches the end of the run, where what
    follows succeeds. *)
Lemma star_max cls g rest acc k r :
  forallb cls g = true -> stops cls rest ->
  k (acc ++ g) rest = Some r ->
  star cls (g ++ rest) acc k = Some r.
Proof.
  revert acc; induction g as [|c g IH]; intros acc Hg Hstop Hk; simpl.
  - rewrite app_nil_r in Hk.
    destruct rest as [|c rest]; simpl; [exact Hk|].
    simpl in Hstop. rewrite Hstop. exact Hk.
  - simpl in Hg. apply andb_true_iff in Hg as [Hc Hg]. rewrite Hc.
    rewrite (IH (acc ++ [c])); auto.
    rewrite <- app_assoc. exact Hk.
Qed.

Lemma plus_max cls g rest k r :
  g <> [] -> forallb cls g = true -> stops cls rest ->
  k g rest = Some r ->
  plus cls (g ++ rest) k = Some r.
Proof.
  destruct g as [|c g]; [congruence|]. intros _ Hg Hstop Hk.
  simpl in Hg. apply andb_true_iff in Hg as [Hc Hg].
  simpl. rewrite Hc. apply star_max; auto.
Qed.

(** A repetition fails when what follows fails after every prefix of
    the run. *)
Lemma star_none cls s acc k :
  (forall x y, s = x ++ y -> forallb cls x = true -> k (acc ++ x) y = None) ->
  star cls s acc k = None.
Proof.
  revert acc; induction s as [|c s IH]; intros acc H; simpl.
  - rewrite <- (app_nil_r acc). apply (H [] []); reflexivity.
  - assert (k acc (c :: s) = None) as Hk.
    { rewrite <- (app_nil_r acc). apply (H [] (c :: s)); reflexivity. }
    destruct (cls c) eqn:Ec; [|exact Hk].
    rewrite IH; [exact Hk|].
    intros x y -> Hx. rewrite <- app_assoc. apply (H (c :: x) y).
    + reflexivity.
    + simpl. rewrite Ec. exact Hx.
Qed.

(** Backtracking: the repetition gives back units until what follows
    succeeds; it stops at the longest prefix of the run for which it
    does. *)
Lemma star_pick cls x y acc k r :
  forallb cls x = true ->
  k (acc ++ x) y = Some r ->
  (forall x' y', y = x' ++ y' -> x' <> [] -> forallb cls x' = true ->
                 k (acc ++ x ++ x') y' = None) ->
  star cls (x ++ y) acc k = Some r.
Proof.
  revert acc; induction x as [|c x IH]; intros acc Hx Hk Hext.
  - simpl in *. rewrite app_nil_r in Hk.
    destruct y as [|d y]; simpl; [exact Hk|].
    destruct (cls d) eqn:Ed; [|exact Hk].
    rewrite star_none; [exact Hk|].
    intros x2 y2 -> Hx2. rewrite <- app_assoc. apply (Hext (d :: x2) y2).
    + reflexivity.
    + discriminate.
    + simpl. rewrite Ed. exact Hx2.
  - simpl in Hx. apply andb_true_iff in Hx as [Hc Hx].
    simpl. rewrite Hc. rewrite (IH (acc ++ [c])); auto.
    + rewrite <- app_assoc. exact Hk.
    + intros x' y' E Hne Hx'. rewrite <- app_assoc. apply Hext; auto.
Qed.

Lemma exactly_here cls n g rest acc k :
  forallb cls g = true -> List.length g = n ->
  exactly cls n (g ++ rest) acc k = k (acc ++ g) rest.
Proof.
  revert g acc; induction n as [|n IH]; intros g acc Hg Hn.
  - destruct g; [|discriminate]. simpl. rewrite app_nil_r. reflexivity.
  - destruct g as [|c g]; [discriminate|].
    simpl in Hg. apply andb_true_iff in Hg as [Hc Hg].
    simpl. rewrite Hc. rewrite IH; auto.
    rewrite <- app_assoc. reflexivity.
Qed.

Lemma upto_stop cls n rest acc k :
  stops cls rest -> upto cls n rest acc k = k acc rest.
Proof.
  intros H. destruct n; [reflexivity|].
  destruct rest as [|c rest]; [reflexivity|].
  simpl in *. rewrite H. reflexivity.
Qed.

Lemma search_here (m : str -> option R) s r :
  m s = Some r -> search m s = Some r.
Proof. intros H. destruct s; simpl; rewrite H; reflexivity. Qed.

(** No match starts in a prefix where the pattern fails at every
    position. *)
Lemma search_skip (m : str -> option R) pre s :
  (forall p1 p2, pre = p1 ++ p2 -> p2 <> [] -> m (p2 ++ s) = None) ->
  search m (pre ++ s) = search m s.
Proof.
  induction pre as [|c pre IH]; intros H; [reflexivity|].
  assert (m (c :: pre ++ s) = None) as E
    by (apply (H [] (c :: pre)); [reflexivity | discriminate]).
  simpl. rewrite E.
  apply IH. intros p1 p2 -> Hne. apply (H (c :: p1) p2); auto.
Qed.

Lemma search_none (m : str -> option R) s :
  (forall p1 p2, s = p1 ++ p2 -> m p2 = None) -> search m s = None.
Proof.
  induction s as [|c s IH]; intros H; simpl.
  - rewrite (H [] []); reflexivity.
  - rewrite (H [] (c :: s)) by reflexivity.
    apply IH. intros p1 p2 ->. apply (H (c :: p1) p2). reflexivity.
Qed.
End Completeness.

Lemma includes_spec (n h : str) :
  includes n h = true <-> exists a b, h = a ++ n ++ b.
Proof.
  induction h as [|c h IH]; simpl.
  - rewrite orb_false_r, startsWith_app. split.
    + intros (r & E). exists [], r. exact E.
    + intros (a & b & E). destruct a; [eauto|discriminate].
  - rewrite orb_true_iff, startsWith_app, IH. split.
    + intros [(r & E) | (a & b & ->)].
      * exists [], r. exact E.
      * exists (c :: a), b. reflexivity.
    + intros (a & b & E). destruct a as [|d a].
      * left. eauto.
      * right. injection E as -> ->. eauto.
Qed.

Lemma includes_false_suffix (n p1 p2 : str) :
  includes n (p1 ++ p2) = false -> includes n p2 = false.
Proof.
  intros H. destruct (includes n p2) eqn:E; [|reflexivity].
  apply includes_spec in E as (a & b & ->).
  assert (includes n (p1 ++ a ++ n ++ b) = true) as H'.
  { apply includes_spec. exists (p1 ++ a), b.
    rewrite <- app_assoc. reflexivity. }
  congruence.
Qed.

Lemma endsWith_spec (p s : str) :
  endsWith p s = true <-> exists a, s = a ++ p.
Proof.
  unfold endsWith. rewrite startsWith_app. split.
  - intros (r & E). exists (rev r).
    rewrite <- (rev_involutive s), E, rev_app_distr, rev_involutive.
    reflexivity.
  - intros (a & ->). exists (rev a). apply rev_app_distr.
Qed.

Lemma lower_char_idem (c : ascii) : lower_char (lower_char c) = lower_char c.
Proof.
  destruct c as [[] [] [] [] [] [] [] []]; reflexivity.
Qed.

Lemma toLowerCase_idem (s : str) : toLowerCase (toLowerCase s) = toLowerCase s.
Proof.
  unfold toLowerCase. rewrite map_map. apply map_ext.
  apply lower_char_idem.
Qed.

Lemma toLowerCase_app (a b : str) :
  toLowerCase (a ++ b) = toLowerCase a ++ toLowerCase b.
Proof. apply map_app. Qed.

End MatchingFacts.

(** ** The cwd extractor *)

Module ExtractorFacts.
Import Js Routing Reading Samples MoreSamples.
Import JsFacts RoutingFacts MatchingFacts Scenarios.

Lemma cwd_match_at_marker (s : str) (x : str * str) :
  cwd_match_at s = Some x -> startsWith marker s = true.
Proof.
  unfold cwd_match_at. intros H. apply lit_sound in H as (rest & -> & _).
  apply startsWith_prefix.
Qed.

Lemma cwd_match_at_group (s g rest : str) :
  cwd_match_at s = Some (g, rest) -> g <> [] /\ forallb not_quote g = true.
Proof.
  unfold cwd_match_at. intros H.
  apply lit_sound in H as (r1 & _ & H).
  apply star_sound in H as (_ & r2 & _ & _ & H).
  apply lit_sound in H as (r3 & _ & H).
  apply star_sound in H as (_ & r4 & _ & _ & H).
  apply lit_sound in H as (r5 & _ & H).
  apply plus_sound in H as (g' & r6 & _ & Hne & Hg & H).
  apply lit_sound in H as (r7 & _ & [= <- _]). auto.
Qed.

Lemma matches_need_marker (s : str) (n : nat) (m : str) :
  In m (cwd_matches_from n s) -> includes marker s = true.
Proof.
  revert n; induction s as [|c s IH]; intros n.
  - destruct n; simpl; [|intros []].
    destruct (cwd_match_at []) as [[g r]|] eqn:E; [|intros []].
    apply cwd_match_at_marker in E. discriminate.
  - destruct n as [|n].
    + cbn [cwd_matches_from].
      destruct (cwd_match_at (c :: s)) as [[g r]|] eqn:E.
      * intros _. apply cwd_match_at_marker in E.
        cbn [includes]. rewrite E. reflexivity.
      * intros H. apply IH in H. cbn [includes]. rewrite H.
        apply orb_true_r.
    + cbn [cwd_matches_from]. intros H. apply IH in H.
      cbn [includes]. rewrite H. apply orb_true_r.
Qed.

Lemma pairs_step (a b : ascii) (g : str) :
  replace_backslash_pairs (a :: b :: g)
  = if is_backslash a && is_backslash b
    then "/"%char :: replace_backslash_pairs g
    else a :: replace_backslash_pairs (b :: g).
Proof. reflexivity. Qed.

Lemma pairs_elements (n : nat) (g : str) (x : ascii) :
  (List.length g <= n)%nat ->
  In x (replace_backslash_pairs g) -> x = "/"%char \/ In x g.
Proof.
  revert g; induction n as [|n IH]; intros g Hn.
  - destruct g; [intros [] | simpl in Hn; lia].
  - destruct g as [|a [|b g]]; [intros [] | simpl; tauto |].
    rewrite pairs_step. cbn [List.length] in Hn.
    destruct (is_backslash a && is_backslash b).
    + intros [<- | H]; [auto|].
      apply IH in H; [|lia]. simpl. tauto.
    + intros [<- | H]; [simpl; auto|].
      apply IH in H; [|cbn [List.length]; lia]. simpl in *. tauto.
Qed.

Lemma pairs_nonempty (g : str) : g <> [] -> replace_backslash_pairs g <> [].
Proof.
  destruct g as [|a [|b g]]; [congruence | discriminate |].
  intros _. rewrite pairs_step.
  destruct (is_backslash a && is_backslash b); discriminate.
Qed.

(** X9.  What the extractor returns: only a content that holds the word
    cwd in double quotes gives a cwd, and the cwd returned is not empty
    and holds neither a backslash nor a double quote. *)
Theorem extracted_cwd_shape (content c : str) :
  extractCwdFromContent content = Some c ->
  includes marker content = true
  /\ c <> [] /\ ~ In "\"%char c /\ ~ In dquote c.
Proof.
  intros H. pose proof (extracted_cwd_no_backslash content c H) as Hback.
  unfold extractCwdFromContent in H.
  destruct (negb (truthy content)); [discriminate|].
  destruct (rev (cwd_matches_from 0 content)) as [|m ms] eqn:Er;
    [discriminate|].
  destruct (search cwd_match_at m) as [[g r]|] eqn:Es; [|discriminate].
  injection H as <-.
  apply search_sound in Es as (pre & suf & _ & Es).
  apply cwd_match_at_group in Es as [Hne Hg].
  split.
  { apply (matches_need_marker content 0 m). apply in_rev. rewrite Er.
    left. reflexivity. }
  split.
  { unfold replace_backslashes. intros E. apply map_eq_nil in E.
    apply (pairs_nonempty g Hne). exact E. }
  split; [exact Hback|].
  unfold replace_backslashes. intros Hin.
  apply in_map_iff in Hin as (x & Ex & Hx).
  apply (pairs_elements (List.length g)) in Hx; [|apply Nat.le_refl].
  destruct Hx as [-> | Hx].
  - vm_compute in Ex. discriminate.
  - rewrite forallb_forall in Hg. specialize (Hg x Hx).
    destruct (is_backslash x); [vm_compute in Ex; discriminate|].
    subst x. vm_compute in Hg. discriminate.
Qed.

Lemma extracted_cwd_shape_witness :
  includes marker long_text = true.
Proof.
  exact (proj1 (extracted_cwd_shape long_text
                  ("/srv/ai-chad-5401/work" : str) eq_refl)).
Defined.

Lemma not_quote_forall (p : str) :
  ~ In dquote p -> forallb not_quote p = true.
Proof.
  intros H. apply forallb_forall. intros x Hx. unfold not_quote.
  destruct (Ascii.eqb x dquote) eqn:E; [|reflexivity].
  apply Ascii.eqb_eq in E. subst. contradiction.
Qed.

(** The pattern matches a well-formed field, whatever follows. *)
Lemma cwd_match_at_field (it : cwd_item) (rest : str) :
  well_formed it ->
  cwd_match_at (cwd_field it ++ rest) = Some (path it, rest).
Proof.
  intros (_ & Hb & Ha & Hne & Hq). unfold cwd_match_at, cwd_field.
  change (dquote :: "cwd" ++ [dquote] ++ ?x) with (marker ++ x).
  fold marker. rewrite <- !app_assoc. rewrite lit_here.
  rewrite (star_max is_space (before_colon it) _ [] _ (path it, rest));
    [reflexivity | exact Hb | reflexivity |].
  rewrite lit_here.
  rewrite (star_max is_space (after_colon it) _ [] _ (path it, rest));
    [reflexivity | exact Ha | reflexivity |].
  rewrite lit_here.
  rewrite (plus_max not_quote (path it) _ _ (path it, rest));
    [reflexivity | exact Hne | apply not_quote_forall; exact Hq
     | reflexivity |].
  rewrite lit_here. reflexivity.
Qed.

Lemma matches_after_gap (gap s : str) :
  ~ In dquote gap -> cwd_matches_from 0 (gap ++ s) = cwd_matches_from 0 s.
Proof.
  induction gap as [|c gap IH]; intros H; [reflexivity|].
  cbn [app cwd_matches_from].
  assert (cwd_match_at (c :: gap ++ s) = None) as ->.
  { destruct (cwd_match_at (c :: gap ++ s)) as [x|] eqn:E; [|reflexivity].
    apply cwd_match_at_marker in E. unfold marker in E.
    cbn [startsWith] in E.
    apply andb_true_iff in E as [E _]. apply Ascii.eqb_eq in E.
    exfalso. apply H. left. congruence. }
  apply IH. intros Hin. apply H. right. exact Hin.
Qed.

Lemma matches_skip (x s : str) :
  cwd_matches_from (List.length x) (x ++ s) = cwd_matches_from 0 s.
Proof. induction x as [|c x IH]; [reflexivity | exact IH]. Qed.

Lemma matches_field (it : cwd_item) (rest : str) :
  well_formed it ->
  cwd_matches_from 0 (cwd_field it ++ rest)
  = cwd_field it :: cwd_matches_from 0 rest.
Proof.
  intros Hwf. pose proof (cwd_match_at_field it rest Hwf) as E.
  assert (matched (cwd_field it ++ rest) rest = cwd_field it) as Em.
  { unfold matched. apply firstn_exact. rewrite length_app. lia. }
  remember (cwd_field it) as f eqn:Ef.
  destruct f as [|c f]; [unfold cwd_field in Ef; discriminate|].
  cbn [app cwd_matches_from]. cbn [app] in E, Em. rewrite E, Em.
  f_equal.
  replace (List.length (c :: f) - 1)%nat with (List.length f)
    by (cbn [List.length]; lia).
  apply matches_skip.
Qed.

Lemma matches_render (items : list cwd_item) (tail : str) :
  Forall well_formed items -> ~ In dquote tail ->
  cwd_matches_from 0 (render items ++ tail) = map cwd_field items.
Proof.
  intros Hwf Htail. induction Hwf as [|it items Hit _ IH]; simpl.
  - rewrite <- (app_nil_r tail), matches_after_gap by exact Htail.
    reflexivity.
  - rewrite <- !app_assoc.
    rewrite matches_after_gap by apply Hit.
    rewrite matches_field by exact Hit.
    f_equal. exact IH.
Qed.

Lemma no_backslash_unchanged (p : str) :
  ~ In "\"%char p ->
  replace_backslashes (replace_backslash_pairs p) = p.
Proof.
  intros H.
  assert (forall q, ~ In "\"%char q -> replace_backslash_pairs q = q) as Hp.
  { induction q as [|a q IH]; intros Hq; [reflexivity|].
    assert (is_backslash a = false) as Ea.
    { unfold is_backslash. destruct (Ascii.eqb a "\") eqn:E; [|reflexivity].
      apply Ascii.eqb_eq in E. exfalso. apply Hq. left. auto. }
    simpl. destruct q as [|b q]; [reflexivity|].
    rewrite Ea. simpl. f_equal. apply IH.
    intros Hin. apply Hq. right. exact Hin. }
  rewrite (Hp p H). unfold replace_backslashes.
  rewrite <- (map_id p) at 2. apply map_ext_in. intros x Hx.
  unfold is_backslash. destruct (Ascii.eqb x "\") eqn:E; [|reflexivity].
  apply Ascii.eqb_eq in E. subst. contradiction.
Qed.

(** X10.  The last cwd field wins.  For a content made of well-formed
    cwd fields, each after some text free of double quotes, and a tail
    free of double quotes, the extractor returns the path of the last
    field, with its backslashes turned into slashes (pairs first); a
    path without backslash is returned as it is. *)
Theorem extractCwd_last_field (items : list cwd_item) (it : cwd_item)
    (tail : str) :
  Forall well_formed items -> well_formed it -> ~ In dquote tail ->
  extractCwdFromContent (render (items ++ [it]) ++ tail)
  = Some (replace_backslashes (replace_backslash_pairs (path it)))
  /\ (~ In "\"%char (path it) ->
      extractCwdFromContent (render (items ++ [it]) ++ tail)
      = Some (path it)).
Proof.
  intros Hwf Hit Htail.
  assert (extractCwdFromContent (render (items ++ [it]) ++ tail)
          = Some (replace_backslashes (replace_backslash_pairs (path it))))
    as E.
  { unfold extractCwdFromContent.
    assert (truthy (render (items ++ [it]) ++ tail) = true) as ->.
    { unfold render. rewrite flat_map_app. simpl. rewrite app_nil_r.
      destruct (flat_map _ items ++ gap it ++ cwd_field it) eqn:E;
        [|reflexivity].
      apply app_eq_nil in E as [_ E]. apply app_eq_nil in E as [_ E].
      unfold cwd_field in E. discriminate. }
    cbn [negb].
    rewrite matches_render; auto.
    - rewrite map_app, rev_app_distr. cbn [map rev app].
      rewrite <- (app_nil_r (cwd_field it)) at 1.
      rewrite (search_here cwd_match_at _ (path it, []));
        [reflexivity | apply cwd_match_at_field; exact Hit].
    - apply Forall_app. split; [exact Hwf | constructor; [exact Hit|constructor]]. }
  split; [exact E|].
  intros Hb. rewrite E, (no_backslash_unchanged _ Hb). reflexivity.
Qed.

Lemma extractCwd_last_field_witness :
  extractCwdFromContent (render ([field_e] ++ [field_f]) ++ "}")
  = Some ("/srv/ai-chad-5401/work" : str).
Proof.
  assert (forall it, (it = field_e \/ it = field_f) -> well_formed it) as Hwf.
  { intros it [-> | ->]; unfold well_formed; simpl;
      repeat split; try discriminate;
      intros H; repeat (destruct H as [H | H]; [discriminate|]); exact H. }
  refine (proj2 (extractCwd_last_field [field_e] field_f "}"
                   _ (Hwf _ (or_intror eq_refl)) _) _).
  - constructor; [apply Hwf; left; reflexivity | constructor].
  - simpl. intros [H | []]. discriminate.
  - simpl. intros H.
    repeat (destruct H as [H | H]; [discriminate|]). exact H.
Defined.

End ExtractorFacts.

(** ** The path router: what it finds *)

Module RouterFacts.
Import Js Routing Reading JsFacts RoutingFacts MatchingFacts.

Lemma slug_char_not_digit_stop (rest : str) :
  stops is_slug_char rest -> stops is_digit rest.
Proof.
  destruct rest as [|c rest]; simpl; [auto|].
  unfold is_slug_char. intros H.
  apply orb_false_iff in H as [H _]. apply orb_false_iff in H as [_ H].
  exact H.
Qed.

Lemma digit_is_slug_char (c : ascii) :
  is_digit c = true -> is_slug_char c = true.
Proof.
  unfold is_slug_char. intros ->. rewrite orb_true_r. reflexivity.
Qed.

Lemma digit_not_hyphen (c : ascii) : is_digit c = true -> c <> hyphen.
Proof. intros H ->. vm_compute in H. discriminate. Qed.

Lemma hyphen_is_slug_char : is_slug_char hyphen = true.
Proof. reflexivity. Qed.

Lemma startsWith_hyphen (y : str) :
  startsWith "-" y = true -> exists y', y = hyphen :: y'.
Proof.
  intros H. apply startsWith_app in H as (r & ->). exists r. reflexivity.
Qed.

Lemma no_hyphen_start (y : str) :
  (forall y', y <> hyphen :: y') -> startsWith "-" y = false.
Proof.
  intros H. destruct (startsWith "-" y) eqn:E; [|reflexivity].
  apply startsWith_hyphen in E as (y' & ->). exfalso. eapply H. reflexivity.
Qed.

(** After a prefix of the digits, the text does not go on with a
    hyphen. *)
Lemma after_digits (ds rest x y : str) :
  ds ++ rest = x ++ y ->
  forallb is_digit ds = true -> stops is_slug_char rest ->
  forallb is_slug_char x = true ->
  startsWith "-" y = false.
Proof.
  revert x; induction ds as [|d ds IH]; intros x E Hd Hstop Hx.
  - simpl in E. destruct x as [|c x].
    + simpl in E. apply no_hyphen_start. intros y' ->. subst rest.
      simpl in Hstop. rewrite hyphen_is_slug_char in Hstop. discriminate.
    + subst rest. simpl in Hstop, Hx.
      rewrite Hstop in Hx. discriminate.
  - simpl in Hd. apply andb_true_iff in Hd as [Hd0 Hd].
    destruct x as [|c x].
    + apply no_hyphen_start. intros y' ->. simpl in E.
      injection E as -> _.
      apply (digit_not_hyphen hyphen Hd0). reflexivity.
    + injection E as -> E. simpl in Hx.
      apply andb_true_iff in Hx as [_ Hx]. eapply IH; eauto.
Qed.

(** The pattern on a token, a hyphen and four digits that end the run:
    group 1 is the token, group 2 the digits. *)
Lemma port_match_at_token (token ds rest : str) :
  token <> [] -> forallb is_slug_char token = true ->
  forallb is_digit ds = true -> List.length ds = 4%nat ->
  stops is_slug_char rest ->
  port_match_at (token ++ "-" ++ ds ++ rest) = Some (token, ds).
Proof.
  intros Hne Htok Hds Hlen Hstop.
  destruct token as [|c tk]; [congruence|].
  simpl in Htok. apply andb_true_iff in Htok as [Hc Htk].
  unfold port_match_at, plus. cbn [app]. rewrite Hc.
  apply star_pick.
  - exact Htk.
  - rewrite lit_here. unfold between.
    rewrite exactly_here by assumption.
    rewrite upto_stop by (apply slug_char_not_digit_stop; exact Hstop).
    reflexivity.
  - intros x' y' E Hx'ne Hx'.
    apply lit_miss.
    destruct x' as [|h x']; [congruence|].
    cbn [forallb] in Hx'. apply andb_true_iff in Hx' as [_ Hx'].
    simpl in E. injection E as _ E.
    eapply after_digits; eauto.
Qed.

(** Inside a run without hyphen that ends before the token, the text
    after any prefix of the run does not start with a hyphen. *)
Lemma run_before_token (p s x y : str) (c z : ascii) (q : str) :
  c :: p = q ++ [z] -> is_slug_char z = false ->
  is_slug_char c = true -> ~ In hyphen p ->
  p ++ s = x ++ y -> forallb is_slug_char x = true ->
  startsWith "-" y = false.
Proof.
  revert c q x; induction p as [|d p IH]; intros c q x Eq Hz Hc Hno E Hx.
  - destruct q as [|a [|b q]]; simpl in Eq.
    + injection Eq as ->. congruence.
    + discriminate.
    + discriminate.
  - destruct x as [|e x].
    + apply no_hyphen_start. intros y' ->. simpl in E.
      injection E as -> _. apply Hno. left. reflexivity.
    + injection E as <- E. simpl in Hx.
      apply andb_true_iff in Hx as [Hd Hx].
      destruct q as [|a q]; [discriminate|].
      injection Eq as <- Eq.
      eapply (IH d q x); eauto.
      intros H. apply Hno. right. exact H.
Qed.

Lemma no_match_before_token (p2 s : str) (q : str) (z : ascii) :
  p2 = q ++ [z] -> is_slug_char z = false -> ~ In hyphen p2 ->
  port_match_at (p2 ++ s) = None.
Proof.
  intros Eq Hz Hno. destruct p2 as [|c p]; [destruct q; discriminate|].
  unfold port_match_at, plus. cbn [app].
  destruct (is_slug_char c) eqn:Hc; [|reflexivity].
  apply star_none. intros x y E Hx. apply lit_miss.
  eapply (run_before_token p s x y c z q); eauto.
  intros H. apply Hno. right. exact H.
Qed.

Lemma suffix_last (p1 p2 q : str) (z : ascii) :
  p1 ++ p2 = q ++ [z] -> p2 <> [] -> exists q2, p2 = q2 ++ [z].
Proof.
  intros E Hne. destruct (exists_last Hne) as (q2 & z2 & ->).
  rewrite app_assoc in E. apply app_inj_tail in E as [_ ->]. eauto.
Qed.

Lemma normalized_truthy (c : str) :
  toLowerCase (replace_backslashes c) <> [] -> truthy c = true.
Proof. destruct c; [simpl; congruence | reflexivity]. Qed.

(** X11.  A path whose first hyphenated token ends in four digits is
    routed to it.  When the normalized path is a prefix without hyphen
    that is empty or ends outside the token alphabet, then a token of
    [a-z0-9-], a hyphen and four digits that read as a port in
    [4000, 9999], followed by nothing or by a unit outside the token
    alphabet, the router returns the token with its digits as slug and
    the digits as port. *)
Theorem token_port_routes (cwd pre token ds rest : str) (v : Z) :
  toLowerCase (replace_backslashes cwd) = pre ++ token ++ "-" ++ ds ++ rest ->
  ~ In hyphen pre ->
  (pre = [] \/ exists q z, pre = q ++ [z] /\ is_slug_char z = false) ->
  token <> [] -> forallb is_slug_char token = true ->
  forallb is_digit ds = true -> List.length ds = 4%nat ->
  stops is_slug_char rest ->
  parseInt10 ds = Some v -> (4000 <= v <= 9999)%Z ->
  parseRoutingFromCwd (Some cwd)
  = {| project_slug := Some (token ++ "-" ++ ds); team_port := Some v |}.
Proof.
  intros En Hno Hpre Hne Htok Hds Hlen Hstop Hv Hrange.
  unfold parseRoutingFromCwd.
  rewrite normalized_truthy
    by (rewrite En; destruct pre, token; simpl; congruence).
  cbn [negb]. cbv zeta. rewrite En.
  assert (search port_match_at (pre ++ token ++ "-" ++ ds ++ rest)
          = Some (token, ds)) as ->.
  { rewrite search_skip.
    - apply search_here. apply port_match_at_token; assumption.
    - intros p1 p2 E Hp2.
      destruct Hpre as [-> | (q & z & -> & Hz)].
      + destruct p1; [|discriminate]. simpl in E. congruence.
      + symmetry in E. destruct (suffix_last _ _ _ _ E Hp2) as (q2 & Eq2).
        eapply no_match_before_token; eauto.
        intros H. apply Hno. rewrite <- E. apply in_or_app. right. exact H. }
  rewrite Hv. cbn [in_port_range].
  assert ((4000 <=? v)%Z && (v <=? 9999)%Z = true) as ->
    by (apply andb_true_iff; rewrite !Z.leb_le; lia).
  reflexivity.
Qed.

Lemma token_port_routes_witness :
  parseRoutingFromCwd (Some ("C:\Work\AI-Chad-5401\src" : str))
  = {| project_slug := Some ("ai-chad-5401" : str); team_port := Some 5401%Z |}.
Proof.
  refine (token_port_routes ("C:\Work\AI-Chad-5401\src" : str)
            "c:/work/" "ai-chad" "5401" "/src" 5401%Z
            eq_refl _ _ _ eq_refl eq_refl eq_refl eq_refl eq_refl _).
  - simpl. intros H.
    repeat (destruct H as [H | H]; [discriminate|]). exact H.
  - right. exists ("c:/work" : str), "/"%char. split; reflexivity.
  - discriminate.
  - lia.
Defined.

Lemma slug_char_normal (c : ascii) :
  is_slug_char c = true ->
  c <> "/"%char /\ c <> "\"%char /\ lower_char c = c.
Proof.
  destruct c as [[] [] [] [] [] [] [] []]; intros H;
    try discriminate H; repeat split; discriminate.
Qed.

Lemma normalized_char (c0 : ascii) :
  let c := lower_char (if is_backslash c0 then "/"%char else c0) in
  c <> "\"%char /\ lower_char c = c.
Proof.
  destruct c0 as [[] [] [] [] [] [] [] []]; split;
    (discriminate || reflexivity).
Qed.

Lemma normalized_chars (cwd : str) (c : ascii) :
  In c (toLowerCase (replace_backslashes cwd)) ->
  c <> "\"%char /\ lower_char c = c.
Proof.
  unfold toLowerCase, replace_backslashes. rewrite map_map.
  intros H. apply in_map_iff in H as (c0 & <- & _).
  apply normalized_char.
Qed.

Lemma segment_group (dir n g : str) :
  search (segment_match_at dir) n = Some g ->
  g <> [] /\ forallb not_slash g = true
  /\ exists a b, n = a ++ g ++ b.
Proof.
  intros H. apply search_sound in H as (pre & suf & -> & H).
  unfold segment_match_at in H.
  apply lit_sound in H as (r1 & -> & H).
  apply plus_sound in H as (g' & rest & -> & Hne & Hg & [= <-]).
  repeat split; auto.
  exists (pre ++ dir ++ "/"), rest. rewrite <- !app_assoc. reflexivity.
Qed.

Lemma not_slash_In (g : str) : forallb not_slash g = true -> ~ In "/"%char g.
Proof.
  intros H Hin. rewrite forallb_forall in H. specialize (H _ Hin).
  vm_compute in H. discriminate.
Qed.

Lemma lower_fixed (s : str) :
  (forall c, In c s -> lower_char c = c) -> toLowerCase s = s.
Proof.
  intros H. unfold toLowerCase. rewrite <- (map_id s) at 2.
  apply map_ext_in. exact H.
Qed.

(** X12.  A slug that the path router returns is not empty, holds
    neither a slash nor a backslash, and is in lower case. *)
Theorem routed_slug_shape (cwd : option str) (s : str) :
  project_slug (parseRoutingFromCwd cwd) = Some s ->
  s <> [] /\ ~ In "/"%char s /\ ~ In "\"%char s /\ toLowerCase s = s.
Proof.
  unfold parseRoutingFromCwd.
  destruct cwd as [c|]; [|discriminate].
  destruct (truthy c); [|discriminate]. cbn [negb]. cbv zeta.
  set (n := toLowerCase (replace_backslashes c)).
  assert (project_slug (routeBySegment n) = Some s ->
          s <> [] /\ ~ In "/"%char s /\ ~ In "\"%char s /\ toLowerCase s = s)
    as Hseg.
  { unfold routeBySegment.
    assert (forall dir, search (segment_match_at dir) n = Some s ->
              s <> [] /\ ~ In "/"%char s /\ ~ In "\"%char s
              /\ toLowerCase s = s) as Hdir.
    { intros dir H. apply segment_group in H as (Hne & Hg & a & b & En).
      assert (forall x, In x s -> x <> "\"%char /\ lower_char x = x) as Hn.
      { intros x Hx. apply (normalized_chars c). fold n. rewrite En.
        apply in_or_app. right. apply in_or_app. left. exact Hx. }
      split; [exact Hne|]. split; [apply not_slash_In; exact Hg|].
      split.
      - intros Hin. apply (proj1 (Hn _ Hin)). reflexivity.
      - apply lower_fixed. intros x Hx. apply Hn. exact Hx. }
    destruct (search (segment_match_at "studio") n) as [g|] eqn:E1.
    - intros [= <-]. eapply Hdir; eauto.
    - destruct (search (segment_match_at "projects") n) as [g|] eqn:E2.
      + intros [= <-]. eapply Hdir; eauto.
      + discriminate. }
  destruct (search port_match_at n) as [[g1 g2]|] eqn:Es; [|exact Hseg].
  destruct (in_port_range (parseInt10 g2)); [|exact Hseg].
  cbn [project_slug]. intros [= <-].
  apply search_sound in Es as (pre & suf & _ & Es).
  apply port_match_at_sound in Es as (rest & _ & Hne & Hg1 & Hg2 & _).
  assert (forall x, In x (g1 ++ "-" ++ g2) -> is_slug_char x = true) as Hall.
  { intros x Hx. apply in_app_or in Hx as [Hx | Hx].
    - rewrite forallb_forall in Hg1. auto.
    - apply in_app_or in Hx as [[<- | []] | Hx]; [reflexivity|].
      rewrite forallb_forall in Hg2. apply digit_is_slug_char. auto. }
  split; [destruct g1; [congruence | discriminate]|].
  split; [intros Hin; apply (proj1 (slug_char_normal _ (Hall _ Hin)));
          reflexivity|].
  split; [intros Hin;
          apply (proj1 (proj2 (slug_char_normal _ (Hall _ Hin))));
          reflexivity|].
  apply lower_fixed. intros x Hx. apply slug_char_normal. auto.
Qed.

Lemma routed_slug_shape_witness :
  toLowerCase ("project-5401" : str) = "project-5401".
Proof.
  exact (proj2 (proj2 (proj2
    (routed_slug_shape (Some ("C:\Users\Bob\Project-5401\x" : str))
       "project-5401" eq_refl)))).
Defined.

Lemma startsWith_long (n p y : str) :
  (List.length n <= List.length p)%nat ->
  startsWith n (p ++ y) = startsWith n p.
Proof.
  revert p; induction n as [|a n IH]; intros p Hlen; [reflexivity|].
  destruct p as [|b p]; [simpl in Hlen; lia|].
  simpl. f_equal. apply IH. simpl in Hlen. lia.
Qed.

(** [studio/] and [projects/] have no proper overlap with themselves:
    an occurrence cannot start inside the text before another one
    without lying in that text. *)
Lemma studio_no_overlap (p y : str) :
  p <> [] -> startsWith "studio/" p = false ->
  startsWith "studio/" (p ++ "studio/" ++ y) = false.
Proof.
  intros Hne Hp.
  destruct (Nat.le_gt_cases 7 (List.length p)) as [Hl | Hl].
  - rewrite startsWith_long by exact Hl. exact Hp.
  - destruct (startsWith "studio/" (p ++ "studio/" ++ y)) eqn:E;
      [|reflexivity].
    apply startsWith_app in E as (r & E). exfalso.
    do 7 (destruct p as [|? p]; [try congruence; discriminate E|]).
    simpl in Hl. lia.
Qed.

Lemma projects_no_overlap (p y : str) :
  p <> [] -> startsWith "projects/" p = false ->
  startsWith "projects/" (p ++ "projects/" ++ y) = false.
Proof.
  intros Hne Hp.
  destruct (Nat.le_gt_cases 9 (List.length p)) as [Hl | Hl].
  - rewrite startsWith_long by exact Hl. exact Hp.
  - destruct (startsWith "projects/" (p ++ "projects/" ++ y)) eqn:E;
      [|reflexivity].
    apply startsWith_app in E as (r & E). exfalso.
    do 9 (destruct p as [|? p]; [try congruence; discriminate E|]).
    simpl in Hl. lia.
Qed.

Lemma includes_false_start (n s : str) :
  includes n s = false -> startsWith n s = false.
Proof.
  destruct s; simpl; intros H; apply orb_false_iff in H as [H _]; exact H.
Qed.

Lemma no_hyphen_no_port (n : str) :
  ~ In hyphen n -> search port_match_at n = None.
Proof.
  intros H. destruct (search port_match_at n) as [[g1 g2]|] eqn:E;
    [|reflexivity].
  apply search_sound in E as (pre & suf & -> & E).
  apply port_match_at_sound in E as (rest & -> & _).
  exfalso. apply H. apply in_or_app. right. apply in_or_app. right.
  left. reflexivity.
Qed.

Lemma no_directory_no_segment (dir n : str) :
  includes (dir ++ "/") n = false ->
  search (segment_match_at dir) n = None.
Proof.
  intros H. apply search_none. intros p1 p2 ->.
  unfold segment_match_at. apply lit_miss.
  apply includes_false_start. eapply includes_false_suffix. exact H.
Qed.

Lemma segment_found (dir pre name rest : str) :
  (forall p y, p <> [] -> startsWith (dir ++ "/") p = false ->
               startsWith (dir ++ "/") (p ++ (dir ++ "/") ++ y) = false) ->
  includes (dir ++ "/") pre = false ->
  name <> [] -> ~ In "/"%char name -> stops not_slash rest ->
  search (segment_match_at dir) (pre ++ (dir ++ "/") ++ name ++ rest)
  = Some name.
Proof.
  intros Hover Hpre Hne Hname Hstop. rewrite search_skip.
  - apply search_here. unfold segment_match_at.
    rewrite lit_here. apply plus_max; auto.
    apply forallb_forall. intros x Hx. unfold not_slash.
    destruct (Ascii.eqb x "/") eqn:E; [|reflexivity].
    apply Ascii.eqb_eq in E. subst. contradiction.
  - intros p1 p2 -> Hp2. unfold segment_match_at. apply lit_miss.
    apply Hover; [exact Hp2|].
    apply includes_false_start. eapply includes_false_suffix. exact Hpre.
Qed.

(** X13.  A path without hyphen (so without port token) that holds a
    [studio/] directory is routed to the name that follows its first
    occurrence, up to the next slash, with no port; without any
    [studio/] the same holds for [projects/]. *)
Theorem directory_segment_routes (cwd dir pre name rest : str) :
  toLowerCase (replace_backslashes cwd) = pre ++ (dir ++ "/") ++ name ++ rest ->
  ~ In hyphen (toLowerCase (replace_backslashes cwd)) ->
  (dir = "studio"
   \/ (dir = "projects"
       /\ includes "studio/" (toLowerCase (replace_backslashes cwd)) = false)) ->
  includes (dir ++ "/") pre = false ->
  name <> [] -> ~ In "/"%char name -> stops not_slash rest ->
  parseRoutingFromCwd (Some cwd)
  = {| project_slug := Some name; team_port := None |}.
Proof.
  intros En Hno Hdir Hpre Hne Hname Hstop.
  unfold parseRoutingFromCwd.
  rewrite normalized_truthy
    by (rewrite En; destruct pre, dir; simpl; congruence).
  cbn [negb]. cbv zeta.
  rewrite (no_hyphen_no_port _ Hno). unfold routeBySegment.
  destruct Hdir as [-> | [-> Hstudio]].
  - rewrite En, (segment_found "studio"); auto.
    intros p y. apply studio_no_overlap.
  - rewrite (no_directory_no_segment "studio" _ Hstudio).
    rewrite En, (segment_found "projects"); auto.
    intros p y. apply projects_no_overlap.
Qed.

Lemma directory_segment_routes_witness :
  parseRoutingFromCwd (Some ("D:\Projects\NextBid\src" : str))
  = {| project_slug := Some ("nextbid" : str); team_port := None |}.
Proof.
  refine (directory_segment_routes ("D:\Projects\NextBid\src" : str)
            "projects" "d:/" "nextbid" "/src" eq_refl _
            (or_intror (conj eq_refl eq_refl)) eq_refl _ _ eq_refl).
  - simpl. intros H.
    repeat (destruct H as [H | H]; [discriminate|]). exact H.
  - discriminate.
  - simpl. intros H.
    repeat (destruct H as [H | H]; [discriminate|]). exact H.
Defined.

(** X14.  The home test in words: a path is a home path exactly when,
    in lower case, it holds [/home/] or [/root/], ends with [/root], or
    holds [\users\]; the test of the drive prefix adds nothing.  The
    letter case of the path does not matter. *)
Theorem isHomePath_spec (p : str) :
  (isHomePath (Some p) = true <->
   (exists a b, toLowerCase p = a ++ "/home/" ++ b)
   \/ (exists a b, toLowerCase p = a ++ "/root/" ++ b)
   \/ (exists a, toLowerCase p = a ++ "/root")
   \/ (exists a b, toLowerCase p = a ++ "\users\" ++ b))
  /\ isHomePath (Some (toLowerCase p)) = isHomePath (Some p).
Proof.
  split.
  - rewrite <- !includes_spec, <- endsWith_spec.
    unfold isHomePath. destruct p as [|d p].
    + simpl. split; [discriminate | intuition discriminate].
    + cbn [truthy negb]. rewrite !orb_true_iff. split.
      * intros [[[[H | H] | H] | H] | H]; auto.
        right. right. right.
        cbn [toLowerCase map windows_users_prefix] in H.
        apply andb_true_iff in H as [_ H].
        fold (toLowerCase p) in H. rewrite toLowerCase_idem in H.
        apply startsWith_app in H as (r & E).
        apply includes_spec. exists [lower_char d; ":"%char], r.
        cbn [toLowerCase map]. fold (toLowerCase p). rewrite E.
        reflexivity.
      * intros [H | [H | [H | H]]]; auto.
  - unfold isHomePath. rewrite toLowerCase_idem.
    destruct p; reflexivity.
Qed.

End RouterFacts.

(** ** Slugs, ports and the content patterns *)

Module SlugFacts.
Import Js Routing Resolver Aggregator Processor Windows Reading Samples.
Import MoreSamples Terminal.
Import JsFacts RoutingFacts ResolverFacts AggregatorFacts.

Lemma assoc_value (k v : str) (m : list (str * str)) :
  assoc k m = Some v -> In v (map snd m).
Proof.
  induction m as [|[k' v'] m IH]; simpl; [discriminate|].
  destruct (str_eqb k k'); [intros [= ->]; auto | auto].
Qed.

Lemma canonical_fixed (v : str) :
  In v (map snd SLUG_PORT_MAP) -> normalizeSlug v = SlugStr v /\ v <> [].
Proof.
  simpl. intros H.
  repeat (destruct H as [<- | H]; [split; [reflexivity | discriminate]|]).
  destruct H.
Qed.

(** X15.  Normalizing is idempotent: a slug that [normalizeSlug] returns
    is returned unchanged when normalized again. *)
Theorem normalizeSlug_idempotent (s s' : str) :
  normalizeSlug s = SlugStr s' -> normalizeSlug s' = SlugStr s'.
Proof.
  intros H. pose proof H as H0. unfold normalizeSlug in H.
  destruct (truthy s); cbn [negb] in H; [|congruence].
  destruct (assoc s SLUG_PORT_MAP) as [full|] eqn:Ea.
  - injection H as <-. apply canonical_fixed. eapply assoc_value; eauto.
  - destruct (existsb (str_eqb s) OBJECT_PROTOTYPE_KEYS); [discriminate|].
    congruence.
Qed.

Lemma normalizeSlug_idempotent_witness :
  normalizeSlug "ai-chad-5401" = SlugStr "ai-chad-5401".
Proof.
  exact (normalizeSlug_idempotent "ai-chad" "ai-chad-5401" eq_refl).
Defined.

Lemma trusted_label_truthy (win : Win.t) (s : str) :
  trusted_label win = Some s -> truthy s = true /\ low_trust s = false.
Proof.
  unfold trusted_label, or_null.
  destruct (Win.project_slug win) as [x|]; [|discriminate].
  destruct (truthy x) eqn:Et; [|discriminate].
  destruct (low_trust x) eqn:El; [discriminate|].
  intros [= <-]. auto.
Qed.

Lemma pattern_slug_not_empty (pat : pattern) :
  In pat patterns -> pat_slug pat <> [].
Proof.
  simpl. intros H.
  repeat (destruct H as [<- | H]; [discriminate|]). destruct H.
Qed.

(** X16.  Resolution never gives an empty slug: whatever the window and
    the cwd, the slug returned is not the empty string. *)
Theorem resolved_slug_not_empty (win : Win.t) (cwd : option str) :
  slug (resolveProjectSlug win cwd) <> SlugStr [].
Proof.
  unfold resolveProjectSlug.
  destruct (trusted_label win) as [s|] eqn:Et.
  - apply trusted_label_truthy in Et as [Ht _]. cbn [slug].
    unfold normalizeSlug. rewrite Ht. cbn [negb].
    destruct (assoc s SLUG_PORT_MAP) as [full|] eqn:Ea.
    + apply assoc_value in Ea. apply canonical_fixed in Ea as [_ Hne].
      congruence.
    + destruct (existsb (str_eqb s) OBJECT_PROTOTYPE_KEYS); [discriminate|].
      destruct s; [discriminate | discriminate].
  - assert (slug (by_content win) <> SlugStr []) as Hc.
    { destruct (by_content_cases win) as [(pat & Hin & _ & ->) | (_ & ->)].
      - cbn [slug]. intros [= E]. exact (pattern_slug_not_empty pat Hin E).
      - discriminate. }
    unfold by_cwd_or_content. destruct (usable_cwd cwd); [|exact Hc].
    destruct (or_null (Routing.project_slug (parseRoutingFromCwd cwd)))
      as [s|] eqn:Es; [|exact Hc].
    cbn [slug]. unfold or_null in Es.
    destruct (Routing.project_slug (parseRoutingFromCwd cwd)) as [x|]; [|discriminate].
    destruct x; [discriminate|]. injection Es as <-. discriminate.
Qed.

Lemma routing_port_in_range (cwd : option str) (p : Z) :
  Routing.team_port (parseRoutingFromCwd cwd) = Some p -> (4000 <= p <= 9999)%Z.
Proof.
  unfold parseRoutingFromCwd.
  destruct cwd as [c|]; [|discriminate].
  destruct (truthy c); [|discriminate]. cbn [negb]. cbv zeta.
  destruct (search port_match_at _) as [[g1 g2]|];
    [|rewrite routeBySegment_no_port; discriminate].
  destruct (in_port_range (parseInt10 g2)) eqn:Er;
    [|rewrite routeBySegment_no_port; discriminate].
  cbn [Routing.team_port]. intros Hp.
  apply in_port_range_spec in Er as (q & Hq & Hr). congruence.
Qed.

(** Without a trusted label, a port comes with a slug read from a cwd
    that passed the home test. *)
Lemma untrusted_port_from_cwd (win : Win.t) (cwd : option str) (p : Z) :
  trusted_label win = None ->
  port (resolveProjectSlug win cwd) = Some p ->
  usable_cwd cwd = true
  /\ Routing.team_port (parseRoutingFromCwd cwd) = Some p
  /\ reason (resolveProjectSlug win cwd) = "cwd".
Proof.
  intros Et. unfold resolveProjectSlug. rewrite Et.
  assert (port (by_content win) = None) as Hc.
  { destruct (by_content_cases win) as [(pat & _ & _ & ->) | (_ & ->)];
      reflexivity. }
  unfold by_cwd_or_content. destruct (usable_cwd cwd) eqn:Eu;
    [|rewrite Hc; discriminate].
  destruct (or_null (Routing.project_slug (parseRoutingFromCwd cwd)));
    [|rewrite Hc; discriminate].
  cbn [port reason]. auto.
Qed.

(** X17.  Unless the caller label is trusted, the resolver gives a port
    only with a slug read from the cwd: the port then lies in
    [4000, 9999], the reason is [cwd] and the cwd is not a home path.
    An identity found in the content, and the sentinel, have no port. *)
Theorem derived_port_in_range (win : Win.t) (cwd : option str) (p : Z) :
  trusted_label win = None ->
  port (resolveProjectSlug win cwd) = Some p ->
  (4000 <= p <= 9999)%Z
  /\ reason (resolveProjectSlug win cwd) = "cwd"
  /\ isHomePath cwd = false
  /\ Routing.team_port (parseRoutingFromCwd cwd) = Some p.
Proof.
  intros Et Hp.
  destruct (untrusted_port_from_cwd win cwd p Et Hp) as (Eu & Er & Ereason).
  split; [eapply routing_port_in_range; eauto|].
  split; [exact Ereason|]. split; [|exact Er].
  unfold usable_cwd in Eu. destruct cwd as [c|]; [|reflexivity].
  apply andb_true_iff in Eu as [_ Eu].
  destruct (isHomePath (Some c)); [discriminate | reflexivity].
Qed.

Lemma derived_port_in_range_witness :
  port (resolveProjectSlug (build row_long [])
          (extractCwdFromContent long_text)) = Some 5401%Z
  /\ reason (resolveProjectSlug (build row_long [])
               (extractCwdFromContent long_text)) = "cwd".
Proof.
  split; [reflexivity|].
  exact (proj1 (proj2 (derived_port_in_range (build row_long [])
                         (extractCwdFromContent long_text) 5401%Z
                         eq_refl eq_refl))).
Defined.

Lemma first_pattern_first (hay : str) (before after : list pattern)
    (pat : pattern) :
  (forall q, In q before -> includes (pat_match q) hay = false) ->
  includes (pat_match pat) hay = true ->
  first_pattern hay (before ++ pat :: after) = Some pat.
Proof.
  induction before as [|q before IH]; intros Hb Hp; simpl.
  - rewrite Hp. reflexivity.
  - rewrite (Hb q) by (left; reflexivity).
    apply IH; [|exact Hp]. intros q' Hq'. apply Hb. right. exact Hq'.
Qed.

Lemma haystack_session_file (win : Win.t) (m : str) :
  includes m (toLowerCase (Win.session_file win)) = true ->
  includes m (haystack win) = true.
Proof.
  intros H. apply MatchingFacts.includes_spec in H as (a & b & E).
  apply MatchingFacts.includes_spec. unfold haystack.
  rewrite MatchingFacts.toLowerCase_app, E.
  exists a. eexists. rewrite <- !app_assoc. reflexivity.
Qed.

(** X18.  The content patterns are tried in the order of the table, on
    lower-cased text: a pattern that occurs in the haystack, with none
    of the patterns listed before it, decides the slug, with the reason
    [content:] and the pattern, and no port.  A pattern that occurs in
    the session file, in any letter case, occurs in the haystack. *)
Theorem content_pattern_priority (win : Win.t) (before after : list pattern)
    (pat : pattern) :
  patterns = before ++ pat :: after ->
  (forall q, In q before -> includes (pat_match q) (haystack win) = false) ->
  (includes (pat_match pat) (haystack win) = true
   \/ includes (pat_match pat) (toLowerCase (Win.session_file win)) = true) ->
  by_content win
  = {| slug := SlugStr (pat_slug pat);
       reason := "content:" ++ pat_match pat; port := None |}.
Proof.
  intros Ep Hb Hp. unfold by_content. rewrite Ep.
  rewrite (first_pattern_first _ before after pat Hb); [reflexivity|].
  destruct Hp as [Hp | Hp]; [exact Hp|].
  apply haystack_session_file. exact Hp.
Qed.

Lemma content_pattern_priority_witness :
  by_content jen_window
  = {| slug := SlugStr "ai-jen-5402"; reason := "content:ai-jen";
       port := None |}.
Proof.
  refine (content_pattern_priority jen_window
            [ {| pat_match := "kodiack-dashboard";
                 pat_slug := "kodiack-dashboard-5500" |};
              {| pat_match := "dashboard-5500";
                 pat_slug := "kodiack-dashboard-5500" |} ]
            _ {| pat_match := "ai-jen"; pat_slug := "ai-jen-5402" |}
            eq_refl _ (or_intror eq_refl)).
  intros q [<- | [<- | []]]; reflexivity.
Defined.

Lemma routing_port_has_slug (cwd : option str) (p : Z) :
  Routing.team_port (parseRoutingFromCwd cwd) = Some p ->
  exists s, or_null (Routing.project_slug (parseRoutingFromCwd cwd)) = Some s.
Proof.
  intros Hp.
  destruct (Routing.project_slug (parseRoutingFromCwd cwd)) as [s|] eqn:Es.
  - exists s. eapply routing_slug_truthy; eauto.
  - exfalso. revert Hp Es. unfold parseRoutingFromCwd.
    destruct cwd as [c|]; [|discriminate].
    destruct (truthy c); [|discriminate]. cbn [negb]. cbv zeta.
    destruct (search port_match_at _) as [[g1 g2]|];
      [|rewrite routeBySegment_no_port; discriminate].
    destruct (in_port_range (parseInt10 g2));
      [|rewrite routeBySegment_no_port; discriminate].
    discriminate.
Qed.

(** Without a trusted label the port of the identity is the port the
    router reads from a usable cwd. *)
Lemma untrusted_port (win : Win.t) (cwd : option str) :
  trusted_label win = None ->
  port (resolveProjectSlug win cwd)
  = if usable_cwd cwd then Routing.team_port (parseRoutingFromCwd cwd)
    else None.
Proof.
  intros Et. unfold resolveProjectSlug. rewrite Et.
  assert (port (by_content win) = None) as Hc.
  { destruct (by_content_cases win) as [(pat & _ & _ & ->) | (_ & ->)];
      reflexivity. }
  unfold by_cwd_or_content. destruct (usable_cwd cwd); [|exact Hc].
  destruct (or_null (Routing.project_slug (parseRoutingFromCwd cwd)))
    as [s|] eqn:Es; [reflexivity|].
  rewrite Hc.
  destruct (Routing.team_port (parseRoutingFromCwd cwd)) as [p|] eqn:Ep;
    [|reflexivity].
  apply routing_port_has_slug in Ep as (s & E). congruence.
Qed.

Lemma same_window_same_key (l : list Raw.t) (t1 t2 : Raw.t) :
  In t1 l -> In t2 l ->
  (same_window l t1 t2 <-> window_key t1 = window_key t2).
Proof.
  intros Hin1 Hin2. split.
  - intros (w & Hw & H1 & H2). apply window_in_group in Hw as (k & E).
    apply lookup_group in E as (_ & _ & _ & _ & Etr & _).
    rewrite Etr in H1, H2.
    apply members_In in H1 as [_ H1]. apply members_In in H2 as [_ H2].
    congruence.
  - intros Ek. destruct (record_has_window l t1 Hin1) as (w & E & Ht).
    exists w. split; [apply window_in_group; eauto|]. split; [exact Ht|].
    apply lookup_group in E as (_ & _ & _ & _ & -> & _).
    apply members_In. auto.
Qed.

Lemma same_half_hour (a b : Z) :
  window_start a = window_start b <-> (a / 1800000 = b / 1800000)%Z.
Proof.
  unfold window_start, TIME_WINDOW_MS.
  change (30 * 60 * 1000)%Z with 1800000%Z. split; intros H; lia.
Qed.

(** X19.  Rows written by the terminal monitor are grouped by time
    alone: two of them are filed in the same window exactly when their
    timestamps fall in the same half hour.  A window of such rows carries
    the label [terminal] and the port 5400.  The label is low-trust, so
    the identity is never taken from it; the port of the session row is
    the port that the router reads from the cwd of the content when that
    cwd is usable and gives one, and 5400 otherwise; it lies in
    [4000, 9999] either way. *)
Theorem terminal_rows_by_time (l : list Raw.t) :
  Forall terminal_row l ->
  (forall t1 t2, In t1 l -> In t2 l ->
     (same_window l t1 t2
      <-> (timestamp t1 / 1800000 = timestamp t2 / 1800000)%Z))
  /\ forall w, In w (groupByTimeWindow l) ->
       Win.project_slug w = Some ("terminal" : str)
       /\ Win.team_port w = Some 5400%Z
       /\ (forall cwd, reason (resolveProjectSlug w cwd) <> "transcript")
       /\ forall uuid,
            let cwd := extractCwdFromContent (Win.content w) in
            Processor.team_port (session_row w uuid)
            = match (if usable_cwd cwd
                     then Routing.team_port (parseRoutingFromCwd cwd)
                     else None) with
              | Some q => Some q
              | None => Some 5400%Z
              end
            /\ exists p, Processor.team_port (session_row w uuid) = Some p
                         /\ (4000 <= p <= 9999)%Z.
Proof.
  intros Hall. rewrite Forall_forall in Hall. split.
  - intros t1 t2 H1 H2.
    rewrite (same_window_same_key l t1 t2 H1 H2), <- same_half_hour.
    destruct (Hall _ H1) as (c1 & n1 & i1 & r1 & ->).
    destruct (Hall _ H2) as (c2 & n2 & i2 & r2 & ->).
    split.
    + intros E. apply same_key_port_start in E as (_ & _ & E). exact E.
    + intros E. apply agree_same_key. repeat split. exact E.
  - intros w Hw. apply window_in_group in Hw as (k & E).
    apply lookup_group in E as (t0 & rest & _ & -> & _ & _ & Hin).
    destruct (build_fields t0 rest) as (_ & _ & _ & _ & Fs & Fp & _).
    destruct (Hall _ Hin) as (c & n & i & r & ->).
    cbn [writeTerminalToRaw Raw.project_slug Raw.team_port or_null
         num_or_null truthy] in Fs, Fp.
    change (list_ascii_of_string "terminal") with ("terminal" : str) in Fs.
    split; [exact Fs|]. split; [exact Fp|].
    set (w := build (writeTerminalToRaw c n i r) rest) in *.
    assert (trusted_label w = None) as Et.
    { unfold trusted_label. rewrite Fs. reflexivity. }
    split.
    + intros cwd. unfold resolveProjectSlug. rewrite Et.
      unfold by_cwd_or_content.
      destruct (usable_cwd cwd);
        [destruct (or_null (Routing.project_slug (parseRoutingFromCwd cwd)));
           [simpl; discriminate|]|];
        destruct (by_content_reason w) as [-> | (pat & _ & ->)];
        simpl; discriminate.
    + intros uuid. cbv zeta. cbn [Processor.team_port session_row].
      rewrite Fp, (untrusted_port w _ Et). unfold num_or.
      destruct (usable_cwd (extractCwdFromContent (Win.content w)));
        [|split; [reflexivity | exists 5400%Z; split; [reflexivity | lia]]].
      destruct (Routing.team_port
                  (parseRoutingFromCwd (extractCwdFromContent (Win.content w))))
        as [q|] eqn:Eq;
        [|split; [reflexivity | exists 5400%Z; split; [reflexivity | lia]]].
      pose proof (routing_port_in_range _ q Eq) as Hr.
      unfold num_or_null.
      assert ((q =? 0)%Z = false) as -> by (apply Z.eqb_neq; lia).
      split; [reflexivity|]. exists q. auto.
Qed.

Lemma terminal_rows_by_time_witness :
  same_window terminal_batch
    (writeTerminalToRaw terminal_text 1000 1 1000)
    (writeTerminalToRaw "pwd" 2000 2 2000)
  /\ exists w, groupByTimeWindow terminal_batch = [w]
               /\ Processor.team_port (session_row w None) = Some 5401%Z.
Proof.
  assert (Forall terminal_row terminal_batch) as Hall.
  { repeat constructor; unfold terminal_row; eauto. }
  destruct (terminal_rows_by_time terminal_batch Hall) as [Hsame Hwin].
  split.
  - exact (proj2 (Hsame _ _ (or_introl eq_refl)
                    (or_intror (or_introl eq_refl))) eq_refl).
  - eexists. split; [reflexivity|].
    destruct (Hwin _ (or_introl eq_refl)) as (_ & _ & _ & Hport).
    exact (proj1 (Hport None)).
Defined.

End SlugFacts.

(** ** The project path of the log line *)

Module LoggingFacts.
Import Js Routing Logging Reading JsFacts.

Lemma replace_hyphens_no_hyphen (s : str) : ~ In hyphen (replace_hyphens s).
Proof.
  unfold replace_hyphens. intros H. apply in_map_iff in H as (c & E & _).
  destruct (Ascii.eqb c "-") eqn:Ec; [discriminate|].
  apply Ascii.eqb_neq in Ec. unfold hyphen in E. congruence.
Qed.

Lemma split_first (sep : ascii) (a b : str) :
  ~ In sep a -> split sep (a ++ sep :: b) = a :: split sep b.
Proof.
  induction a as [|c a IH]; intros H; simpl.
  - rewrite Ascii.eqb_refl. reflexivity.
  - assert (Ascii.eqb c sep = false) as ->.
    { apply Ascii.eqb_neq. intros ->. apply H. left. reflexivity. }
    rewrite IH; [reflexivity|]. intros Hin. apply H. right. exact Hin.
Qed.

Lemma split_whole (sep : ascii) (a : str) :
  ~ In sep a -> split sep a = [a].
Proof.
  induction a as [|c a IH]; intros H; simpl; [reflexivity|].
  assert (Ascii.eqb c sep = false) as ->.
  { apply Ascii.eqb_neq. intros ->. apply H. left. reflexivity. }
  rewrite IH; [reflexivity|]. intros Hin. apply H. right. exact Hin.
Qed.

Lemma split_not_nil (sep : ascii) (s : str) :
  exists piece pieces, split sep s = piece :: pieces.
Proof.
  induction s as [|c s (piece & pieces & IH)]; simpl; [eauto|].
  destruct (Ascii.eqb c sep); [eauto|]. rewrite IH. eauto.
Qed.

Lemma no_backslash_same (a : str) :
  ~ In "\"%char a -> replace_backslashes a = a.
Proof.
  intros H. unfold replace_backslashes. rewrite <- (map_id a) at 2.
  apply map_ext_in. intros x Hx. unfold is_backslash.
  destruct (Ascii.eqb x "\") eqn:E; [|reflexivity].
  apply Ascii.eqb_eq in E. subst. contradiction.
Qed.

(** X20.  The project path is never empty and holds no hyphen: every
    hyphen of the directory name has become a slash, and an absent or
    empty name, or one that starts with a separator, gives [unknown]. *)
Theorem extractProject_shape (sessionFile : option str) :
  extractProject sessionFile <> []
  /\ ~ In hyphen (extractProject sessionFile)
  /\ (forall sep file, (sep = "/"%char \/ sep = "\"%char) ->
        extractProject (Some (sep :: file)) = "unknown").
Proof.
  assert (("unknown" : str) <> [] /\ ~ In hyphen ("unknown" : str)) as Hu.
  { split; [discriminate|]. simpl. intros H.
    repeat (destruct H as [H | H]; [discriminate|]). exact H. }
  assert (forall x, or_str (Some (replace_hyphens x)) "unknown" <> []
                    /\ ~ In hyphen (or_str (Some (replace_hyphens x))
                                           "unknown")) as Hor.
  { intros x. unfold or_str.
    destruct (truthy (replace_hyphens x)) eqn:Et; [|exact Hu].
    split; [destruct (replace_hyphens x); discriminate|].
    apply replace_hyphens_no_hyphen. }
  split; [|split].
  - unfold extractProject. destruct sessionFile as [f|]; [|apply Hu].
    destruct (negb (truthy f)); [apply Hu | apply Hor].
  - unfold extractProject. destruct sessionFile as [f|]; [|apply Hu].
    destruct (negb (truthy f)); [apply Hu | apply Hor].
  - intros sep file Hsep. unfold extractProject. cbn [truthy negb].
    cbv zeta.
    assert (replace_backslashes (sep :: file)
            = "/"%char :: replace_backslashes file) as ->
      by (destruct Hsep as [-> | ->]; reflexivity).
    change ("/"%char :: replace_backslashes file)
      with ([] ++ "/"%char :: replace_backslashes file).
    rewrite split_first by (intros []).
    destruct (split_not_nil "/" (replace_backslashes file))
      as (piece & pieces & ->).
    reflexivity.
Qed.

(** X21.  The project path depends on the first directory alone: what
    follows the first separator, slash or backslash, does not matter.
    A directory name that starts with a capital and two hyphens is
    read as a drive, the other hyphens as slashes. *)
Theorem extractProject_first_directory (dir file : str) (sep : ascii) :
  ~ In "/"%char dir -> ~ In "\"%char dir ->
  (sep = "/"%char \/ sep = "\"%char) ->
  extractProject (Some (dir ++ sep :: file)) = extractProject (Some dir)
  /\ (forall l body, dir = l :: "--" ++ body -> is_upper l = true ->
        extractProject (Some dir) = l :: ":/" ++ replace_hyphens body).
Proof.
  intros Hs Hb Hsep.
  assert (forall d, d <> [] -> ~ In "/"%char d -> ~ In "\"%char d ->
            extractProject (Some d)
            = or_str (Some (replace_hyphens (drive_prefix d))) "unknown")
    as Hdir.
  { intros d Hne Hds Hdb. unfold extractProject.
    destruct d as [|c d]; [congruence|]. cbn [truthy negb]. cbv zeta.
    rewrite (no_backslash_same _ Hdb), (split_whole _ _ Hds). reflexivity. }
  split.
  - assert (extractProject (Some (dir ++ sep :: file))
            = or_str (Some (replace_hyphens (drive_prefix dir))) "unknown")
      as ->.
    { unfold extractProject.
      assert (truthy (dir ++ sep :: file) = true) as ->
        by (destruct dir; reflexivity).
      cbn [negb]. cbv zeta.
      assert (replace_backslashes (dir ++ sep :: file)
              = dir ++ "/"%char :: replace_backslashes file) as ->.
      { unfold replace_backslashes at 1. rewrite map_app.
        fold (replace_backslashes dir). rewrite (no_backslash_same _ Hb).
        destruct Hsep as [-> | ->]; reflexivity. }
      rewrite (split_first _ _ _ Hs).
      destruct (split_not_nil "/" (replace_backslashes file))
        as (piece & pieces & ->).
      reflexivity. }
    destruct dir as [|c dir]; [reflexivity|].
    symmetry. apply Hdir; [discriminate | exact Hs | exact Hb].
  - intros l body -> Hl.
    rewrite Hdir by (discriminate || assumption).
    assert (Ascii.eqb l "-" = false) as El.
    { apply Ascii.eqb_neq. intros ->. vm_compute in Hl. discriminate. }
    change ("--" ++ body) with (hyphen :: hyphen :: body).
    unfold drive_prefix. rewrite Hl.
    change (Ascii.eqb hyphen "-") with true. cbn [andb].
    unfold replace_hyphens. cbn [map]. rewrite El.
    reflexivity.
Qed.

Lemma extractProject_first_directory_witness :
  extractProject (Some ("C--Users-bob-proj\abc.jsonl" : str))
  = ("C:/Users/bob/proj" : str).
Proof.
  destruct (extractProject_first_directory "C--Users-bob-proj" "abc.jsonl"
              "\"%char) as [E1 E2].
  - simpl. intros H.
    repeat (destruct H as [H | H]; [discriminate|]). exact H.
  - simpl. intros H.
    repeat (destruct H as [H | H]; [discriminate|]). exact H.
  - right. reflexivity.
  - exact (eq_trans E1 (E2 "C"%char "Users-bob-proj" eq_refl eq_refl)).
Defined.

End LoggingFacts.

(** ** The rows a pass inserts *)

Module RowFacts.
Import Js Routing Resolver Aggregator Processor Windows Turn Reading Samples.
Import MoreSamples.
Import JsFacts AggregatorFacts ProcessorFacts WindowFacts PassFacts.

Lemma turn_insert (db : store) (st : state) (w : Win.t) :
  inserted_rows (calls (processWindow db st w))
  = inserted_rows (calls st)
    ++ (if (List.length (Win.content w) <? 100)%nat then []
        else [snd (insert_attempt db (calls st) w)]).
Proof.
  destruct (insert_attempt_shape db (calls st) w) as (sel & uuid & Ea & _ & Hi).
  destruct (processWindow_outcome db st w) as [Hs | ok Hl _ | e Hl _ _];
    cbn [calls].
  - apply Nat.ltb_lt in Hs. rewrite Hs, inserted_rows_app,
      inserted_rows_updates. reflexivity.
  - apply Nat.ltb_ge in Hl. rewrite Hl, Ea. cbn [fst snd].
    change (?a ++ ?x :: ?b) with (a ++ [x] ++ b).
    rewrite !inserted_rows_app, inserted_rows_updates, Hi. simpl.
    rewrite !app_nil_r. reflexivity.
  - apply Nat.ltb_ge in Hl. rewrite Hl, Ea. cbn [fst snd].
    rewrite !inserted_rows_app, Hi. simpl. rewrite !app_nil_r. reflexivity.
Qed.

Lemma loop_inserts (db : store) (ws : list Win.t) (st : state)
    (row : AISession) :
  In row (inserted_rows (calls (processWindows db ws st))) ->
  In row (inserted_rows (calls st))
  \/ exists w cs, In w ws
       /\ (List.length (Win.content w) <? 100)%nat = false
       /\ row = snd (insert_attempt db cs w).
Proof.
  unfold processWindows.
  revert st; induction ws as [|w ws IH]; intros st; simpl; [auto|].
  intros H. apply IH in H as [H | (w' & cs & Hw' & Hl & E)].
  - rewrite turn_insert in H. apply in_app_or in H as [H | H]; [auto|].
    right. destruct (List.length (Win.content w) <? 100)%nat eqn:El;
      [destruct H|].
    destruct H as [<- | []]. exists w, (calls st). auto.
  - right. exists w', cs. auto.
Qed.

Lemma inserted_In (cs : list call) (row : AISession) :
  In (InsertSession row) cs <-> In row (inserted_rows cs).
Proof.
  unfold inserted_rows. rewrite in_flat_map. split.
  - intros H. exists (InsertSession row). split; [exact H | left; reflexivity].
  - intros (c & Hc & Hin). destruct c; simpl in Hin; try contradiction.
    destruct Hin as [<- | []]. exact Hc.
Qed.

(** The inserts of a pass are made for windows of the fetched batch
    that are not short. *)
Lemma pass_inserts (db : store) (row : AISession) :
  In (InsertSession row) (snd (processTranscripts db)) ->
  exists batch w cs,
    fetch_data (fetch_unprocessed db) = Some batch
    /\ In w (groupByTimeWindow batch)
    /\ (List.length (Win.content w) <? 100)%nat = false
    /\ row = snd (insert_attempt db cs w).
Proof.
  unfold processTranscripts.
  destruct (fetch_error (fetch_unprocessed db)).
  { simpl. intros [H | []]. discriminate. }
  destruct (fetch_data (fetch_unprocessed db)) as [[|t batch]|].
  - simpl. intros [H | []]. discriminate.
  - cbn [snd]. intros H. apply inserted_In in H.
    apply loop_inserts in H as [H | (w & cs & Hw & Hl & E)].
    + simpl in H. destruct H.
    + exists (t :: batch), w, cs. auto.
  - simpl. intros [H | []]. discriminate.
Qed.

(** X22.  Every row a pass inserts has the status [active], the same
    value as project id and project uuid, a content of at least 100
    units, a start that is a multiple of 1800000, a message count of at
    least 2 and a source type that is not empty. *)
Theorem inserted_row_invariant (db : store) (row : AISession) :
  In (InsertSession row) (snd (processTranscripts db)) ->
  status row = "active"
  /\ project_id row = project_uuid row
  /\ (100 <= List.length (raw_content row))%nat
  /\ (started_at row mod 1800000 = 0)%Z
  /\ (2 <= message_count row)%nat
  /\ source_type row <> [].
Proof.
  intros H. apply pass_inserts in H as (batch & w & cs & _ & Hw & Hl & ->).
  destruct (insert_attempt_shape db cs w) as (sel & uuid & -> & _).
  cbn [snd session_row status project_id project_uuid raw_content
       started_at message_count source_type].
  apply Nat.ltb_ge in Hl.
  apply window_in_group in Hw as (k & E).
  apply lookup_group in E as (t0 & rest & _ & -> & _).
  destruct (build_fields t0 rest) as (Fs & Ft & _ & _ & _ & _ & _ & Fc).
  destruct (pieces_measure (t0 :: rest)) as [_ Hn].
  repeat split; auto.
  - rewrite Fs. apply (window_start_bounds (timestamp t0)).
  - rewrite Fc, Hn. simpl. lia.
  - unfold or_str. destruct (truthy (Win.source_type (build t0 rest))) eqn:Et.
    + destruct (Win.source_type (build t0 rest)); discriminate.
    + discriminate.
Qed.

Lemma inserted_row_invariant_witness :
  exists row, In (InsertSession row) (snd (processTranscripts db_dup))
              /\ status row = "active".
Proof.
  eexists. split.
  - right. right. left. reflexivity.
  - exact (proj1 (inserted_row_invariant db_dup _
                    (or_intror (or_intror (or_introl eq_refl))))).
Defined.

(** The lookups that precede the insert of a window, and the project id
    that the row takes from them. *)
Lemma insert_attempt_lookups (db : store) (cs : list call) (w : Win.t) :
  let row := snd (insert_attempt db cs w) in
  let s := Processor.project_slug row in
  let first := select_project db cs s in
  let second :=
    select_project db (cs ++ [SelectProject s]) (SlugStr "unassigned") in
  project_uuid row = project_id row
  /\ ((exists id,
         select_error first = None /\ data_id first = Some id /\ id <> []
         /\ project_id row = Some id
         /\ fst (insert_attempt db cs w) = cs ++ [SelectProject s])
      \/ ((select_error first <> None \/ data_id first = None
           \/ data_id first = Some [])
          /\ project_id row
             = match select_error second, data_id second with
               | None, Some (c :: id) => Some (c :: id)
               | _, _ => None
               end
          /\ fst (insert_attempt db cs w)
             = cs ++ [SelectProject s; SelectProject (SlugStr "unassigned")])).
Proof.
  cbv zeta.
  assert (forall uuid, Processor.project_slug (session_row w uuid)
                       = slug (resolveProjectSlug w
                                 (extractCwdFromContent (Win.content w))))
    as Hslug by reflexivity.
  unfold insert_attempt, resolve_uuid, select_id.
  set (s := slug _) in *.
  destruct (select_error (select_project db cs s)) as [e|] eqn:Ee.
  - cbn [fst snd]. rewrite Hslug, Ee.
    split; [reflexivity|]. right.
    split; [left; discriminate|].
    rewrite <- app_assoc. split; [|reflexivity].
    cbn [project_id session_row].
    destruct (select_error (select_project db (cs ++ [SelectProject s])
                              (SlugStr "unassigned"))); [reflexivity|].
    destruct (data_id (select_project db (cs ++ [SelectProject s])
                         (SlugStr "unassigned"))) as [[|c id]|]; reflexivity.
  - destruct (data_id (select_project db cs s)) as [[|c id]|] eqn:Ed;
      cbn [or_null truthy fst snd]; rewrite Hslug, Ee, Ed;
      (split; [reflexivity|]).
    + right. split; [auto|]. rewrite <- app_assoc. split; [|reflexivity].
      cbn [project_id session_row].
      destruct (select_error (select_project db (cs ++ [SelectProject s])
                                (SlugStr "unassigned"))); [reflexivity|].
      destruct (data_id (select_project db (cs ++ [SelectProject s])
                           (SlugStr "unassigned"))) as [[|c id]|]; reflexivity.
    + left. exists (c :: id). repeat split. discriminate.
    + right. split; [auto|]. rewrite <- app_assoc. split; [|reflexivity].
      cbn [project_id session_row].
      destruct (select_error (select_project db (cs ++ [SelectProject s])
                                (SlugStr "unassigned"))); [reflexivity|].
      destruct (data_id (select_project db (cs ++ [SelectProject s])
                           (SlugStr "unassigned"))) as [[|c id]|]; reflexivity.
Qed.

(** An insert among the calls of the loop is the insert of one of the
    windows, made right after the lookups of that window. *)
Lemma loop_insert_trace (db : store) (ws : list Win.t) (st : state)
    (row : AISession) :
  In (InsertSession row) (calls (processWindows db ws st)) ->
  In (InsertSession row) (calls st)
  \/ exists w cs post,
       In w ws /\ row = snd (insert_attempt db cs w)
       /\ calls (processWindows db ws st)
          = fst (insert_attempt db cs w) ++ InsertSession row :: post.
Proof.
  revert st; induction ws as [|w ws IH]; intros st; [left; assumption|].
  change (processWindows db (w :: ws) st)
    with (processWindows db ws (processWindow db st w)).
  intros H. apply IH in H as [H | (w' & cs & post & Hw' & E & Ec)].
  - destruct (processWindows_grows db ws (processWindow db st w))
      as ((added & Eadd & _) & _).
    destruct (insert_attempt_shape db (calls st) w)
      as (sel & uuid & Ea & _ & Hsel).
    assert (~ In (InsertSession row) sel) as Hnot.
    { intros Hin. apply inserted_In in Hin. rewrite Hsel in Hin.
      destruct Hin. }
    assert (forall ids, ~ In (InsertSession row) (map UpdateProcessed ids))
      as Hupd.
    { intros ids Hin. apply in_map_iff in Hin as (i & Hi & _).
      discriminate. }
    revert H Eadd.
    destruct (processWindow_outcome db st w) as [Hs | ok Hl _ | e Hl _ _];
      cbn [calls]; intros H Eadd.
    + apply in_app_or in H as [H | H]; [left; exact H|].
      exfalso. exact (Hupd _ H).
    + apply in_app_or in H as [H | [H | H]].
      * rewrite Ea in H. cbn [fst] in H.
        apply in_app_or in H as [H | H]; [left; exact H|].
        exfalso. exact (Hnot H).
      * right. injection H as <-. exists w, (calls st). eexists.
        split; [left; reflexivity|]. split; [reflexivity|].
        rewrite Eadd, <- app_assoc. reflexivity.
      * exfalso. exact (Hupd _ H).
    + apply in_app_or in H as [H | [H | []]].
      * rewrite Ea in H. cbn [fst] in H.
        apply in_app_or in H as [H | H]; [left; exact H|].
        exfalso. exact (Hnot H).
      * right. injection H as <-. exists w, (calls st). eexists.
        split; [left; reflexivity|]. split; [reflexivity|].
        rewrite Eadd, <- app_assoc. reflexivity.
  - right. exists w', cs, post. split; [right; exact Hw'|]. auto.
Qed.

Lemma pass_insert_trace (db : store) (row : AISession) :
  In (InsertSession row) (snd (processTranscripts db)) ->
  exists w cs post,
    row = snd (insert_attempt db cs w)
    /\ snd (processTranscripts db)
       = fst (insert_attempt db cs w) ++ InsertSession row :: post.
Proof.
  unfold processTranscripts.
  destruct (fetch_error (fetch_unprocessed db)).
  { simpl. intros [H | []]. discriminate. }
  destruct (fetch_data (fetch_unprocessed db)) as [[|t batch]|].
  - simpl. intros [H | []]. discriminate.
  - cbn [snd]. intros H.
    apply loop_insert_trace in H as [H | (w & cs & post & _ & E & Ec)].
    + simpl in H. destruct H as [H | []]. discriminate.
    + exists w, cs, post. auto.
  - simpl. intros [H | []]. discriminate.
Qed.

(** X23.  The project id of every row a pass inserts is the id that the
    store gave for the slug of this very row, in the lookup made right
    before the insert, when that lookup answered without error and with
    an id that is not empty; otherwise it is the id given for
    [unassigned] in a second lookup made in between.  So when the store
    always finds [unassigned], every inserted row has a project id, and
    its project uuid is the same. *)
Theorem inserted_row_has_project (db : store) (row : AISession) :
  (forall cs, select_error (select_project db cs (SlugStr "unassigned")) = None
              /\ exists id, data_id (select_project db cs (SlugStr "unassigned"))
                            = Some id /\ id <> []) ->
  In (InsertSession row) (snd (processTranscripts db)) ->
  exists pre post,
    let s := Processor.project_slug row in
    let first := select_project db pre s in
    let second :=
      select_project db (pre ++ [SelectProject s]) (SlugStr "unassigned") in
    project_uuid row = project_id row
    /\ ((exists id,
           select_error first = None /\ data_id first = Some id /\ id <> []
           /\ project_id row = Some id
           /\ snd (processTranscripts db)
              = pre ++ SelectProject s :: InsertSession row :: post)
        \/ ((select_error first <> None \/ data_id first = None
             \/ data_id first = Some [])
            /\ exists id,
                 data_id second = Some id /\ id <> []
                 /\ project_id row = Some id
                 /\ snd (processTranscripts db)
                    = pre ++ SelectProject s
                      :: SelectProject (SlugStr "unassigned")
                      :: InsertSession row :: post)).
Proof.
  intros Hdb H. apply pass_insert_trace in H as (w & cs & post & E & Ec).
  exists cs, post. cbv zeta.
  pose proof (insert_attempt_lookups db cs w) as Hl. cbv zeta in Hl.
  rewrite <- E in Hl. destruct Hl as (Hu & [(id & E1 & E2 & Hid & Ep & Ef)
                                          | (Hmiss & Ep & Ef)]).
  - split; [exact Hu|]. left. exists id. repeat (split; [assumption|]).
    rewrite Ec, Ef, <- app_assoc. reflexivity.
  - split; [exact Hu|]. right. split; [exact Hmiss|].
    destruct (Hdb (cs ++ [SelectProject (Processor.project_slug row)]))
      as (Ee & id & Ed & Hid).
    rewrite Ee, Ed in Ep. exists id. split; [exact Ed|]. split; [exact Hid|].
    split; [destruct id; [congruence | exact Ep]|].
    rewrite Ec, Ef, <- app_assoc. reflexivity.
Qed.

Lemma inserted_row_has_project_witness :
  exists row, In (InsertSession row) (snd (processTranscripts db_projects))
              /\ Processor.project_slug row = SlugStr "ai-chad-5401"
              /\ project_id row = Some ("p-chad" : str).
Proof.
  assert (forall cs,
             select_error (select_project db_projects cs (SlugStr "unassigned"))
             = None
             /\ exists id,
                 data_id (select_project db_projects cs (SlugStr "unassigned"))
                 = Some id /\ id <> []) as Hdb.
  { intros cs. split; [reflexivity|]. exists ("p-none" : str).
    split; [reflexivity | discriminate]. }
  assert (In (InsertSession (snd (insert_attempt db_projects [FetchUnprocessed]
                                    (build row_long []))))
             (snd (processTranscripts db_projects))) as Hin
    by (right; right; left; reflexivity).
  destruct (inserted_row_has_project db_projects _ Hdb Hin)
    as (pre & post & _ & [(id & _ & Ed & _ & Ep & _) | (Hmiss & _)]).
  - eexists. split; [exact Hin|]. split; [reflexivity|].
    injection Ed as <-. exact Ep.
  - exfalso. destruct Hmiss as [Hm | [Hm | Hm]];
      [apply Hm; reflexivity | discriminate Hm | discriminate Hm].
Defined.

End RowFacts.

(** * The program without the two assumptions *)

(** ** Windows of rows whose dates may not parse *)

Module DatedGroupFacts.
Import Js Aggregator Windows Samples JsFacts AggregatorFacts WindowFacts.
Import Dated DatedSamples.

Lemma time_to_str_no_colon (ts : Clock.time) :
  ~ In colon (Clock.time_to_str ts).
Proof.
  destruct ts as [n|]; simpl; [apply num_to_str_no_colon|].
  intros H. repeat (destruct H as [H | H]; [discriminate|]). exact H.
Qed.

Lemma num_to_str_parses (n : Z) :
  NilZero.int_of_string (string_of_list_ascii (num_to_str n))
  = Some (Z.to_int n).
Proof.
  unfold num_to_str. rewrite string_of_list_ascii_of_string.
  apply NilZero.isi; destruct n; simpl; try discriminate;
    intros [= H]; eapply Unsigned.to_uint_nonnil; eauto.
Qed.

Lemma time_to_str_inj (a b : Clock.time) :
  Clock.time_to_str a = Clock.time_to_str b -> a = b.
Proof.
  destruct a as [x|], b as [y|]; simpl; intros E.
  - f_equal. apply num_to_str_inj. exact E.
  - apply (f_equal string_of_list_ascii) in E.
    apply (f_equal NilZero.int_of_string) in E.
    rewrite num_to_str_parses in E. discriminate.
  - apply (f_equal string_of_list_ascii) in E.
    apply (f_equal NilZero.int_of_string) in E.
    rewrite num_to_str_parses in E. discriminate.
  - reflexivity.
Qed.

(** The start of the window can be read back from the key, NaN
    included. *)
Lemma dated_key_start (t1 t2 : Entry.t) :
  window_key t1 = window_key t2 ->
  Clock.window_start (timestamp t1) = Clock.window_start (timestamp t2).
Proof.
  assert (forall t, window_key t
            = ((sourceType t ++ colon :: sourceName t)
               ++ colon :: num_to_str (teamPort t))
              ++ colon :: Clock.time_to_str (Clock.window_start (timestamp t)))
    as Hk.
  { intros t. unfold window_key. simpl.
    repeat (rewrite <- app_assoc; simpl). reflexivity. }
  rewrite !Hk. intros E.
  apply split_at_last_colon in E as [_ Ew]; try apply time_to_str_no_colon.
  apply time_to_str_inj. exact Ew.
Qed.

Lemma span_update_present (k : str) (f : Span.t -> Span.t) (ws : windows)
    (w : Span.t) :
  lookup k ws = Some w ->
  exists ws1 ws2, ws = ws1 ++ (k, w) :: ws2
                  /\ update k f ws = ws1 ++ (k, f w) :: ws2.
Proof.
  induction ws as [|[k' w'] ws IH]; simpl; [discriminate|].
  destruct (str_eqb k k') eqn:E.
  - apply str_eqb_eq in E. subst k'. intros [= ->].
    exists [], ws. auto.
  - intros H. destruct (IH H) as (ws1 & ws2 & -> & ->).
    exists ((k', w') :: ws1), ws2. auto.
Qed.

Lemma span_update_new (k : str) (f : Span.t -> Span.t) (ws : windows)
    (w : Span.t) :
  lookup k ws = None -> update k f (ws ++ [(k, w)]) = ws ++ [(k, f w)].
Proof.
  induction ws as [|[k' w'] ws IH]; simpl.
  - rewrite str_eqb_refl. reflexivity.
  - destruct (str_eqb k k'); [discriminate|].
    intros H. rewrite (IH H). reflexivity.
Qed.

(** One turn of the loop: the row is pushed on the window of its key, or
    on a new window put last. *)
Lemma add_record_cases (ws : windows) (t : Entry.t) :
  (exists ws1 w ws2,
      ws = ws1 ++ (window_key t, w) :: ws2
      /\ add_record ws t = ws1 ++ (window_key t, push w t) :: ws2)
  \/ add_record ws t = ws ++ [(window_key t, push (fresh t) t)].
Proof.
  unfold add_record. destruct (lookup (window_key t) ws) as [w|] eqn:E.
  - left.
    destruct (span_update_present _ (fun w => push w t) _ _ E)
      as (ws1 & ws2 & E1 & E2).
    exists ws1, w, ws2. auto.
  - right. apply span_update_new. exact E.
Qed.

Lemma half_hour (ts : Z) :
  Aggregator.window_start ts = (ts / 1800000 * 1800000)%Z
  /\ (ts / 1800000 * 1800000 <= ts < ts / 1800000 * 1800000 + 1800000)%Z.
Proof.
  split; [reflexivity|].
  pose proof (Z.div_mod ts 1800000 ltac:(lia)).
  pose proof (Z.mod_pos_bound ts 1800000 ltac:(lia)).
  lia.
Qed.

Lemma timed_fresh (t : Entry.t) : timed (push (fresh t) t) t.
Proof.
  unfold timed. cbn [push fresh Span.windowStart Span.earliest_ts
                     Span.latest_ts].
  destruct (timestamp t) as [ts|]; cbn [Clock.window_start Clock.min Clock.max];
    [|auto].
  destruct (half_hour ts) as [E H].
  exists (ts / 1800000 * 1800000)%Z, (Z.min ts ts), (Z.max ts ts).
  rewrite E. repeat split; lia.
Qed.

(** Pushing a row on the window of a row with the same key keeps the
    times of that row, and gives the new row its own. *)
Lemma timed_push (w : Span.t) (t0 t : Entry.t) :
  window_key t0 = window_key t -> timed w t0 ->
  timed (push w t) t0 /\ timed (push w t) t.
Proof.
  intros Ek H0. apply dated_key_start in Ek. revert H0 Ek. unfold timed.
  cbn [push Span.windowStart Span.earliest_ts Span.latest_ts].
  destruct (timestamp t0) as [ts0|], (timestamp t) as [ts|];
    cbn [Clock.window_start]; try discriminate.
  - intros (s & e & m & -> & -> & -> & Hs & He & Hm) [= Ew].
    destruct (half_hour ts0) as [E0 B0]. destruct (half_hour ts) as [E1 B1].
    rewrite E0, E1 in Ew. cbn [Clock.min Clock.max].
    split; exists s, (Z.min e ts), (Z.max m ts); repeat split; lia.
  - intros (-> & -> & ->) _. auto.
Qed.

Lemma filed_push (k : str) (w : Span.t) (t : Entry.t) :
  window_key t = k -> filed (k, w) -> filed (k, push w t).
Proof.
  intros Ek [Hne Hall]. unfold filed. cbn [fst snd] in *. split.
  - cbn [push Span.transcripts]. destruct (Span.transcripts w); discriminate.
  - destruct (Span.transcripts w) as [|t0 rest] eqn:Etr; [congruence|].
    destruct (Hall t0 (or_introl eq_refl)) as [Ek0 H0].
    intros t'. cbn [push Span.transcripts]. rewrite Etr.
    intros Hin. apply in_app_or in Hin as [Hin | [<- | []]].
    + destruct (Hall t' Hin) as [Ek' H']. split; [exact Ek'|].
      apply (timed_push w t' t); congruence.
    + split; [exact Ek|]. apply (timed_push w t0 t); congruence.
Qed.

Lemma filed_fresh (t : Entry.t) : filed (window_key t, push (fresh t) t).
Proof.
  unfold filed. split; cbn [fst snd push fresh Span.transcripts app];
    [discriminate|].
  intros t' [<- | []]. split; [reflexivity | apply timed_fresh].
Qed.

Lemma add_record_filed (ws : windows) (t : Entry.t) :
  Forall filed ws -> Forall filed (add_record ws t).
Proof.
  intros H.
  destruct (add_record_cases ws t) as [(ws1 & w & ws2 & -> & ->) | ->].
  - apply Forall_app in H as [H1 H2]. apply Forall_app. split; [exact H1|].
    inversion H2 as [|? ? Hw H3]; subst. constructor; [|exact H3].
    apply filed_push; [reflexivity | exact Hw].
  - apply Forall_app. split; [exact H|].
    constructor; [apply filed_fresh | constructor].
Qed.

Lemma group_entries_filed (l : list Entry.t) : Forall filed (group_entries l).
Proof.
  unfold group_entries.
  induction l as [|t l IH] using rev_ind; [constructor|].
  rewrite fold_left_app. apply add_record_filed. exact IH.
Qed.

Lemma span_in_group (l : list Entry.t) (w : Span.t) :
  In w (groupByTimeWindow l) -> exists k, filed (k, w).
Proof.
  unfold groupByTimeWindow. intros H.
  apply in_map_iff in H as ([k w'] & E & Hin). simpl in E. subst w'.
  exists k. pose proof (group_entries_filed l) as Hall.
  rewrite Forall_forall in Hall. apply Hall. exact Hin.
Qed.

Lemma all_entries_app (a b : list Span.t) :
  all_entries (a ++ b) = all_entries a ++ all_entries b.
Proof. unfold all_entries. rewrite map_app, concat_app. reflexivity. Qed.

Lemma all_entries_cons (w : Span.t) (ws : list Span.t) :
  all_entries (w :: ws) = Span.transcripts w ++ all_entries ws.
Proof. reflexivity. Qed.

Lemma add_record_entries (ws : windows) (t : Entry.t) :
  Permutation (all_entries (map snd (add_record ws t)))
              (all_entries (map snd ws) ++ [t]).
Proof.
  destruct (add_record_cases ws t) as [(ws1 & w & ws2 & -> & ->) | ->].
  - rewrite !map_app. cbn [map snd].
    rewrite !all_entries_app, !all_entries_cons. cbn [push Span.transcripts].
    rewrite <- !app_assoc. do 2 apply Permutation_app_head.
    apply (Permutation_app_comm [t]).
  - rewrite map_app, all_entries_app. cbn [map snd].
    rewrite all_entries_cons. cbn [push fresh Span.transcripts app].
    apply Permutation_refl.
Qed.

(** The members of the windows are the rows of the batch. *)
Lemma entries_permutation (l : list Entry.t) :
  Permutation (all_entries (groupByTimeWindow l)) l.
Proof.
  unfold groupByTimeWindow, group_entries.
  induction l as [|t l IH] using rev_ind; [apply Permutation_refl|].
  rewrite fold_left_app. simpl.
  eapply Permutation_trans; [apply add_record_entries|].
  apply Permutation_app_tail. exact IH.
Qed.

(** X3.  The times of a window, whatever the stored dates.  The
    timestamp of a row is read from its original timestamp when it has
    one, and from its time of reception otherwise.  For a member whose
    date parses, the start of its window is the half hour of its
    timestamp, a multiple of 1800000; the earliest and latest times lie
    in that half hour, on either side of the timestamp; and the dates of
    all members of the window parse, to timestamps between the earliest
    and the latest.  For a member whose date does not parse, the start,
    the earliest and the latest time of its window are NaN, and no member
    of the window has a date that parses. *)
Theorem window_time_bounds (l : list Entry.t) (w : Span.t) (t : Entry.t) :
  In w (groupByTimeWindow l) -> In t (Span.transcripts w) ->
  timestamp t = match Entry.original_timestamp t with
                | Some ts => ts
                | None => Entry.received_at t
                end
  /\ match timestamp t with
     | Some ts =>
         exists s e m,
           Span.windowStart w = Some s
           /\ Span.earliest_ts w = Some e
           /\ Span.latest_ts w = Some m
           /\ s = (ts / 1800000 * 1800000)%Z
           /\ (s mod 1800000 = 0)%Z
           /\ (s <= e <= ts)%Z /\ (ts <= m < s + 1800000)%Z
           /\ forall t', In t' (Span.transcripts w) ->
                exists ts', timestamp t' = Some ts' /\ (e <= ts' <= m)%Z
     | None =>
         Span.windowStart w = None
         /\ Span.earliest_ts w = None
         /\ Span.latest_ts w = None
         /\ forall t', In t' (Span.transcripts w) -> timestamp t' = None
     end.
Proof.
  intros Hw Ht. split; [reflexivity|].
  apply span_in_group in Hw as (k & _ & Hmem).
  cbn [fst snd] in Hmem.
  destruct (Hmem t Ht) as [_ Htimed]. unfold timed in Htimed.
  destruct (timestamp t) as [ts|].
  - destruct Htimed as (s & e & m & Es & Ee & Em & Hs & He & Hm).
    exists s, e, m. repeat (split; [assumption|]).
    split; [rewrite Hs; apply Z_mod_mult|].
    split; [exact He|]. split; [exact Hm|].
    intros t' Ht'. destruct (Hmem t' Ht') as [_ H']. unfold timed in H'.
    destruct (timestamp t') as [ts'|].
    + destruct H' as (s' & e' & m' & _ & Ee' & Em' & _ & He' & Hm').
      exists ts'. split; [reflexivity|].
      assert (e' = e) by congruence. assert (m' = m) by congruence. lia.
    + destruct H' as (Es' & _). congruence.
  - destruct Htimed as (Es & Ee & Em). repeat (split; [assumption|]).
    intros t' Ht'. destruct (Hmem t' Ht') as [_ H']. unfold timed in H'.
    destruct (timestamp t') as [ts'|]; [|reflexivity].
    destruct H' as (s' & e' & m' & Es' & _). congruence.
Qed.

Lemma window_time_bounds_witness :
  exists w, In w (groupByTimeWindow [entry_long; entry_short; entry_late])
            /\ Span.transcripts w = [entry_short; entry_late]
            /\ Span.windowStart w = Some 0%Z
            /\ exists e m, Span.earliest_ts w = Some e
                           /\ Span.latest_ts w = Some m
                           /\ (0 <= e <= 5000)%Z /\ (5000 <= m < 1800000)%Z.
Proof.
  eexists. split; [right; left; reflexivity|]. split; [reflexivity|].
  destruct (window_time_bounds [entry_long; entry_short; entry_late] _
              entry_short (or_intror (or_introl eq_refl))
              (or_introl eq_refl))
    as (_ & s & e & m & Es & Ee & Em & Hs & _ & He & Hm & _).
  change (5000 / 1800000 * 1800000)%Z with 0%Z in Hs. subst s.
  split; [exact Es|]. exists e, m. auto.
Defined.

(** The same batch, on the window of the row whose date does not parse:
    its three times are NaN. *)
Lemma undated_window_times :
  exists w, In w (groupByTimeWindow [entry_long; entry_short; entry_late])
            /\ Span.transcripts w = [entry_long]
            /\ Span.windowStart w = None
            /\ Span.earliest_ts w = None /\ Span.latest_ts w = None.
Proof.
  eexists. split; [left; reflexivity|]. repeat split.
Qed.

End DatedGroupFacts.

(** ** The pass over such rows and a store that may reject *)

Module DatedPassFacts.
Import Js Routing Resolver Aggregator Processor Windows Reading Samples.
Import JsFacts AggregatorFacts WindowFacts PassFacts.
Import Dated DatedSamples DatedGroupFacts.

Lemma updated_ids_inserts (rows : list AISession) :
  updated_ids (map InsertSession rows) = [].
Proof. induction rows as [|r rows IH]; simpl; auto. Qed.

Lemma inserted_rows_inserts (rows : list AISession) :
  inserted_rows (map InsertSession rows) = rows.
Proof. induction rows as [|r rows IH]; simpl; congruence. Qed.

Lemma mark_cons (db : store) (i : Z) (ids : list Z) (cs : list call) :
  markTranscriptsProcessed db (i :: ids) cs
  = match update_processed db cs i with
    | Answered _ => markTranscriptsProcessed db ids (cs ++ [UpdateProcessed i])
    | Rejected => (cs ++ [UpdateProcessed i], None)
    end.
Proof.
  cbn [markTranscriptsProcessed]. unfold bind, await.
  destruct (update_processed db cs i); reflexivity.
Qed.

(** The updates are issued in order, up to the first that is
    rejected. *)
Lemma mark_run (db : store) (ids : list Z) (cs : list call) :
  exists k,
    (k <= List.length ids)%nat
    /\ fst (markTranscriptsProcessed db ids cs)
       = cs ++ map UpdateProcessed (firstn k ids)
    /\ (snd (markTranscriptsProcessed db ids cs) <> None ->
        k = List.length ids)
    /\ ((forall cs i, update_processed db cs i <> Rejected) ->
        snd (markTranscriptsProcessed db ids cs) <> None).
Proof.
  revert cs; induction ids as [|i ids IH]; intros cs.
  - exists 0%nat. simpl. rewrite app_nil_r.
    repeat split; auto; discriminate.
  - rewrite mark_cons.
    destruct (update_processed db cs i) as [u|] eqn:E.
    + destruct (IH (cs ++ [UpdateProcessed i])) as (k & Hk & Ef & Hs & Ha).
      exists (S k). cbn [firstn map List.length].
      rewrite Ef, <- app_assoc.
      split; [lia|]. split; [reflexivity|]. split; [|exact Ha].
      intros H. rewrite (Hs H). reflexivity.
    + exists 1%nat. cbn [firstn map List.length fst snd].
      split; [lia|]. split; [reflexivity|].
      split; [congruence|]. intros H. exfalso. exact (H cs i E).
Qed.

(** The lookups of a project id: one or two selects, nothing else. *)
Lemma resolve_uuid_run (db : store) (s : slug_value) (cs : list call) :
  exists sel,
    fst (resolve_uuid db s cs) = cs ++ sel
    /\ updated_ids sel = [] /\ inserted_rows sel = []
    /\ ((forall cs s, select_project db cs s <> Rejected) ->
        snd (resolve_uuid db s cs) <> None).
Proof.
  unfold resolve_uuid, select_id, bind, await, ret.
  destruct (select_project db cs s) as [a|] eqn:E1.
  - destruct (match select_error a with
              | Some _ => None
              | None => or_null (data_id a)
              end) as [uuid|].
    + exists [SelectProject s]. repeat split; auto. discriminate.
    + destruct (select_project db (cs ++ [SelectProject s])
                  (SlugStr "unassigned")) as [b|] eqn:E2.
      * exists [SelectProject s; SelectProject (SlugStr "unassigned")].
        rewrite <- app_assoc. repeat split; auto. discriminate.
      * exists [SelectProject s; SelectProject (SlugStr "unassigned")].
        rewrite <- app_assoc. repeat split; auto.
        intros H. exfalso. exact (H _ _ E2).
  - exists [SelectProject s]. repeat split; auto.
    intros H. exfalso. exact (H _ _ E1).
Qed.

(** The members are marked and counted, or the marking is cut short by
    a rejected update. *)
Lemma finish_run (db : store) (w : Span.t) (session : bool) (cs : list call) :
  exists k,
    (k <= List.length (Span.transcripts w))%nat
    /\ fst ((_ <- markTranscriptsProcessed db (member_ids w) ;;
             ret (Consumed session)) cs)
       = cs ++ map UpdateProcessed (firstn k (member_ids w))
    /\ (snd ((_ <- markTranscriptsProcessed db (member_ids w) ;;
              ret (Consumed session)) cs) = Some (Consumed session)
        /\ k = List.length (Span.transcripts w)
        \/ snd ((_ <- markTranscriptsProcessed db (member_ids w) ;;
                 ret (Consumed session)) cs) = None
           /\ ~ (forall cs i, update_processed db cs i <> Rejected)).
Proof.
  destruct (mark_run db (member_ids w) cs) as (k & Hk & Ef & Hs & Ha).
  assert (List.length (member_ids w) = List.length (Span.transcripts w))
    as El by (unfold member_ids; apply length_map).
  rewrite El in Hk, Hs.
  exists k. split; [exact Hk|]. unfold bind, ret.
  destruct (markTranscriptsProcessed db (member_ids w) cs) as [cs1 [u|]];
    cbn [fst snd] in *.
  - split; [exact Ef|]. left. split; [reflexivity|]. apply Hs. discriminate.
  - split; [exact Ef|]. right. split; [reflexivity|].
    intros H. apply (Ha H). reflexivity.
Qed.

Lemma turn_short (db : store) (w : Span.t) (cs : list call) :
  (List.length (Span.content w) <? 100)%nat = true ->
  turn db w cs
  = (_ <- markTranscriptsProcessed db (member_ids w) ;;
     ret (Consumed false)) cs.
Proof. intros H. unfold turn. cbv zeta. rewrite H. reflexivity. Qed.

Lemma turn_long (db : store) (w : Span.t) (cs : list call) :
  (List.length (Span.content w) <? 100)%nat = false ->
  turn db w cs
  = match resolve_uuid db
            (slug (resolveProjectSlug (to_win w)
                     (extractCwdFromContent (Span.content w)))) cs with
    | (cs1, None) => (cs1, None)
    | (cs1, Some uuid) =>
        match session_row w uuid cs1 with
        | (cs2, None) => (cs2, None)
        | (cs2, Some row) =>
            match insert_session db cs2 row with
            | Rejected => (cs2 ++ [InsertSession row], None)
            | Answered (Some e) =>
                if is_duplicate_key e
                then (_ <- markTranscriptsProcessed db (member_ids w) ;;
                      ret (Consumed true)) (cs2 ++ [InsertSession row])
                else (cs2 ++ [InsertSession row], Some Refused)
            | Answered None =>
                (_ <- markTranscriptsProcessed db (member_ids w) ;;
                 ret (Consumed true)) (cs2 ++ [InsertSession row])
            end
        end
    end.
Proof.
  intros H. unfold turn. cbv zeta. rewrite H. unfold bind at 1.
  destruct (resolve_uuid db _ cs) as [cs1 [uuid|]]; [|reflexivity].
  unfold bind at 1.
  destruct (session_row w uuid cs1) as [cs2 [row|]]; [|reflexivity].
  unfold bind at 1, await.
  destruct (insert_session db cs2 row) as [[e|]|]; [|reflexivity|reflexivity].
  destruct (is_duplicate_key e); reflexivity.
Qed.

Lemma session_row_run (w : Span.t) (uuid : option str) (cs : list call) :
  fst (session_row w uuid cs) = cs
  /\ (snd (session_row w uuid cs) = None <-> Span.windowStart w = None).
Proof.
  unfold session_row. cbv zeta.
  destruct (Span.windowStart w); cbn [ret throw fst snd];
    split; try reflexivity; split; congruence.
Qed.

Ltac splits := repeat match goal with |- _ /\ _ => split end.

Ltac close_turn :=
  cbn [map app List.length firstn]; rewrite ?app_nil_r, <- ?app_assoc;
  splits; auto; try lia;
  try (intros (Hsel' & Hins' & Hupd'); splits; auto; try lia).

(** One turn of the loop: the calls it adds and what it does to the
    counters. *)
Lemma dated_turn (db : store) (st : state) (w : Span.t) :
  let st' := processWindow db st w in
  let n := List.length (Span.transcripts w) in
  exists (sel : list call) (ins : list AISession) (k ds de : nat),
    calls st' = calls st ++ sel ++ map InsertSession ins
                ++ map UpdateProcessed (firstn k (member_ids w))
    /\ updated_ids sel = [] /\ inserted_rows sel = []
    /\ sessionsCreated st' = (sessionsCreated st + ds)%nat
    /\ errors st' = (errors st + de)%nat
    /\ (k <= n)%nat
    /\ (transcriptsProcessed st' = (transcriptsProcessed st + n)%nat
        /\ k = n /\ de = 0%nat
        \/ transcriptsProcessed st' = transcriptsProcessed st
           /\ de = 1%nat /\ ds = 0%nat)
    /\ (List.length ins <= if is_long w then 1 else 0)%nat
    /\ (ds <= List.length ins)%nat
    /\ (List.length ins <= ds + de)%nat
    /\ (answers db ->
        (de = 1%nat -> k = 0%nat)
        /\ (ds + de = if is_long w then 1 else 0)%nat
        /\ (List.length ins + (if is_undated w then 1 else 0) = ds + de)%nat
        /\ (only_duplicates db -> is_undated w = false -> de = 0%nat)).
Proof.
  cbv zeta. unfold processWindow, is_undated, is_long.
  destruct (List.length (Span.content w) <? 100)%nat eqn:El;
    cbn [negb andb].
  - rewrite (turn_short db w _ El).
    destruct (finish_run db w false (calls st))
      as (k & Hk & Ef & [[Es Ek] | [Es Hrej]]);
      destruct ((_ <- markTranscriptsProcessed db (member_ids w) ;;
                 ret (Consumed false)) (calls st)) as [cs1 r];
      cbn [fst snd] in *; subst cs1 r;
      cbn [calls sessionsCreated transcriptsProcessed errors].
    + exists [], [], k, 0%nat, 0%nat. close_turn.
    + exists [], [], k, 0%nat, 1%nat. close_turn.
      all: exfalso; apply Hrej; exact Hupd'.
  - rewrite (turn_long db w _ El).
    destruct (resolve_uuid_run db
                (slug (resolveProjectSlug (to_win w)
                         (extractCwdFromContent (Span.content w))))
                (calls st)) as (sel & Esel & Hu & Hi & Hsel).
    destruct (resolve_uuid db _ (calls st)) as [cs1 [uuid|]];
      cbn [fst snd] in *; subst cs1.
    2:{ cbn [calls sessionsCreated transcriptsProcessed errors].
        exists sel, [], 0%nat, 0%nat, 1%nat. close_turn.
        all: exfalso; apply (Hsel Hsel'); reflexivity. }
    destruct (session_row_run w uuid (calls st ++ sel)) as [Ec Hrow].
    destruct (session_row w uuid (calls st ++ sel)) as [cs2 [row|]];
      cbn [fst snd] in *; subst cs2.
    2:{ cbn [calls sessionsCreated transcriptsProcessed errors].
        assert (Span.windowStart w = None) as -> by (apply Hrow; reflexivity).
        exists sel, [], 0%nat, 0%nat, 1%nat. close_turn. }
    assert ((match Span.windowStart w with
             | Some _ => false
             | None => true
             end) = false) as ->.
    { destruct (Span.windowStart w); [reflexivity|].
      destruct Hrow as [_ Hrow]. specialize (Hrow eq_refl). discriminate. }
    assert (forall session,
              exists k,
                (k <= List.length (Span.transcripts w))%nat
                /\ fst ((_ <- markTranscriptsProcessed db (member_ids w) ;;
                         ret (Consumed session))
                          ((calls st ++ sel) ++ [InsertSession row]))
                   = calls st ++ sel ++ map InsertSession [row]
                     ++ map UpdateProcessed (firstn k (member_ids w))
                /\ (snd ((_ <- markTranscriptsProcessed db (member_ids w) ;;
                          ret (Consumed session))
                           ((calls st ++ sel) ++ [InsertSession row]))
                    = Some (Consumed session)
                    /\ k = List.length (Span.transcripts w)
                    \/ snd ((_ <- markTranscriptsProcessed db (member_ids w) ;;
                             ret (Consumed session))
                              ((calls st ++ sel) ++ [InsertSession row])) = None
                       /\ ~ (forall cs i, update_processed db cs i <> Rejected)))
      as Hfinish.
    { intros session.
      destruct (finish_run db w session ((calls st ++ sel) ++ [InsertSession row]))
        as (k & Hk & Ef & H).
      exists k. split; [exact Hk|]. split; [|exact H].
      rewrite Ef, <- !app_assoc. reflexivity. }
    destruct (insert_session db (calls st ++ sel) row) as [[e|]|] eqn:Ei.
    + destruct (is_duplicate_key e) eqn:Ed.
      * destruct (Hfinish true) as (k & Hk & Ef & [[Es Ek] | [Es Hrej]]);
          destruct ((_ <- markTranscriptsProcessed db (member_ids w) ;;
                     ret (Consumed true))
                      ((calls st ++ sel) ++ [InsertSession row])) as [cs3 r];
          cbn [fst snd] in *; subst cs3 r;
          cbn [calls sessionsCreated transcriptsProcessed errors].
        -- exists sel, [row], k, 1%nat, 0%nat. close_turn.
        -- exists sel, [row], k, 0%nat, 1%nat. close_turn.
           all: exfalso; apply Hrej; exact Hupd'.
      * cbn [calls sessionsCreated transcriptsProcessed errors].
        exists sel, [row], 0%nat, 0%nat, 1%nat. close_turn.
        intros Hdup _. apply Hdup in Ei. congruence.
    + destruct (Hfinish true) as (k & Hk & Ef & [[Es Ek] | [Es Hrej]]);
        destruct ((_ <- markTranscriptsProcessed db (member_ids w) ;;
                   ret (Consumed true))
                    ((calls st ++ sel) ++ [InsertSession row])) as [cs3 r];
        cbn [fst snd] in *; subst cs3 r;
        cbn [calls sessionsCreated transcriptsProcessed errors].
      * exists sel, [row], k, 1%nat, 0%nat. close_turn.
      * exists sel, [row], k, 0%nat, 1%nat. close_turn.
        all: exfalso; apply Hrej; exact Hupd'.
    + cbn [calls sessionsCreated transcriptsProcessed errors].
      exists sel, [row], 0%nat, 0%nat, 1%nat. close_turn.
      all: exfalso; apply (Hins' _ _ Ei).
Qed.

(** The same turn, read on the updates, the inserts and the counters. *)
Lemma dated_turn_counts (db : store) (st : state) (w : Span.t) :
  let st' := processWindow db st w in
  let n := List.length (Span.transcripts w) in
  exists k ni ds de : nat,
    updated_ids (calls st') = updated_ids (calls st) ++ firstn k (member_ids w)
    /\ List.length (inserted_rows (calls st'))
       = (List.length (inserted_rows (calls st)) + ni)%nat
    /\ sessionsCreated st' = (sessionsCreated st + ds)%nat
    /\ errors st' = (errors st + de)%nat
    /\ (k <= n)%nat
    /\ (transcriptsProcessed st' = (transcriptsProcessed st + n)%nat
        /\ k = n /\ de = 0%nat
        \/ transcriptsProcessed st' = transcriptsProcessed st
           /\ de = 1%nat /\ ds = 0%nat)
    /\ (ni <= if is_long w then 1 else 0)%nat
    /\ (ds <= ni)%nat
    /\ (ni <= ds + de)%nat
    /\ (answers db ->
        (de = 1%nat -> k = 0%nat)
        /\ (ds + de = if is_long w then 1 else 0)%nat
        /\ (ni + (if is_undated w then 1 else 0) = ds + de)%nat
        /\ (only_duplicates db -> is_undated w = false -> de = 0%nat)).
Proof.
  cbv zeta.
  destruct (dated_turn db st w)
    as (sel & ins & k & ds & de & Ec & Hu & Hi & Es & Ee & Hk & Hp & H1 & H2
        & H3 & Ha).
  exists k, (List.length ins), ds, de. rewrite Ec.
  rewrite !updated_ids_app, !inserted_rows_app, Hu, Hi,
    updated_ids_inserts, inserted_rows_inserts, updated_ids_updates,
    inserted_rows_updates.
  cbn [app]. rewrite app_nil_r, length_app.
  repeat match goal with
         | |- _ /\ _ => split; [assumption || reflexivity|]
         end.
  exact Ha.
Qed.

Lemma member_ids_entries (ws : list Span.t) :
  flat_map member_ids ws = map Entry.id (all_entries ws).
Proof.
  induction ws as [|w ws IH]; [reflexivity|].
  rewrite all_entries_cons, map_app, <- IH. reflexivity.
Qed.

(** Counters and calls over the whole loop. *)
Lemma dated_loop (db : store) (ws : list Span.t) (st : state) :
  let final := processWindows db ws st in
  let updates := fun x : state => List.length (updated_ids (calls x)) in
  let inserts := fun x : state => List.length (inserted_rows (calls x)) in
  (transcriptsProcessed final + updates st
   <= updates final + transcriptsProcessed st)%nat
  /\ (transcriptsProcessed st <= transcriptsProcessed final)%nat
  /\ (updates final <= updates st + List.length (all_entries ws))%nat
  /\ (sessionsCreated final + inserts st
      <= inserts final + sessionsCreated st)%nat
  /\ (sessionsCreated st <= sessionsCreated final)%nat
  /\ (inserts final <= inserts st + List.length (long_windows ws))%nat
  /\ (inserts final + sessionsCreated st + errors st
      <= inserts st + sessionsCreated final + errors final)%nat
  /\ (sessionsCreated final + errors final
      <= sessionsCreated st + errors st + List.length ws)%nat
  /\ (answers db ->
      (updates final + transcriptsProcessed st
       = updates st + transcriptsProcessed final)%nat
      /\ (sessionsCreated final + errors final
          = sessionsCreated st + errors st
            + List.length (long_windows ws))%nat
      /\ (inserts final + List.length (undated_windows ws)
          + sessionsCreated st + errors st
          = inserts st + sessionsCreated final + errors final)%nat).
Proof.
  unfold processWindows.
  revert st; induction ws as [|w ws IH]; intros st; cbv zeta.
  - simpl. repeat split; lia.
  - simpl fold_left. specialize (IH (processWindow db st w)). cbv zeta in IH.
    destruct IH as (I1 & I2 & I3 & I4 & I5 & I6 & I7 & I8 & I9).
    destruct (dated_turn_counts db st w)
      as (k & ni & ds & de & Eu & Ei & Es & Ee & Hk & Hp & H1 & H2 & H3 & Ha).
    rewrite all_entries_cons, length_app.
    unfold long_windows, undated_windows in *. cbn [filter List.length].
    assert (List.length (firstn k (member_ids w)) = k) as Ek.
    { apply firstn_length_le. unfold member_ids. rewrite length_map.
      exact Hk. }
    rewrite Eu, length_app, Ek in *. rewrite Ei, Es, Ee in *.
    assert (List.length (if is_long w then w :: filter is_long ws
                         else filter is_long ws)
            = ((if is_long w then 1 else 0)
               + List.length (filter is_long ws))%nat) as ->
      by (destruct (is_long w); reflexivity).
    assert (List.length (if is_undated w then w :: filter is_undated ws
                         else filter is_undated ws)
            = ((if is_undated w then 1 else 0)
               + List.length (filter is_undated ws))%nat) as ->
      by (destruct (is_undated w); reflexivity).
    assert (ds + de <= 1)%nat as Hone
      by (destruct (is_long w); destruct Hp as [Hp | Hp]; lia).
    repeat match goal with |- _ /\ _ => split; [lia|] end.
    intros Hans. destruct (Ha Hans) as (A1 & A2 & A3 & _).
    destruct (I9 Hans) as (J1 & J2 & J3).
    repeat split; lia.
Qed.

(** When the store answers every call, refuses no insert but for a
    duplicate key, and every window has a start, the loop marks the
    members of all windows in turn. *)
Lemma dated_loop_marks (db : store) (ws : list Span.t) (st : state) :
  answers db -> only_duplicates db ->
  (forall w, In w ws -> is_undated w = false) ->
  let final := processWindows db ws st in
  updated_ids (calls final) = updated_ids (calls st) ++ flat_map member_ids ws
  /\ errors final = errors st
  /\ transcriptsProcessed final
     = (transcriptsProcessed st + List.length (all_entries ws))%nat.
Proof.
  intros Hans Hdup. unfold processWindows.
  revert st; induction ws as [|w ws IH]; intros st Hws; cbv zeta; simpl.
  - rewrite app_nil_r. auto.
  - assert (forall w', In w' ws -> is_undated w' = false) as Hws'
      by (intros w' Hw'; apply Hws; right; exact Hw').
    specialize (IH (processWindow db st w) Hws'). cbv zeta in IH.
    destruct IH as (I1 & I2 & I3).
    destruct (dated_turn_counts db st w)
      as (k & ni & ds & de & Eu & _ & _ & Ee & Hk & Hp & _ & _ & _ & Ha).
    destruct (Ha Hans) as (_ & _ & _ & Hde).
    assert (de = 0%nat) as -> by (apply Hde; [exact Hdup | apply Hws; left; reflexivity]).
    destruct Hp as [(Ep & -> & _) | (_ & Hde' & _)]; [|discriminate].
    rewrite I1, I2, I3, Eu, Ee, Ep, all_entries_cons, length_app.
    assert (firstn (List.length (Span.transcripts w)) (member_ids w)
            = member_ids w) as ->.
    { unfold member_ids. rewrite <- (length_map Entry.id). apply firstn_all. }
    rewrite <- app_assoc. repeat split; lia.
Qed.

Lemma dated_pass_run (db : store) (batch : list Entry.t) :
  fetch_unprocessed db
  = Answered {| fetch_data := Some batch; fetch_error := None |} ->
  batch <> [] ->
  let final := processWindows db (groupByTimeWindow batch) start in
  processTranscripts db
  = ({| processed := transcriptsProcessed final;
        sessions := Some (sessionsCreated final);
        summary_errors := errors final |}, calls final).
Proof.
  intros E Hne. unfold processTranscripts. rewrite E. simpl.
  destruct batch; [congruence | reflexivity].
Qed.

Lemma dated_windows_count (l : list Entry.t) :
  (List.length (groupByTimeWindow l) <= List.length l)%nat.
Proof.
  rewrite <- (Permutation_length (entries_permutation l)).
  assert (forall ws : list Span.t,
             (forall w, In w ws -> Span.transcripts w <> []) ->
             (List.length ws <= List.length (all_entries ws))%nat) as Hlen.
  { induction ws as [|w ws IHws]; intros Hne; [apply Nat.le_refl|].
    rewrite all_entries_cons, length_app. simpl.
    assert (Span.transcripts w <> []) as Hw by (apply Hne; left; reflexivity).
    assert (List.length ws <= List.length (all_entries ws))%nat
      by (apply IHws; intros w' Hw'; apply Hne; right; exact Hw').
    destruct (Span.transcripts w); [congruence | simpl; lia]. }
  apply Hlen. intros w Hw. apply span_in_group in Hw as (k & Hne & _).
  exact Hne.
Qed.

(** A window of rows whose dates parse has a start. *)
Lemma parsed_window_dated (l : list Entry.t) (w : Span.t) :
  Forall parses l -> In w (groupByTimeWindow l) -> is_undated w = false.
Proof.
  intros Hall Hw. rewrite Forall_forall in Hall.
  pose proof (span_in_group l w Hw) as (k & Hne & Hmem). cbn [fst snd] in *.
  destruct (Span.transcripts w) as [|t rest] eqn:Etr; [congruence|].
  destruct (Hmem t (or_introl eq_refl)) as [_ Ht].
  assert (In t l) as Hin.
  { apply (Permutation_in t (entries_permutation l)).
    unfold all_entries. apply in_concat. exists (Span.transcripts w).
    split; [apply in_map; exact Hw | rewrite Etr; left; reflexivity]. }
  specialize (Hall t Hin). unfold parses in Hall. unfold timed in Ht.
  destruct (timestamp t) as [ts|]; [|congruence].
  destruct Ht as (s & e & m & Es & _).
  unfold is_undated. rewrite Es. apply andb_false_r.
Qed.

(** X5.  The summary of a pass against the calls it made, whatever the
    stored dates and the answers of the store.  No more rows are counted
    processed than updates were issued, and no more updates than rows
    fetched; every session counted had its insert, every insert is
    counted as a session or as an error, there are no more inserts than
    windows of 100 units or more, and no more sessions and errors than
    windows.  When the store answers every call, the updates are exactly
    the rows counted, the sessions and errors are exactly the windows of
    100 units or more, and the inserts are those windows but the ones
    whose start is NaN: for these the row cannot be built, and the pass
    counts an error without an insert. *)
Theorem pass_accounting (db : store) (batch : list Entry.t) :
  fetch_unprocessed db
  = Answered {| fetch_data := Some batch; fetch_error := None |} ->
  let summary := fst (processTranscripts db) in
  let updates := List.length (updated_ids (snd (processTranscripts db))) in
  let inserts := List.length (inserted_rows (snd (processTranscripts db))) in
  let windows := groupByTimeWindow batch in
  exists n,
    sessions summary = Some n
    /\ (processed summary <= updates <= List.length batch)%nat
    /\ (n <= inserts <= n + summary_errors summary)%nat
    /\ (inserts <= List.length (long_windows windows))%nat
    /\ (n + summary_errors summary <= List.length windows)%nat
    /\ (answers db ->
        updates = processed summary
        /\ (n + summary_errors summary)%nat
           = List.length (long_windows windows)
        /\ (inserts + List.length (undated_windows windows))%nat
           = (n + summary_errors summary)%nat).
Proof.
  intros Ef. cbv zeta. destruct batch as [|t batch].
  - unfold processTranscripts. rewrite Ef. simpl. exists 0%nat.
    repeat split; auto.
  - rewrite (dated_pass_run db _ Ef) by discriminate. cbv zeta.
    cbn [fst snd sessions summary_errors processed].
    destruct (dated_loop db (groupByTimeWindow (t :: batch)) start)
      as (I1 & I2 & I3 & I4 & I5 & I6 & I7 & I8 & I9).
    pose proof (Permutation_length (entries_permutation (t :: batch))) as HP.
    eexists. split; [reflexivity|].
    cbn [start calls transcriptsProcessed sessionsCreated errors] in *.
    simpl updated_ids in *. simpl inserted_rows in *.
    cbn [List.length] in I1, I3, I4, I6, I7, I9.
    repeat match goal with |- _ /\ _ => split; [lia|] end.
    intros Hans. destruct (I9 Hans) as (J1 & J2 & J3). repeat split; lia.
Qed.

Lemma pass_accounting_witness :
  summary_errors (fst (processTranscripts db_undated)) = 1%nat
  /\ inserted_rows (snd (processTranscripts db_undated)) = []
  /\ List.length (long_windows
                    (groupByTimeWindow [entry_long; entry_short; entry_late]))
     = 1%nat
  /\ updated_ids (snd (processTranscripts db_undated)) = [11%Z; 12%Z]
  /\ processed (fst (processTranscripts db_undated)) = 2%nat.
Proof.
  assert (answers db_undated) as Hans
    by (repeat split; intros; discriminate).
  destruct (pass_accounting db_undated [entry_long; entry_short; entry_late]
              eq_refl) as (n & _ & _ & _ & _ & _ & H).
  destruct (H Hans) as (Hupd & _ & _).
  split; [reflexivity|]. split; [reflexivity|]. split; [reflexivity|].
  split; [reflexivity|]. rewrite <- Hupd. reflexivity.
Defined.

(** A date that does not parse: the lookup is made, the row cannot be
    built, and the window is counted as an error with neither insert nor
    update; the short window of the other two rows is consumed. *)
Lemma undated_window_is_error :
  processTranscripts db_undated
  = ({| processed := 2; sessions := Some 0%nat; summary_errors := 1 |},
     [ FetchUnprocessed;
       SelectProject (SlugStr "ai-chad-5401");
       UpdateProcessed 11; UpdateProcessed 12 ]).
Proof. reflexivity. Qed.

(** A rejected update: the window of rows 11 and 12 is counted as an
    error although the update of row 11 was issued and answered. *)
Lemma rejected_update_is_error :
  fst (processTranscripts db_rejecting)
  = {| processed := 1; sessions := Some 1%nat; summary_errors := 1 |}
  /\ updated_ids (snd (processTranscripts db_rejecting)) = [10%Z; 11%Z; 12%Z].
Proof. split; reflexivity. Qed.

(** X7.  When every date of the batch parses, the store answers every
    call and refuses no insert but for a duplicate key, the pass consumes
    the whole batch: it issues the updates of all fetched rows, window
    after window, counts them all as processed, counts a session for
    every window of 100 units or more, and reports no error. *)
Theorem pass_consumes_batch (db : store) (batch : list Entry.t) :
  fetch_unprocessed db
  = Answered {| fetch_data := Some batch; fetch_error := None |} ->
  Forall parses batch ->
  answers db ->
  only_duplicates db ->
  updated_ids (snd (processTranscripts db))
  = map Entry.id (all_entries (groupByTimeWindow batch))
  /\ Permutation (updated_ids (snd (processTranscripts db)))
                 (map Entry.id batch)
  /\ processed (fst (processTranscripts db)) = List.length batch
  /\ summary_errors (fst (processTranscripts db)) = 0%nat
  /\ sessions (fst (processTranscripts db))
     = Some (List.length (long_windows (groupByTimeWindow batch))).
Proof.
  intros Ef Hparse Hans Hdup.
  assert (updated_ids (snd (processTranscripts db))
          = map Entry.id (all_entries (groupByTimeWindow batch))
          /\ processed (fst (processTranscripts db)) = List.length batch
          /\ summary_errors (fst (processTranscripts db)) = 0%nat
          /\ sessions (fst (processTranscripts db))
             = Some (List.length (long_windows (groupByTimeWindow batch))))
    as (H1 & H2 & H3 & H4).
  { destruct batch as [|t0 batch].
    - unfold processTranscripts. rewrite Ef. simpl. auto.
    - rewrite (dated_pass_run db _ Ef) by discriminate. cbv zeta.
      cbn [fst snd processed summary_errors sessions].
      destruct (dated_loop_marks db (groupByTimeWindow (t0 :: batch)) start
                  Hans Hdup
                  (fun w => parsed_window_dated (t0 :: batch) w Hparse))
        as (I1 & I2 & I3).
      destruct (dated_loop db (groupByTimeWindow (t0 :: batch)) start)
        as (_ & _ & _ & _ & _ & _ & _ & _ & I9).
      destruct (I9 Hans) as (_ & J2 & _).
      pose proof (Permutation_length (entries_permutation (t0 :: batch)))
        as HP.
      rewrite I1, I2, I3, member_ids_entries, HP.
      rewrite I2 in J2.
      cbn [start calls transcriptsProcessed sessionsCreated errors] in *.
      repeat split; auto. f_equal. lia. }
  repeat split; auto.
  rewrite H1. apply Permutation_map. apply entries_permutation.
Qed.

Lemma pass_consumes_batch_witness :
  processed (fst (processTranscripts db_dated)) = 3%nat
  /\ summary_errors (fst (processTranscripts db_dated)) = 0%nat
  /\ sessions (fst (processTranscripts db_dated)) = Some 1%nat.
Proof.
  assert (Forall parses [of_raw row_long; entry_short; entry_late]) as Hparse
    by (repeat constructor; discriminate).
  assert (answers db_dated) as Hans
    by (repeat split; intros; discriminate).
  assert (only_duplicates db_dated) as Hdup
    by (intros cs row e H; discriminate H).
  destruct (pass_consumes_batch db_dated _ eq_refl Hparse Hans Hdup)
    as (_ & _ & H2 & H3 & H4).
  split; [exact H2|]. split; [exact H3 | exact H4].
Defined.

End DatedPassFacts.
(** ** Rows whose dates parse, a store that answers: the two embeddings *)

Module AgreementFacts.
Import Js Routing Resolver Processor JsFacts ProcessorFacts.
Import Dated DatedPassFacts.


















(** [resolveProjectSlug] reads five fields of a window, and none of its
    times or members. *)
Lemma resolver_reads (w w' : Win.t) (cwd : option str) :
  Win.project_slug w = Win.project_slug w' ->
  Win.team_port w = Win.team_port w' ->
  Win.session_file w = Win.session_file w' ->
  Win.project_folder w = Win.project_folder w' ->
  Win.content w = Win.content w' ->
  resolveProjectSlug w cwd = resolveProjectSlug w' cwd.
Proof.
  intros E1 E2 E3 E4 E5.
  unfold resolveProjectSlug, trusted_label, by_cwd_or_content, by_content,
    haystack.
  rewrite E1, E2, E3, E4, E5. reflexivity.
Qed.


End AgreementFacts.
